(** * PrivateSwap: the pool settlement engine

    A shallow embedding of the two automated market makers of the
    repository, [DemoSwap] (plain [uint256] reserves) and [PrivateSwap]
    (encrypted [euint64] reserves), and the properties the specification
    states about them.

    Solidity storage is threaded through a state-and-error monad: a call
    either returns a value and a new world, or reverts, in which case the
    transaction leaves the world as it was. [uint256] values are integers
    in [0, 2^256) with the checked arithmetic of Solidity 0.8 (overflow,
    underflow and division by zero revert with a panic); [euint64] values
    are 64-bit plaintexts behind a handle, with the wrap-around arithmetic
    of the TFHE library. *)

From Stdlib Require Import ZArith Lia Bool.
From stdpp Require Import base gmap strings.

Local Open Scope Z_scope.

(** ** Errors, results and the contract monad *)

Abbreviation address := Z (only parsing).

Inductive Error : Type :=
| RequireFailed (reason : string)
| Panic (code : Z)
| EnforcedPause
| ExpectedPause
| OwnableUnauthorizedAccount (account : address)
| ReentrancyGuardReentrantCall
| ERC20InsufficientBalance (sender : address) (balance needed : Z)
| ERC20InsufficientAllowance (spender : address) (allowance needed : Z)
| CoprocessorUnset.

Inductive Result (A : Type) : Type :=
| Ok (a : A)
| Revert (e : Error).

Arguments Ok {A} a.
Arguments Revert {A} e.

(** [CoprocessorUnset] is the revert, without data, of a call made to
    the coprocessor of the FHEVM before its addresses are set. *)

(** Arithmetic overflow or underflow, and division by zero. *)
Definition PANIC_ARITHMETIC : Z := 17.
Definition PANIC_DIVISION_BY_ZERO : Z := 18.

Definition M (S A : Type) : Type := S -> Result (A * S).

Definition ret {S A : Type} (a : A) : M S A := fun s => Ok (a, s).

Definition bind {S A B : Type} (m : M S A) (f : A -> M S B) : M S B :=
  fun s => match m s with
           | Ok (a, s') => f a s'
           | Revert e => Revert e
           end.

Definition revert {S A : Type} (e : Error) : M S A := fun _ => Revert e.

Definition gets {S A : Type} (f : S -> A) : M S A := fun s => Ok (f s, s).

Definition modify {S : Type} (f : S -> S) : M S unit := fun s => Ok (tt, f s).

Definition require {S : Type} (cond : bool) (reason : string) : M S unit :=
  if cond then ret tt else revert (RequireFailed reason).

Notation "x <- m ;; k" := (bind m (fun x => k))
  (at level 20, m at level 99, k at level 200, only parsing).
Notation "' pat <- m ;; k" := (bind m (fun x => match x with pat => k end))
  (at level 20, pat pattern, m at level 99, k at level 200, only parsing).
Notation "m ;; k" := (bind m (fun _ => k))
  (at level 100, k at level 200, right associativity, only parsing).

(** A transaction: a reverted call rolls the world back. *)
Definition transact {S A : Type} (m : M S A) (s : S) : S * Result A :=
  match m s with
  | Ok (a, s') => (s', Ok a)
  | Revert e => (s, Revert e)
  end.

(** ** [uint256] with checked arithmetic *)

Definition UINT256_LIMIT : Z := 2 ^ 256.

Definition is_uint256 (x : Z) : Prop := 0 <= x < UINT256_LIMIT.

Definition checked_add {S : Type} (a b : Z) : M S Z :=
  if a + b <? UINT256_LIMIT then ret (a + b) else revert (Panic PANIC_ARITHMETIC).

Definition checked_sub {S : Type} (a b : Z) : M S Z :=
  if b <=? a then ret (a - b) else revert (Panic PANIC_ARITHMETIC).

Definition checked_mul {S : Type} (a b : Z) : M S Z :=
  if a * b <? UINT256_LIMIT then ret (a * b) else revert (Panic PANIC_ARITHMETIC).

Definition checked_div {S : Type} (a b : Z) : M S Z :=
  if b =? 0 then revert (Panic PANIC_DIVISION_BY_ZERO) else ret (a / b).

Infix "+!" := checked_add (at level 50, left associativity).
Infix "-!" := checked_sub (at level 50, left associativity).
Infix "*!" := checked_mul (at level 40, left associativity).
Infix "/!" := checked_div (at level 40, left associativity).

(** ** The ERC20 ledger the transparent pool moves tokens on

    [DemoToken] is an OpenZeppelin [ERC20]; the pool reaches it through
    [SafeERC20], which for such a token is the plain call. Balances and
    allowances are mappings with default zero. A transfer reverts when the
    sender's balance is short, a [transferFrom] also when the allowance is
    short (an allowance of [2^256 - 1] is never spent). The library leaves
    the credit to the receiver unchecked because the total supply bounds
    it; the ledger here keeps no supply and checks the credit instead.
    Minting, burning and the zero address are left out: callers and pools
    are ordinary accounts. *)
Module ERC20.

Record Ledger : Type := mkLedger {
  balances : gmap Z Z;
  allowances : gmap (Z * Z) Z
}.

Definition balanceOf (l : Ledger) (account : address) : Z :=
  default 0 (balances l !! account).

Definition allowance (l : Ledger) (owner spender : address) : Z :=
  default 0 (allowances l !! (owner, spender)).

Definition set_balance (account : address) (v : Z) (l : Ledger) : Ledger :=
  {| balances := <[account := v]> (balances l); allowances := allowances l |}.

Definition set_allowance (owner spender : address) (v : Z) (l : Ledger) : Ledger :=
  {| balances := balances l; allowances := <[(owner, spender) := v]> (allowances l) |}.

Definition _update (from to : address) (value : Z) : M Ledger unit :=
  fromBalance <- gets (fun l => balanceOf l from) ;;
  (if fromBalance <? value
   then revert (ERC20InsufficientBalance from fromBalance value)
   else modify (set_balance from (fromBalance - value))) ;;
  toBalance <- gets (fun l => balanceOf l to) ;;
  credited <- toBalance +! value ;;
  modify (set_balance to credited).

Definition _spendAllowance (owner spender : address) (value : Z) : M Ledger unit :=
  currentAllowance <- gets (fun l => allowance l owner spender) ;;
  if currentAllowance <? UINT256_LIMIT - 1
  then
    if currentAllowance <? value
    then revert (ERC20InsufficientAllowance spender currentAllowance value)
    else modify (set_allowance owner spender (currentAllowance - value))
  else ret tt.

Definition transfer (sender to : address) (value : Z) : M Ledger unit :=
  _update sender to value.

Definition transferFrom (spender from to : address) (value : Z) : M Ledger unit :=
  _spendAllowance from spender value ;;
  _update from to value.

(** Every stored balance is a [uint256]. *)
Definition wf (l : Ledger) : Prop :=
  map_Forall (fun _ v => is_uint256 v) (balances l).

End ERC20.

(** ** DemoSwap: the transparent pool *)
Module DemoSwap.

Inductive Event : Type :=
| Swap (user : address) (aToB : bool) (amountIn amountOut : Z)
| LiquidityAdded (provider : address) (amountA amountB : Z)
| LiquidityRemoved (provider : address) (amountA amountB : Z)
| FeeUpdated (newFee : Z)
| Paused (account : address)
| Unpaused (account : address).

(** Contract storage, with the slots inherited from [Ownable],
    [Pausable] and [ReentrancyGuard]. *)
Record Storage : Type := mkStorage {
  reserveA : Z;
  reserveB : Z;
  feeNumerator : Z;
  _owner : address;
  _paused : bool;
  _entered : bool
}.

(** The pool at address [this], the ledgers of its two tokens and the
    events logged so far. *)
Record World : Type := mkWorld {
  this : address;
  store : Storage;
  tokenA : ERC20.Ledger;
  tokenB : ERC20.Ledger;
  logs : list Event
}.

Definition FEE_DENOMINATOR : Z := 10000.

Definition set_reserveA (v : Z) (s : Storage) : Storage :=
  mkStorage v (reserveB s) (feeNumerator s) (_owner s) (_paused s) (_entered s).
Definition set_reserveB (v : Z) (s : Storage) : Storage :=
  mkStorage (reserveA s) v (feeNumerator s) (_owner s) (_paused s) (_entered s).
Definition set_feeNumerator (v : Z) (s : Storage) : Storage :=
  mkStorage (reserveA s) (reserveB s) v (_owner s) (_paused s) (_entered s).
Definition set_paused (b : bool) (s : Storage) : Storage :=
  mkStorage (reserveA s) (reserveB s) (feeNumerator s) (_owner s) b (_entered s).
Definition set_entered (b : bool) (s : Storage) : Storage :=
  mkStorage (reserveA s) (reserveB s) (feeNumerator s) (_owner s) (_paused s) b.

Definition sstore (f : Storage -> Storage) : M World unit :=
  modify (fun w => mkWorld (this w) (f (store w)) (tokenA w) (tokenB w) (logs w)).

Definition sload {A : Type} (f : Storage -> A) : M World A :=
  gets (fun w => f (store w)).

Definition emit (e : Event) : M World unit :=
  modify (fun w => mkWorld (this w) (store w) (tokenA w) (tokenB w) (logs w ++ [e])).

(** External calls into the two token contracts. *)
Definition callTokenA {A : Type} (m : M ERC20.Ledger A) : M World A :=
  fun w => match m (tokenA w) with
           | Ok (a, l) => Ok (a, mkWorld (this w) (store w) l (tokenB w) (logs w))
           | Revert e => Revert e
           end.

Definition callTokenB {A : Type} (m : M ERC20.Ledger A) : M World A :=
  fun w => match m (tokenB w) with
           | Ok (a, l) => Ok (a, mkWorld (this w) (store w) (tokenA w) l (logs w))
           | Revert e => Revert e
           end.

(** *** Modifiers *)

Definition onlyOwner {A : Type} (sender : address) (body : M World A) : M World A :=
  owner <- sload _owner ;;
  if owner =? sender then body else revert (OwnableUnauthorizedAccount sender).

Definition whenNotPaused {A : Type} (body : M World A) : M World A :=
  paused <- sload _paused ;;
  if paused then revert EnforcedPause else body.

Definition whenPaused {A : Type} (body : M World A) : M World A :=
  paused <- sload _paused ;;
  if paused then body else revert ExpectedPause.

Definition nonReentrant {A : Type} (body : M World A) : M World A :=
  entered <- sload _entered ;;
  if entered then revert ReentrancyGuardReentrantCall
  else
    sstore (set_entered true) ;;
    r <- body ;;
    sstore (set_entered false) ;;
    ret r.

(** *** The swap formula *)

Definition _calculateSwap (aToB : bool) (amountIn : Z) : M World (Z * Z) :=
  rA <- sload reserveA ;;
  rB <- sload reserveB ;;
  let currentReserveIn := if aToB then rA else rB in
  let currentReserveOut := if aToB then rB else rA in
  feeNum <- sload feeNumerator ;;
  scaled <- amountIn *! feeNum ;;
  fee <- scaled /! FEE_DENOMINATOR ;;
  amountInAfterFee <- amountIn -! fee ;;
  numerator <- amountInAfterFee *! currentReserveOut ;;
  denominator <- currentReserveIn +! amountInAfterFee ;;
  amountOut <- numerator /! denominator ;;
  newReserveIn <- currentReserveIn +! amountInAfterFee ;;
  ret (amountOut, newReserveIn).

Definition quote (aToB : bool) (amountIn : Z) : M World Z :=
  rA <- sload reserveA ;;
  rB <- sload reserveB ;;
  if (amountIn =? 0) || (rA =? 0) || (rB =? 0) then ret 0
  else
    '(amountOut, _) <- _calculateSwap aToB amountIn ;;
    ret amountOut.

Definition getExchangeRate (aToB : bool) : M World Z :=
  rA <- sload reserveA ;;
  rB <- sload reserveB ;;
  if (rA =? 0) || (rB =? 0) then ret 0
  else if aToB
       then (scaled <- rB *! 10 ^ 18 ;; scaled /! rA)
       else (scaled <- rA *! 10 ^ 18 ;; scaled /! rB).

(** *** Mutating entry points; [sender] is [msg.sender] *)

Definition swap (sender : address) (aToB : bool) (amountIn minAmountOut : Z) : M World Z :=
  nonReentrant (whenNotPaused (
    require (0 <? amountIn) "Amount must be > 0" ;;
    rA <- sload reserveA ;;
    rB <- sload reserveB ;;
    require ((0 <? rA) && (0 <? rB)) "Insufficient liquidity" ;;
    '(amountOut, _) <- _calculateSwap aToB amountIn ;;
    require (minAmountOut <=? amountOut) "Insufficient output amount" ;;
    self <- gets this ;;
    (if aToB then
       callTokenA (ERC20.transferFrom self sender self amountIn) ;;
       feeNum <- sload feeNumerator ;;
       scaled <- amountIn *! feeNum ;;
       fee <- scaled /! FEE_DENOMINATOR ;;
       net <- amountIn -! fee ;;
       rA0 <- sload reserveA ;;
       rA1 <- rA0 +! net ;;
       sstore (set_reserveA rA1) ;;
       rB0 <- sload reserveB ;;
       rB1 <- rB0 -! amountOut ;;
       sstore (set_reserveB rB1) ;;
       callTokenB (ERC20.transfer self sender amountOut)
     else
       callTokenB (ERC20.transferFrom self sender self amountIn) ;;
       feeNum <- sload feeNumerator ;;
       scaled <- amountIn *! feeNum ;;
       fee <- scaled /! FEE_DENOMINATOR ;;
       net <- amountIn -! fee ;;
       rB0 <- sload reserveB ;;
       rB1 <- rB0 +! net ;;
       sstore (set_reserveB rB1) ;;
       rA0 <- sload reserveA ;;
       rA1 <- rA0 -! amountOut ;;
       sstore (set_reserveA rA1) ;;
       callTokenA (ERC20.transfer self sender amountOut)) ;;
    emit (Swap sender aToB amountIn amountOut) ;;
    ret amountOut)).

Definition addLiquidity (sender : address) (amountA amountB : Z) : M World unit :=
  nonReentrant (whenNotPaused (
    require ((0 <? amountA) && (0 <? amountB)) "Amounts must be > 0" ;;
    self <- gets this ;;
    callTokenA (ERC20.transferFrom self sender self amountA) ;;
    callTokenB (ERC20.transferFrom self sender self amountB) ;;
    rA0 <- sload reserveA ;;
    rA1 <- rA0 +! amountA ;;
    sstore (set_reserveA rA1) ;;
    rB0 <- sload reserveB ;;
    rB1 <- rB0 +! amountB ;;
    sstore (set_reserveB rB1) ;;
    emit (LiquidityAdded sender amountA amountB))).

Definition removeLiquidity (sender : address) (amountA amountB : Z) : M World unit :=
  nonReentrant (whenNotPaused (
    rA <- sload reserveA ;;
    rB <- sload reserveB ;;
    require ((amountA <=? rA) && (amountB <=? rB)) "Insufficient liquidity" ;;
    rA1 <- rA -! amountA ;;
    sstore (set_reserveA rA1) ;;
    rB0 <- sload reserveB ;;
    rB1 <- rB0 -! amountB ;;
    sstore (set_reserveB rB1) ;;
    self <- gets this ;;
    callTokenA (ERC20.transfer self sender amountA) ;;
    callTokenB (ERC20.transfer self sender amountB) ;;
    emit (LiquidityRemoved sender amountA amountB))).

Definition updateFee (sender : address) (newFeeNumerator : Z) : M World unit :=
  onlyOwner sender (
    require (newFeeNumerator <=? 100) "Fee too high" ;;
    sstore (set_feeNumerator newFeeNumerator) ;;
    emit (FeeUpdated newFeeNumerator)).

Definition pause (sender : address) : M World unit :=
  onlyOwner sender (whenNotPaused (
    sstore (set_paused true) ;;
    emit (Paused sender))).

Definition unpause (sender : address) : M World unit :=
  onlyOwner sender (whenPaused (
    sstore (set_paused false) ;;
    emit (Unpaused sender))).

(** The world right after deployment by [deployer]: empty reserves and
    the default fee of 30 basis points. *)
Definition constructor (self deployer : address) (tA tB : ERC20.Ledger) : World :=
  mkWorld self (mkStorage 0 0 30 deployer false false) tA tB [].

(** The world between transactions: every slot and balance a
    [uint256], the guard released. *)
Definition wf (w : World) : Prop :=
  is_uint256 (reserveA (store w)) /\ is_uint256 (reserveB (store w)) /\
  is_uint256 (feeNumerator (store w)) /\ _entered (store w) = false /\
  ERC20.wf (tokenA w) /\ ERC20.wf (tokenB w).

(** Both reserves hold something. *)
Definition positive (w : World) : Prop :=
  0 < reserveA (store w) /\ 0 < reserveB (store w).

Definition reserveIn (aToB : bool) (w : World) : Z :=
  if aToB then reserveA (store w) else reserveB (store w).

Definition reserveOut (aToB : bool) (w : World) : Z :=
  if aToB then reserveB (store w) else reserveA (store w).

(** [k], the product of the reserves. *)
Definition product (w : World) : Z := reserveA (store w) * reserveB (store w).

(** The world with the pause flag forced to [b]. *)
Definition with_paused (b : bool) (w : World) : World :=
  mkWorld (this w) (set_paused b (store w)) (tokenA w) (tokenB w) (logs w).

(** What holds between transactions: a well-formed world whose fee is
    within the bound [updateFee] enforces. *)
Definition invariant (w : World) : Prop :=
  wf w /\ feeNumerator (store w) <= 100.

(** *** Transactions and the worlds they reach *)

Inductive Call : Type :=
| CallSwap (aToB : bool) (amountIn minAmountOut : Z)
| CallAddLiquidity (amountA amountB : Z)
| CallRemoveLiquidity (amountA amountB : Z)
| CallUpdateFee (newFeeNumerator : Z)
| CallPause
| CallUnpause.

Definition call (sender : address) (c : Call) : M World unit :=
  match c with
  | CallSwap aToB amountIn minAmountOut =>
      _ <- swap sender aToB amountIn minAmountOut ;; ret tt
  | CallAddLiquidity amountA amountB => addLiquidity sender amountA amountB
  | CallRemoveLiquidity amountA amountB => removeLiquidity sender amountA amountB
  | CallUpdateFee newFeeNumerator => updateFee sender newFeeNumerator
  | CallPause => pause sender
  | CallUnpause => unpause sender
  end.

(** Every argument of the call is a [uint256]. *)
Definition valid_call (c : Call) : Prop :=
  match c with
  | CallSwap _ amountIn minAmountOut => is_uint256 amountIn /\ is_uint256 minAmountOut
  | CallAddLiquidity amountA amountB => is_uint256 amountA /\ is_uint256 amountB
  | CallRemoveLiquidity amountA amountB => is_uint256 amountA /\ is_uint256 amountB
  | CallUpdateFee newFeeNumerator => is_uint256 newFeeNumerator
  | CallPause => True
  | CallUnpause => True
  end.

(** The worlds a deployed pool can be in: after any transaction on it,
    and after anything else that happens on the two token ledgers. *)
Inductive reachable : World -> Prop :=
| reachable_constructor (self deployer : address) (tA tB : ERC20.Ledger) :
    ERC20.wf tA -> ERC20.wf tB -> reachable (constructor self deployer tA tB)
| reachable_call (w : World) (sender : address) (c : Call) :
    reachable w -> valid_call c -> reachable (transact (call sender c) w).1
| reachable_ledgers (w : World) (tA tB : ERC20.Ledger) :
    reachable w -> ERC20.wf tA -> ERC20.wf tB ->
    reachable (mkWorld (this w) (store w) tA tB (logs w)).

End DemoSwap.

(** ** Encrypted 64-bit values

    An [euint64] is a handle to a ciphertext; the zero handle is the
    uninitialised value. The embedding keeps the plaintext behind the
    handle: [None] is the zero handle. As in the TFHE library, binary
    operations read an uninitialised operand as an encryption of zero,
    arithmetic wraps modulo [2^64], and comparison, conjunction and
    selection are computed on the plaintexts. Access-control grants
    ([allow], [allowThis], [allowTransient]) change no value and are left
    out; inputs are taken as already verified against their proofs.

    The functions of this module are the values the operations compute.
    In a contract every operation but [isInitialized] is a call to the
    coprocessor contracts whose addresses the FHEVM configuration of the
    calling contract names ([TFHE.setFHEVM]); the call reverts while
    they are unset. [PrivateSwap.coprocessor] is that call. *)
Module TFHE.

Abbreviation euint64 := (option Z) (only parsing).
Abbreviation ebool := (option bool) (only parsing).

Definition UINT64_LIMIT : Z := 2 ^ 64.

Definition is_uint64 (x : Z) : Prop := 0 <= x < UINT64_LIMIT.

Definition isInitialized (v : euint64) : bool :=
  match v with Some _ => true | None => false end.

Definition plain (v : euint64) : Z := default 0 v.

Definition plainb (c : ebool) : bool := default false c.

Definition asEuint64 (v : Z) : euint64 := Some (v mod UINT64_LIMIT).

Definition add (a b : euint64) : euint64 :=
  Some ((plain a + plain b) mod UINT64_LIMIT).

Definition sub (a b : euint64) : euint64 :=
  Some ((plain a - plain b) mod UINT64_LIMIT).

Definition mul (a b : euint64) : euint64 :=
  Some ((plain a * plain b) mod UINT64_LIMIT).

(** Multiplication by a public [uint64] scalar. *)
Definition mul_scalar (a : euint64) (b : Z) : euint64 :=
  Some ((plain a * b) mod UINT64_LIMIT).

Definition ge (a b : euint64) : ebool := Some (plain b <=? plain a).

Definition and (a b : ebool) : ebool := Some (plainb a && plainb b).

Definition select (c : ebool) (a b : euint64) : euint64 :=
  if plainb c then a else b.

(** Whether a stored value is a 64-bit plaintext (or the zero handle). *)
Definition wf (v : euint64) : Prop :=
  match v with Some x => is_uint64 x | None => True end.

End TFHE.

(** ** The confidential token ledger

    The pool only declares the interface
    [ILocalConfidentialFungibleToken]; no implementation of it is part of
    this repository. The ledger below is an assumption about one: as in
    the confidential-token convention, a transfer never reveals whether
    the balance covered it, it moves the amount when the sender's balance
    covers it and zero otherwise, and returns the amount actually moved
    (which the pool ignores). Operator approvals and the reverts of an
    implementation are left out. In the pool as it is written no call
    reaches the token (see [PrivateSwap.coprocessor]); what is proved of
    the ledger is about a completed call only. *)
Module ConfidentialToken.

Abbreviation Ledger := (gmap Z Z) (only parsing).

Definition confidentialBalanceOf (l : Ledger) (account : address) : option Z :=
  l !! account.

Definition _update (from to : address) (amount : option Z) : M Ledger (option Z) :=
  fromBalance <- gets (fun l => confidentialBalanceOf l from) ;;
  let success := TFHE.ge fromBalance amount in
  let transferred := TFHE.select success amount (TFHE.asEuint64 0) in
  modify (fun l : Ledger => <[from := TFHE.plain (TFHE.sub fromBalance transferred)]> l) ;;
  toBalance <- gets (fun l => confidentialBalanceOf l to) ;;
  modify (fun l : Ledger => <[to := TFHE.plain (TFHE.add toBalance transferred)]> l) ;;
  ret transferred.

Definition confidentialTransfer (sender recipient : address) (amount : option Z)
  : M Ledger (option Z) :=
  _update sender recipient amount.

Definition confidentialTransferFrom (spender sender recipient : address) (amount : option Z)
  : M Ledger (option Z) :=
  _update sender recipient amount.

Definition balanceOf (l : Ledger) (account : address) : Z :=
  TFHE.plain (confidentialBalanceOf l account).

(** Every stored balance is a 64-bit plaintext. *)
Definition wf (l : Ledger) : Prop :=
  map_Forall (fun _ v => TFHE.is_uint64 v) l.

End ConfidentialToken.

(** ** PrivateSwap: the confidential pool *)
Module PrivateSwap.

Inductive Event : Type :=
| LiquidityAdded (provider : address)
| LiquidityRemoved (provider : address)
| SwapExecuted (sender tokenIn tokenOut to : address)
| FeeUpdated (oldFee newFee : Z)
| QuoteCalculated (user inputToken : address)
| EmergencyWithdraw (token : address) (amount : Z)
| Paused (account : address)
| Unpaused (account : address).

Record Storage : Type := mkStorage {
  _reserveA : option Z;
  _reserveB : option Z;
  swapFee : Z;
  _lastNumerator : gmap Z Z;
  _lastDenominator : gmap Z Z;
  _owner : address;
  _paused : bool;
  _entered : bool;
  fhevmConfigSet : bool
}.

(** [fhevmConfigSet]: whether the FHEVM configuration in the contract's
    storage names the coprocessor ([TFHE.setFHEVM] has run). The contract
    imports [ZamaFHEVMConfig] but neither its constructor nor any of its
    functions sets the configuration. *)

(** The pool at address [this], the addresses of its two tokens (fixed
    at construction), their ledgers and the events logged so far. *)
Record World : Type := mkWorld {
  this : address;
  tokenA_address : address;
  tokenB_address : address;
  store : Storage;
  tokenA : gmap Z Z;
  tokenB : gmap Z Z;
  logs : list Event
}.

Definition MAX_FEE : Z := 1000.
Definition FEE_DENOMINATOR : Z := 10000.

Definition set_reserveA (v : option Z) (s : Storage) : Storage :=
  mkStorage v (_reserveB s) (swapFee s) (_lastNumerator s) (_lastDenominator s)
            (_owner s) (_paused s) (_entered s) (fhevmConfigSet s).
Definition set_reserveB (v : option Z) (s : Storage) : Storage :=
  mkStorage (_reserveA s) v (swapFee s) (_lastNumerator s) (_lastDenominator s)
            (_owner s) (_paused s) (_entered s) (fhevmConfigSet s).
Definition set_swapFee (v : Z) (s : Storage) : Storage :=
  mkStorage (_reserveA s) (_reserveB s) v (_lastNumerator s) (_lastDenominator s)
            (_owner s) (_paused s) (_entered s) (fhevmConfigSet s).
Definition set_lastNumerator (user : address) (v : option Z) (s : Storage) : Storage :=
  mkStorage (_reserveA s) (_reserveB s) (swapFee s)
            (match v with Some x => <[user := x]> (_lastNumerator s)
                        | None => delete user (_lastNumerator s) end)
            (_lastDenominator s) (_owner s) (_paused s) (_entered s) (fhevmConfigSet s).
Definition set_lastDenominator (user : address) (v : option Z) (s : Storage) : Storage :=
  mkStorage (_reserveA s) (_reserveB s) (swapFee s) (_lastNumerator s)
            (match v with Some x => <[user := x]> (_lastDenominator s)
                        | None => delete user (_lastDenominator s) end)
            (_owner s) (_paused s) (_entered s) (fhevmConfigSet s).
Definition set_paused (b : bool) (s : Storage) : Storage :=
  mkStorage (_reserveA s) (_reserveB s) (swapFee s) (_lastNumerator s) (_lastDenominator s)
            (_owner s) b (_entered s) (fhevmConfigSet s).
Definition set_entered (b : bool) (s : Storage) : Storage :=
  mkStorage (_reserveA s) (_reserveB s) (swapFee s) (_lastNumerator s) (_lastDenominator s)
            (_owner s) (_paused s) b (fhevmConfigSet s).

Definition sstore (f : Storage -> Storage) : M World unit :=
  modify (fun w => mkWorld (this w) (tokenA_address w) (tokenB_address w)
                           (f (store w)) (tokenA w) (tokenB w) (logs w)).

Definition sload {A : Type} (f : Storage -> A) : M World A :=
  gets (fun w => f (store w)).

Definition emit (e : Event) : M World unit :=
  modify (fun w => mkWorld (this w) (tokenA_address w) (tokenB_address w)
                           (store w) (tokenA w) (tokenB w) (logs w ++ [e])).

Definition callTokenA {A : Type} (m : M (gmap Z Z) A) : M World A :=
  fun w => match m (tokenA w) with
           | Ok (a, l) => Ok (a, mkWorld (this w) (tokenA_address w) (tokenB_address w)
                                         (store w) l (tokenB w) (logs w))
           | Revert e => Revert e
           end.

Definition callTokenB {A : Type} (m : M (gmap Z Z) A) : M World A :=
  fun w => match m (tokenB w) with
           | Ok (a, l) => Ok (a, mkWorld (this w) (tokenA_address w) (tokenB_address w)
                                         (store w) (tokenA w) l (logs w))
           | Revert e => Revert e
           end.

(** A call to the coprocessor. Nothing in the contract changes the
    configuration, so every TFHE operation of a transaction meets the
    same one: a function checks it where it makes its first such call,
    and the operations after that are given by their values. *)
Definition coprocessor : M World unit :=
  configured <- sload fhevmConfigSet ;;
  if configured then ret tt else revert CoprocessorUnset.

(** *** Modifiers *)

Definition onlyOwner {A : Type} (sender : address) (body : M World A) : M World A :=
  owner <- sload _owner ;;
  if owner =? sender then body else revert (OwnableUnauthorizedAccount sender).

Definition whenNotPaused {A : Type} (body : M World A) : M World A :=
  paused <- sload _paused ;;
  if paused then revert EnforcedPause else body.

Definition whenPaused {A : Type} (body : M World A) : M World A :=
  paused <- sload _paused ;;
  if paused then body else revert ExpectedPause.

Definition nonReentrant {A : Type} (body : M World A) : M World A :=
  entered <- sload _entered ;;
  if entered then revert ReentrancyGuardReentrantCall
  else
    sstore (set_entered true) ;;
    r <- body ;;
    sstore (set_entered false) ;;
    ret r.

(** *** Admin functions *)

Definition pause (sender : address) : M World unit :=
  onlyOwner sender (whenNotPaused (
    sstore (set_paused true) ;;
    emit (Paused sender))).

Definition unpause (sender : address) : M World unit :=
  onlyOwner sender (whenPaused (
    sstore (set_paused false) ;;
    emit (Unpaused sender))).

Definition setSwapFee (sender : address) (newFee : Z) : M World unit :=
  onlyOwner sender (
    require (newFee <=? MAX_FEE) "Fee exceeds maximum" ;;
    oldFee <- sload swapFee ;;
    sstore (set_swapFee newFee) ;;
    emit (FeeUpdated oldFee newFee)).

Definition emergencyWithdraw (sender : address) (token : address) (amount : Z) : M World unit :=
  onlyOwner sender (
    require (0 <? amount) "Amount must be > 0" ;;
    emit (EmergencyWithdraw token amount)).

(** *** Liquidity functions; amounts are the verified encrypted inputs *)

Definition addLiquidity (sender : address) (amountA amountB : Z) : M World unit :=
  whenNotPaused (nonReentrant (
    coprocessor ;;
    let decryptedAmountA := TFHE.asEuint64 amountA in
    let decryptedAmountB := TFHE.asEuint64 amountB in
    self <- gets this ;;
    callTokenA (ConfidentialToken.confidentialTransferFrom self sender self decryptedAmountA) ;;
    callTokenB (ConfidentialToken.confidentialTransferFrom self sender self decryptedAmountB) ;;
    rA <- sload _reserveA ;;
    rB <- sload _reserveB ;;
    (if negb (TFHE.isInitialized rA) then
       sstore (set_reserveA decryptedAmountA) ;;
       sstore (set_reserveB decryptedAmountB)
     else
       sstore (set_reserveA (TFHE.add rA decryptedAmountA)) ;;
       sstore (set_reserveB (TFHE.add rB decryptedAmountB))) ;;
    emit (LiquidityAdded sender))).

(** The encrypted comparison and the amounts [removeLiquidity] selects. *)
Definition hasEnoughReserves (rA rB : option Z) (amountA amountB : Z) : option bool :=
  let hasEnoughA := TFHE.ge rA (TFHE.asEuint64 amountA) in
  let hasEnoughB := TFHE.ge rB (TFHE.asEuint64 amountB) in
  TFHE.and hasEnoughA hasEnoughB.

Definition actualAmount (hasEnough : option bool) (amount : Z) : option Z :=
  TFHE.select hasEnough (TFHE.asEuint64 amount) (TFHE.asEuint64 0).

Definition removeLiquidity (sender : address) (amountA amountB : Z) : M World unit :=
  whenNotPaused (nonReentrant (
    rA <- sload _reserveA ;;
    rB <- sload _reserveB ;;
    require (TFHE.isInitialized rA) "Reserves not initialized" ;;
    require (TFHE.isInitialized rB) "Reserves not initialized" ;;
    coprocessor ;;
    let hasEnough := hasEnoughReserves rA rB amountA amountB in
    let actualAmountA := actualAmount hasEnough amountA in
    let actualAmountB := actualAmount hasEnough amountB in
    self <- gets this ;;
    callTokenA (ConfidentialToken.confidentialTransfer self sender actualAmountA) ;;
    callTokenB (ConfidentialToken.confidentialTransfer self sender actualAmountB) ;;
    rA0 <- sload _reserveA ;;
    sstore (set_reserveA (TFHE.sub rA0 actualAmountA)) ;;
    rB0 <- sload _reserveB ;;
    sstore (set_reserveB (TFHE.sub rB0 actualAmountB)) ;;
    emit (LiquidityRemoved sender))).

(** *** Quote: numerator and denominator for the division off chain *)

(** The encrypted values [getQuote] computes from the input, the public
    [feeMultiplier] and the reserves. *)
Definition amountInWithFee (amountIn feeMultiplier : Z) : option Z :=
  TFHE.mul_scalar (TFHE.asEuint64 amountIn) feeMultiplier.

Definition quoteNumerator (amountIn feeMultiplier : Z) (reserveOut : option Z) : option Z :=
  TFHE.mul (amountInWithFee amountIn feeMultiplier) reserveOut.

Definition quoteDenominator (amountIn feeMultiplier : Z) (reserveIn : option Z) : option Z :=
  TFHE.add (TFHE.mul_scalar reserveIn (FEE_DENOMINATOR mod TFHE.UINT64_LIMIT))
           (amountInWithFee amountIn feeMultiplier).

Definition getQuote (sender : address) (amountIn : Z) (isAtoB : bool) : M World unit :=
  rA <- sload _reserveA ;;
  rB <- sload _reserveB ;;
  require (TFHE.isInitialized rA) "Reserves not initialized" ;;
  require (TFHE.isInitialized rB) "Reserves not initialized" ;;
  coprocessor ;;
  let reserveIn := if isAtoB then rA else rB in
  let reserveOut := if isAtoB then rB else rA in
  fee <- sload swapFee ;;
  diff <- FEE_DENOMINATOR -! fee ;;
  let feeMultiplier := diff mod TFHE.UINT64_LIMIT in
  let numerator := quoteNumerator amountIn feeMultiplier reserveOut in
  let denominator := quoteDenominator amountIn feeMultiplier reserveIn in
  sstore (set_lastNumerator sender numerator) ;;
  sstore (set_lastDenominator sender denominator) ;;
  tA <- gets tokenA_address ;;
  tB <- gets tokenB_address ;;
  emit (QuoteCalculated sender (if isAtoB then tA else tB)).

Definition getEncryptedNumerator (sender : address) : M World (option Z) :=
  sload (fun s => _lastNumerator s !! sender).

Definition getEncryptedDenominator (sender : address) : M World (option Z) :=
  sload (fun s => _lastDenominator s !! sender).

(** *** Swap *)

(** The encrypted slippage check and the amounts [swap] selects. *)
Definition isAmountSufficient (expectedAmountOut minAmountOut : Z) : option bool :=
  TFHE.ge (TFHE.asEuint64 expectedAmountOut) (TFHE.asEuint64 minAmountOut).

Definition actualTransferAmount (expectedAmountOut minAmountOut : Z) : option Z :=
  TFHE.select (isAmountSufficient expectedAmountOut minAmountOut)
              (TFHE.asEuint64 expectedAmountOut) (TFHE.asEuint64 0).

Definition actualInputAmount (amountIn expectedAmountOut minAmountOut : Z) : option Z :=
  TFHE.select (isAmountSufficient expectedAmountOut minAmountOut)
              (TFHE.asEuint64 amountIn) (TFHE.asEuint64 0).

Definition swap (sender : address) (amountIn expectedAmountOut minAmountOut : Z)
                (isAtoB : bool) : M World unit :=
  whenNotPaused (nonReentrant (
    rA <- sload _reserveA ;;
    rB <- sload _reserveB ;;
    require (TFHE.isInitialized rA) "Reserves not initialized" ;;
    require (TFHE.isInitialized rB) "Reserves not initialized" ;;
    coprocessor ;;
    tA <- gets tokenA_address ;;
    tB <- gets tokenB_address ;;
    let tokenIn := if isAtoB then tA else tB in
    let tokenOut := if isAtoB then tB else tA in
    let actualOut := actualTransferAmount expectedAmountOut minAmountOut in
    let actualIn := actualInputAmount amountIn expectedAmountOut minAmountOut in
    self <- gets this ;;
    (if isAtoB
     then callTokenA (ConfidentialToken.confidentialTransferFrom self sender self actualIn)
     else callTokenB (ConfidentialToken.confidentialTransferFrom self sender self actualIn)) ;;
    (if isAtoB then
       rA0 <- sload _reserveA ;;
       sstore (set_reserveA (TFHE.add rA0 actualIn)) ;;
       rB0 <- sload _reserveB ;;
       sstore (set_reserveB (TFHE.sub rB0 actualOut))
     else
       rB0 <- sload _reserveB ;;
       sstore (set_reserveB (TFHE.add rB0 actualIn)) ;;
       rA0 <- sload _reserveA ;;
       sstore (set_reserveA (TFHE.sub rA0 actualOut))) ;;
    (if isAtoB
     then callTokenB (ConfidentialToken.confidentialTransfer self sender actualOut)
     else callTokenA (ConfidentialToken.confidentialTransfer self sender actualOut)) ;;
    emit (SwapExecuted sender tokenIn tokenOut sender))).

(** *** Views *)

Definition getEncryptedReserveA : M World (option Z) := sload _reserveA.
Definition getEncryptedReserveB : M World (option Z) := sload _reserveB.

Definition isInitialized : M World bool :=
  sload (fun s => TFHE.isInitialized (_reserveA s) && TFHE.isInitialized (_reserveB s)).

Definition getSwapFee : M World Z := sload swapFee.

(** The world right after deployment: uninitialised reserves, the
    default fee of 30 basis points, no quote stored, no FHEVM
    configuration set. *)
Definition constructor (self tA tB initialOwner : address) (lA lB : gmap Z Z) : World :=
  mkWorld self tA tB (mkStorage None None 30 ∅ ∅ initialOwner false false false) lA lB [].

(** The world between transactions: reserves and balances are 64-bit
    plaintexts, the fee a [uint256], the guard released. *)
Definition wf (w : World) : Prop :=
  TFHE.wf (_reserveA (store w)) /\ TFHE.wf (_reserveB (store w)) /\
  is_uint256 (swapFee (store w)) /\ _entered (store w) = false /\
  ConfidentialToken.wf (tokenA w) /\ ConfidentialToken.wf (tokenB w).

(** The plaintexts behind the two reserves. *)
Definition reserveA (w : World) : Z := TFHE.plain (_reserveA (store w)).
Definition reserveB (w : World) : Z := TFHE.plain (_reserveB (store w)).

Definition initialized (w : World) : Prop :=
  TFHE.isInitialized (_reserveA (store w)) = true /\
  TFHE.isInitialized (_reserveB (store w)) = true.

Definition positive (w : World) : Prop := 0 < reserveA w /\ 0 < reserveB w.

Definition reserveIn (isAtoB : bool) (w : World) : Z :=
  if isAtoB then reserveA w else reserveB w.

Definition reserveOut (isAtoB : bool) (w : World) : Z :=
  if isAtoB then reserveB w else reserveA w.

(** The quote stored for [user], as the user decrypts it. *)
Definition lastNumerator (w : World) (user : address) : Z :=
  TFHE.plain (_lastNumerator (store w) !! user).
Definition lastDenominator (w : World) (user : address) : Z :=
  TFHE.plain (_lastDenominator (store w) !! user).

(** The world with the pause flag forced to [b]. *)
Definition with_paused (b : bool) (w : World) : World :=
  mkWorld (this w) (tokenA_address w) (tokenB_address w)
          (set_paused b (store w)) (tokenA w) (tokenB w) (logs w).

(** What holds between transactions: a well-formed world whose fee is
    within [MAX_FEE]. *)
Definition invariant (w : World) : Prop :=
  wf w /\ swapFee (store w) <= MAX_FEE.

(** *** Transactions and the worlds they reach *)

Inductive Call : Type :=
| CallSwap (amountIn expectedAmountOut minAmountOut : Z) (isAtoB : bool)
| CallAddLiquidity (amountA amountB : Z)
| CallRemoveLiquidity (amountA amountB : Z)
| CallGetQuote (amountIn : Z) (isAtoB : bool)
| CallSetSwapFee (newFee : Z)
| CallEmergencyWithdraw (token : address) (amount : Z)
| CallPause
| CallUnpause.

Definition call (sender : address) (c : Call) : M World unit :=
  match c with
  | CallSwap amountIn expectedAmountOut minAmountOut isAtoB =>
      swap sender amountIn expectedAmountOut minAmountOut isAtoB
  | CallAddLiquidity amountA amountB => addLiquidity sender amountA amountB
  | CallRemoveLiquidity amountA amountB => removeLiquidity sender amountA amountB
  | CallGetQuote amountIn isAtoB => getQuote sender amountIn isAtoB
  | CallSetSwapFee newFee => setSwapFee sender newFee
  | CallEmergencyWithdraw token amount => emergencyWithdraw sender token amount
  | CallPause => pause sender
  | CallUnpause => unpause sender
  end.

(** The plain argument of the call, where it has one, is a [uint256]. *)
Definition valid_call (c : Call) : Prop :=
  match c with
  | CallSetSwapFee newFee => is_uint256 newFee
  | CallEmergencyWithdraw _ amount => is_uint256 amount
  | _ => True
  end.

(** The worlds a deployed pool can be in: after any transaction on it,
    and after anything else that happens on the two token ledgers. *)
Inductive reachable : World -> Prop :=
| reachable_constructor (self tA tB initialOwner : address) (lA lB : gmap Z Z) :
    ConfidentialToken.wf lA -> ConfidentialToken.wf lB ->
    reachable (constructor self tA tB initialOwner lA lB)
| reachable_call (w : World) (sender : address) (c : Call) :
    reachable w -> valid_call c -> reachable (transact (call sender c) w).1
| reachable_ledgers (w : World) (lA lB : gmap Z Z) :
    reachable w -> ConfidentialToken.wf lA -> ConfidentialToken.wf lB ->
    reachable (mkWorld (this w) (tokenA_address w) (tokenB_address w)
                       (store w) lA lB (logs w)).

End PrivateSwap.

(** ** The formula as the specification words it *)

(** [amountInAfterFee = amountIn - floor(amountIn * feeBps / 10000)] and
    [amountOut = floor(amountInAfterFee * reserveOut / (reserveIn + amountInAfterFee))]. *)
Definition spec_amountInAfterFee (amountIn feeBps : Z) : Z :=
  amountIn - amountIn * feeBps / 10000.

Definition spec_computeOutput (reserveIn reserveOut amountIn feeBps : Z) : Z :=
  spec_amountInAfterFee amountIn feeBps * reserveOut
  / (reserveIn + spec_amountInAfterFee amountIn feeBps).

(** The result of a call with the world mapped by [f]. *)
Definition map_world {S A : Type} (f : S -> S) (r : Result (A * S)) : Result (A * S) :=
  match r with
  | Ok (a, s) => Ok (a, f s)
  | Revert e => Revert e
  end.

(** A computation that returns from every state. *)
Definition total {S A : Type} (m : M S A) : Prop :=
  forall s, exists a s', m s = Ok (a, s').

(** ** Scenario worlds *)

(** An ERC20 ledger with one trader and one pool; the trader has approved
    the pool for [approved]. *)
Definition ledger_of (trader pool traderBalance poolBalance approved : Z) : ERC20.Ledger :=
  ERC20.mkLedger (<[pool := poolBalance]> {[trader := traderBalance]})
                 {[(trader, pool) := approved]}.

(** A transparent pool at address 100 owned by account 1, trader 7
    holding and approving 20000 of each token. *)
Definition demo_world (rA rB fee : Z) : DemoSwap.World :=
  DemoSwap.mkWorld 100 (DemoSwap.mkStorage rA rB fee 1 false false)
    (ledger_of 7 100 20000 rA 20000) (ledger_of 7 100 20000 rB 20000) [].

(** Scenario A: reserves 1,000,000 and 500,000, fee 30 basis points. *)
Definition scenarioA : DemoSwap.World := demo_world 1000000 500000 30.

(** A confidential pool at address 100 over tokens 201 and 202, owned by
    account 1, trader 7 holding 20000 of each token, as a test network
    with a coprocessor sets it up: the FHEVM configuration in place. *)
Definition private_world (rA rB : option Z) (fee : Z) : PrivateSwap.World :=
  PrivateSwap.mkWorld 100 201 202
    (PrivateSwap.mkStorage rA rB fee ∅ ∅ 1 false false true)
    (<[100 := TFHE.plain rA]> {[7 := 20000]})
    (<[100 := TFHE.plain rB]> {[7 := 20000]}) [].

(** Scenario D: the confidential pool with the reserves of Scenario A. *)
Definition scenarioD : PrivateSwap.World :=
  private_world (Some 1000000) (Some 500000) 30.

(** ** What the transparent pool holds

    The pool's own balance on each token ledger, next to the reserve it
    records for that token. *)
Module Holdings.

Definition ledgerIn (aToB : bool) (w : DemoSwap.World) : ERC20.Ledger :=
  if aToB then DemoSwap.tokenA w else DemoSwap.tokenB w.

Definition ledgerOut (aToB : bool) (w : DemoSwap.World) : ERC20.Ledger :=
  if aToB then DemoSwap.tokenB w else DemoSwap.tokenA w.

Definition holdingA (w : DemoSwap.World) : Z :=
  ERC20.balanceOf (DemoSwap.tokenA w) (DemoSwap.this w).

Definition holdingB (w : DemoSwap.World) : Z :=
  ERC20.balanceOf (DemoSwap.tokenB w) (DemoSwap.this w).

(** The fee [swap] and [_calculateSwap] take out of [amountIn]. *)
Definition feeOf (amountIn : Z) (w : DemoSwap.World) : Z :=
  amountIn * DemoSwap.feeNumerator (DemoSwap.store w) / DemoSwap.FEE_DENOMINATOR.

(** What the pool holds beyond its recorded reserve. *)
Definition surplusA (w : DemoSwap.World) : Z :=
  holdingA w - DemoSwap.reserveA (DemoSwap.store w).

Definition surplusB (w : DemoSwap.World) : Z :=
  holdingB w - DemoSwap.reserveB (DemoSwap.store w).

Definition surplusIn (aToB : bool) (w : DemoSwap.World) : Z :=
  if aToB then surplusA w else surplusB w.

Definition surplusOut (aToB : bool) (w : DemoSwap.World) : Z :=
  if aToB then surplusB w else surplusA w.

End Holdings.

(** ** Worlds of the confidential pool that differ in one part *)
Module Variants.

(** The world with the stored quotes replaced by [n] and [d]. *)
Definition with_quotes (n d : gmap Z Z) (w : PrivateSwap.World) : PrivateSwap.World :=
  PrivateSwap.mkWorld (PrivateSwap.this w)
    (PrivateSwap.tokenA_address w) (PrivateSwap.tokenB_address w)
    (PrivateSwap.mkStorage
       (PrivateSwap._reserveA (PrivateSwap.store w))
       (PrivateSwap._reserveB (PrivateSwap.store w))
       (PrivateSwap.swapFee (PrivateSwap.store w)) n d
       (PrivateSwap._owner (PrivateSwap.store w))
       (PrivateSwap._paused (PrivateSwap.store w))
       (PrivateSwap._entered (PrivateSwap.store w))
       (PrivateSwap.fhevmConfigSet (PrivateSwap.store w)))
    (PrivateSwap.tokenA w) (PrivateSwap.tokenB w) (PrivateSwap.logs w).

(** The world with the two token ledgers replaced by [lA] and [lB]. *)
Definition with_ledgers (lA lB : gmap Z Z) (w : PrivateSwap.World) : PrivateSwap.World :=
  PrivateSwap.mkWorld (PrivateSwap.this w)
    (PrivateSwap.tokenA_address w) (PrivateSwap.tokenB_address w)
    (PrivateSwap.store w) lA lB (PrivateSwap.logs w).

(** What a call leaves in storage and in the log, or its error. *)
Definition storage_outcome {A : Type} (r : Result (A * PrivateSwap.World))
  : Result (PrivateSwap.Storage * list PrivateSwap.Event) :=
  match r with
  | Ok (_, w) => Ok (PrivateSwap.store w, PrivateSwap.logs w)
  | Revert e => Revert e
  end.

(** The calls behind [onlyOwner]: the only ones whose body makes no
    coprocessor call. *)
Definition owner_call (c : PrivateSwap.Call) : bool :=
  match c with
  | PrivateSwap.CallSetSwapFee _ | PrivateSwap.CallEmergencyWithdraw _ _
  | PrivateSwap.CallPause | PrivateSwap.CallUnpause => true
  | _ => false
  end.

End Variants.

(** ** EncryptedPUSD: the owner of the confidential token

    The contract extends [ConfidentialERC20] of the fhevm-contracts
    library, which is not part of this repository: its state is the
    parameter [Token] and its internal [_unsafeMint] a parameter of
    [mint]. The zero address is [0]. *)
Module EncryptedPUSD.

Record Storage (Token : Type) : Type := mkStorage {
  owner : address;
  token : Token
}.

Arguments mkStorage {Token} owner token.
Arguments owner {Token} s.
Arguments token {Token} s.

Section Inherited.
Context {Token : Type}.
Variable _unsafeMint : address -> Z -> M Token unit.

Definition onlyOwner {A : Type} (sender : address) (body : M (Storage Token) A)
  : M (Storage Token) A :=
  o <- gets owner ;;
  require (sender =? o) "Only owner can call this" ;;
  body.

(** A call into the inherited token code. *)
Definition callToken {A : Type} (m : M Token A) : M (Storage Token) A :=
  fun s => match m (token s) with
           | Ok (a, t) => Ok (a, mkStorage (owner s) t)
           | Revert e => Revert e
           end.

Definition constructor (deployer : address) (t : Token) : Storage Token :=
  mkStorage deployer t.

Definition mint (sender to : address) (amount : Z) : M (Storage Token) unit :=
  onlyOwner sender (callToken (_unsafeMint to amount)).

Definition transferOwnership (sender newOwner : address) : M (Storage Token) unit :=
  onlyOwner sender (
    require (negb (newOwner =? 0)) "New owner cannot be zero address" ;;
    modify (fun s => mkStorage newOwner (token s))).

End Inherited.

End EncryptedPUSD.

(** ** The swap estimate of the web client

    [calculateSwapOutput] of the [usePoolReserves] hook, between the two
    conversions it makes: from [amountInBN], the input amount as a
    [BigInt] in wei, to [amountOutBN]. A reserve that has not been read
    yet is [None]; [!reserve] also holds for the [BigInt] zero. The
    parsing of the input string and the formatting of the result go
    through floating-point numbers and are left out. [BigInt] division
    truncates towards zero and throws a [RangeError] on a zero
    divisor. *)
Module UsePoolReserves.

Inductive Outcome : Type :=
| Null
| AmountOut (amountOutBN : Z)
| RangeError.

Definition falsy (reserve : option Z) : bool :=
  match reserve with
  | None => true
  | Some r => r =? 0
  end.

Definition calculateSwapOutput (reserveA reserveB : option Z) (amountInBN : Z)
                               (isAtoB : bool) : Outcome :=
  if falsy reserveA || falsy reserveB then Null
  else
    let reserveInBN := default 0 (if isAtoB then reserveA else reserveB) in
    let reserveOutBN := default 0 (if isAtoB then reserveB else reserveA) in
    let FEE_DENOMINATOR := 10000 in
    let FEE_NUMERATOR := 30 in
    let feeMultiplier := FEE_DENOMINATOR - FEE_NUMERATOR in
    let numerator := amountInBN * feeMultiplier * reserveOutBN in
    let denominator := reserveInBN * FEE_DENOMINATOR + amountInBN * feeMultiplier in
    if denominator =? 0 then RangeError
    else AmountOut (Z.quot numerator denominator).

End UsePoolReserves.

(** ** Hexadecimal strings of the web client *)
Module Fhe.
Import Stdlib.Strings.Ascii.

(** The digit of [d] in base 16, for [0 <= d < 16]. *)
Definition hexDigit (d : Z) : Ascii.ascii :=
  match d with
  | 0 => "0" | 1 => "1" | 2 => "2" | 3 => "3" | 4 => "4" | 5 => "5" | 6 => "6" | 7 => "7"
  | 8 => "8" | 9 => "9" | 10 => "a" | 11 => "b" | 12 => "c" | 13 => "d" | 14 => "e"
  | _ => "f"
  end%char.

(** [byte.toString(16)] for a byte [0 <= byte < 256]: no leading zero. *)
Definition toString16 (byte : Z) : string :=
  if byte <? 16 then String (hexDigit byte) EmptyString
  else String (hexDigit (byte / 16)) (String (hexDigit (byte mod 16)) EmptyString).

(** [s.padStart(2, "0")]. *)
Definition padStart2 (s : string) : string :=
  match String.length s with
  | O => "00"
  | S O => String "0"%char s
  | _ => s
  end.

(** [bytes.reduce((str, byte) => str + ..., "")]: a left fold. *)
Definition toHexString (bytes : list Z) : string :=
  fold_left (fun str byte => String.append str (padStart2 (toString16 byte))) bytes EmptyString.

(** The value of a hexadecimal digit. *)
Definition hexValue (c : Ascii.ascii) : Z :=
  let n := Z.of_N (Ascii.N_of_ascii c) in
  if n <? 58 then n - 48 else n - 87.

End Fhe.

(** ** MemStorage: the in-memory store of the faucet server

    The methods are [async]; each runs to completion before the next,
    so they are state transformers. A JavaScript [Map] iterates in
    insertion order: the users are an association list in that order.
    [toLowerCase] is the string method of that name, [new Date()] is
    the argument [now], in milliseconds. *)
Module MemStorage.

Record User : Type := mkUser {
  user_id : Z;
  username : string;
  password : string
}.

Record InsertUser : Type := mkInsertUser {
  insert_username : string;
  insert_password : string
}.

Record FaucetClaim : Type := mkFaucetClaim {
  claim_id : Z;
  claim_address : string;
  token : string;
  amount : string;
  txHash : string;
  claimedAt : Z
}.

Record InsertFaucetClaim : Type := mkInsertFaucetClaim {
  insert_address : string;
  insert_token : string;
  insert_amount : string;
  insert_txHash : string
}.

Record FaucetSettings : Type := mkFaucetSettings {
  settings_id : Z;
  enabled : bool;
  cooldownHours : Z;
  pusdAmount : string;
  pethAmount : string
}.

(** [Partial<InsertFaucetSettings>]: a key that is absent is [None]. *)
Record PartialFaucetSettings : Type := mkPartialFaucetSettings {
  update_enabled : option bool;
  update_cooldownHours : option Z;
  update_pusdAmount : option string;
  update_pethAmount : option string
}.

Record State : Type := mkState {
  users : list (Z * User);
  claims : list FaucetClaim;
  settings : FaucetSettings;
  claimIdCounter : Z
}.

Definition constructor : State :=
  mkState [] [] (mkFaucetSettings 1 true 24 "1000" "0.5") 1.

(** [Map.get] and [Map.set]: a key that is present keeps its place. *)
Fixpoint map_get {V : Type} (k : Z) (m : list (Z * V)) : option V :=
  match m with
  | [] => None
  | (k', v) :: m' => if k' =? k then Some v else map_get k m'
  end.

Fixpoint map_set {V : Type} (k : Z) (v : V) (m : list (Z * V)) : list (Z * V) :=
  match m with
  | [] => [(k, v)]
  | (k', v') :: m' => if k' =? k then (k, v) :: m' else (k', v') :: map_set k v m'
  end.

Definition getUser (id : Z) : M State (option User) :=
  gets (fun s => map_get id (users s)).

Definition getUserByUsername (name : string) : M State (option User) :=
  gets (fun s => List.find (fun user => String.eqb (username user) name)
                           (List.map snd (users s))).

Definition createUser (insertUser : InsertUser) : M State User :=
  size <- gets (fun s => Z.of_nat (length (users s))) ;;
  let id := size + 1 in
  let user := mkUser id (insert_username insertUser) (insert_password insertUser) in
  modify (fun s => mkState (map_set id user (users s)) (claims s) (settings s)
                           (claimIdCounter s)) ;;
  ret user.

Definition recordFaucetClaim (insertClaim : InsertFaucetClaim) (now : Z)
  : M State FaucetClaim :=
  id <- gets claimIdCounter ;;
  modify (fun s => mkState (users s) (claims s) (settings s) (claimIdCounter s + 1)) ;;
  let claim := mkFaucetClaim id (insert_address insertClaim) (insert_token insertClaim)
                 (insert_amount insertClaim) (insert_txHash insertClaim) now in
  modify (fun s => mkState (users s) (claims s ++ [claim]) (settings s)
                           (claimIdCounter s)) ;;
  ret claim.

(** [list.sort((a, b) => b.claimedAt.getTime() - a.claimedAt.getTime())].
    [Array.prototype.sort] is stable, so with this comparator the result
    is the one ordering by descending time that keeps claims of equal
    time in their order; insertion from the right computes it. *)
Fixpoint insertByClaimedAt (c : FaucetClaim) (l : list FaucetClaim) : list FaucetClaim :=
  match l with
  | [] => [c]
  | d :: l' => if claimedAt c <? claimedAt d then d :: insertByClaimedAt c l'
               else c :: d :: l'
  end.

Definition sortByClaimedAt (l : list FaucetClaim) : list FaucetClaim :=
  fold_right insertByClaimedAt [] l.

(** Newest first: no claim is older than one that comes after it. *)
Fixpoint newestFirst (l : list FaucetClaim) : Prop :=
  match l with
  | [] => True
  | c :: l' => Forall (fun d => claimedAt d <= claimedAt c) l' /\ newestFirst l'
  end.

(** [list.slice(0, end)] for an integer [end]: a negative [end] counts
    from the end of the list. *)
Definition slice0 {A : Type} (end_ : Z) (l : list A) : list A :=
  if end_ <? 0 then firstn (Z.to_nat (Z.of_nat (length l) + end_)) l
  else firstn (Z.to_nat end_) l.

Section ToLowerCase.
Variable toLowerCase : string -> string.

(** The filter of [getLastClaim]; an absent or empty [token] is falsy
    and matches every token. *)
Definition matchesClaim (address : string) (token_ : option string) (c : FaucetClaim) : bool :=
  let matchesAddress := String.eqb (toLowerCase (claim_address c)) (toLowerCase address) in
  let matchesToken :=
    match token_ with
    | Some t => if String.eqb t EmptyString then true else String.eqb (token c) t
    | None => true
    end in
  matchesAddress && matchesToken.

Definition getLastClaim (address : string) (token_ : option string)
  : M State (option FaucetClaim) :=
  gets (fun s => head (sortByClaimedAt (filter (fun c => matchesClaim address token_ c = true)
                                               (claims s)))).

End ToLowerCase.

(** [getAllClaims(limit = 100)]: the sort is in place, on the stored
    array itself; the slice is a copy. *)
Definition getAllClaims (limit : option Z) : M State (list FaucetClaim) :=
  modify (fun s => mkState (users s) (sortByClaimedAt (claims s)) (settings s)
                           (claimIdCounter s)) ;;
  sorted <- gets claims ;;
  ret (slice0 (default 100 limit) sorted).

Definition getFaucetSettings : M State FaucetSettings := gets settings.

Definition updateFaucetSettings (updates : PartialFaucetSettings) : M State FaucetSettings :=
  modify (fun s =>
    let old := settings s in
    mkState (users s) (claims s)
      (mkFaucetSettings (settings_id old)
         (default (enabled old) (update_enabled updates))
         (default (cooldownHours old) (update_cooldownHours updates))
         (default (pusdAmount old) (update_pusdAmount updates))
         (default (pethAmount old) (update_pethAmount updates)))
      (claimIdCounter s)) ;;
  gets settings.

(** The [i]-th user created has the key and the id [i + 1]. *)
Definition users_numbered (s : State) : Prop :=
  forall (i : nat) (k : Z) (u : User),
    users s !! i = Some (k, u) -> k = Z.of_nat i + 1 /\ user_id u = k.

(** Every claim id is below the counter and used once. *)
Definition claims_numbered (s : State) : Prop :=
  Forall (fun c => claim_id c < claimIdCounter s) (claims s) /\
  NoDup (claim_id <$> claims s).

(** The state-changing methods, and the states they reach from a new
    store. *)
Inductive Op : Type :=
| OpCreateUser (insertUser : InsertUser)
| OpRecordFaucetClaim (insertClaim : InsertFaucetClaim) (now : Z)
| OpGetAllClaims (limit : option Z)
| OpUpdateFaucetSettings (updates : PartialFaucetSettings).

Definition run (op : Op) : M State unit :=
  match op with
  | OpCreateUser insertUser => createUser insertUser ;; ret tt
  | OpRecordFaucetClaim insertClaim now => recordFaucetClaim insertClaim now ;; ret tt
  | OpGetAllClaims limit => getAllClaims limit ;; ret tt
  | OpUpdateFaucetSettings updates => updateFaucetSettings updates ;; ret tt
  end.

Inductive reachable : State -> Prop :=
| reachable_constructor : reachable constructor
| reachable_run (s : State) (op : Op) :
    reachable s -> reachable (transact (run op) s).1.

End MemStorage.

(** ** The cooldown of the faucet route

    The check the [POST /api/faucet] handler makes between reading the
    settings and minting: [lastClaim] is what
    [storage.getLastClaim(address)] returned (no token: the cooldown is
    across all tokens), [now] is [Date.now()]. Times and
    [cooldownHours] are integers. *)
Module Faucet.

Inductive Cooldown : Type :=
| Proceed
| TooManyRequests (remainingHours : Z) (lastClaimedToken : string).

(** [Math.ceil(a / b)] for integers [a] and [b > 0]. *)
Definition ceilDiv (a b : Z) : Z := - ((- a) / b).

Definition checkCooldown (now : Z) (settings : MemStorage.FaucetSettings)
                         (lastClaim : option MemStorage.FaucetClaim) : Cooldown :=
  match lastClaim with
  | Some claim =>
      let timeSinceLastClaim := now - MemStorage.claimedAt claim in
      let cooldownMs := MemStorage.cooldownHours settings * 60 * 60 * 1000 in
      if timeSinceLastClaim <? cooldownMs then
        let remainingMs := cooldownMs - timeSinceLastClaim in
        let remainingHours := ceilDiv remainingMs (60 * 60 * 1000) in
        TooManyRequests remainingHours (MemStorage.token claim)
      else Proceed
  | None => Proceed
  end.

End Faucet.

(** ** Stepping through the contract monad *)

Section MonadFacts.
Context {S : Type}.

Lemma bind_Ok {A B : Type} (m : M S A) (f : A -> M S B) (s : S) (r : B * S) :
  bind m f s = Ok r -> exists a s', m s = Ok (a, s') /\ f a s' = Ok r.
Proof.
  unfold bind. destruct (m s) as [[a s']|e]; [eauto | discriminate].
Qed.

Lemma bind_Ok_intro {A B : Type} (m : M S A) (f : A -> M S B) (s s' : S) (a : A) :
  m s = Ok (a, s') -> bind m f s = f a s'.
Proof. unfold bind. intros ->. reflexivity. Qed.

Lemma bind_Revert {A B : Type} (m : M S A) (f : A -> M S B) (s : S) (e : Error) :
  m s = Revert e -> bind m f s = Revert e.
Proof. unfold bind. intros ->. reflexivity. Qed.

Lemma ret_Ok {A : Type} (a : A) (s : S) (r : A * S) :
  ret a s = Ok r -> r = (a, s).
Proof. unfold ret. congruence. Qed.

Lemma gets_Ok {A : Type} (f : S -> A) (s : S) (r : A * S) :
  gets f s = Ok r -> r = (f s, s).
Proof. unfold gets. congruence. Qed.

Lemma modify_Ok (f : S -> S) (s : S) (r : unit * S) :
  modify f s = Ok r -> r = (tt, f s).
Proof. unfold modify. congruence. Qed.

Lemma require_Ok (c : bool) (reason : string) (s : S) (r : unit * S) :
  require c reason s = Ok r -> c = true /\ r = (tt, s).
Proof. destruct c; unfold require, ret, revert; [intuition congruence | discriminate]. Qed.

Lemma require_true (reason : string) (s : S) :
  require true reason s = Ok (tt, s).
Proof. reflexivity. Qed.

Lemma require_false (reason : string) (s : S) :
  require (S := S) false reason s = Revert (RequireFailed reason).
Proof. reflexivity. Qed.

Lemma checked_add_Ok (a b : Z) (s : S) (r : Z * S) :
  (a +! b) s = Ok r -> a + b < UINT256_LIMIT /\ r = (a + b, s).
Proof.
  unfold checked_add. destruct (Z.ltb_spec (a + b) UINT256_LIMIT); unfold ret, revert;
    [intuition congruence | discriminate].
Qed.

Lemma checked_sub_Ok (a b : Z) (s : S) (r : Z * S) :
  (a -! b) s = Ok r -> b <= a /\ r = (a - b, s).
Proof.
  unfold checked_sub. destruct (Z.leb_spec b a); unfold ret, revert;
    [intuition congruence | discriminate].
Qed.

Lemma checked_mul_Ok (a b : Z) (s : S) (r : Z * S) :
  (a *! b) s = Ok r -> a * b < UINT256_LIMIT /\ r = (a * b, s).
Proof.
  unfold checked_mul. destruct (Z.ltb_spec (a * b) UINT256_LIMIT); unfold ret, revert;
    [intuition congruence | discriminate].
Qed.

Lemma checked_div_Ok (a b : Z) (s : S) (r : Z * S) :
  (a /! b) s = Ok r -> b <> 0 /\ r = (a / b, s).
Proof.
  unfold checked_div. destruct (Z.eqb_spec b 0); unfold ret, revert;
    [discriminate | intuition congruence].
Qed.

Lemma checked_add_run (a b : Z) (s : S) :
  a + b < UINT256_LIMIT -> (a +! b) s = Ok (a + b, s).
Proof.
  intros H. unfold checked_add. destruct (Z.ltb_spec (a + b) UINT256_LIMIT); [reflexivity | lia].
Qed.

Lemma checked_sub_run (a b : Z) (s : S) :
  b <= a -> (a -! b) s = Ok (a - b, s).
Proof.
  intros H. unfold checked_sub. destruct (Z.leb_spec b a); [reflexivity | lia].
Qed.

Lemma checked_mul_run (a b : Z) (s : S) :
  a * b < UINT256_LIMIT -> (a *! b) s = Ok (a * b, s).
Proof.
  intros H. unfold checked_mul. destruct (Z.ltb_spec (a * b) UINT256_LIMIT); [reflexivity | lia].
Qed.

Lemma checked_div_run (a b : Z) (s : S) :
  b <> 0 -> (a /! b) s = Ok (a / b, s).
Proof.
  intros H. unfold checked_div. destruct (Z.eqb_spec b 0); [contradiction | reflexivity].
Qed.

Lemma total_ret {A : Type} (a : A) : total (S := S) (ret a).
Proof. intros s. unfold ret. eauto. Qed.

Lemma total_gets {A : Type} (f : S -> A) : total (gets f).
Proof. intros s. unfold gets. eauto. Qed.

Lemma total_modify (f : S -> S) : total (modify f).
Proof. intros s. unfold modify. eauto. Qed.

Lemma total_bind {A B : Type} (m : M S A) (f : A -> M S B) :
  total m -> (forall a, total (f a)) -> total (bind m f).
Proof.
  intros Hm Hf s. destruct (Hm s) as (a & s' & E).
  unfold bind. rewrite E. apply Hf.
Qed.

End MonadFacts.

(** One step of inversion on a successful run. *)
Ltac inv_step :=
  match goal with
  | H : bind _ _ _ = Ok _ |- _ =>
      let a := fresh "v" in let s := fresh "w" in let E := fresh "E" in
      apply bind_Ok in H; destruct H as (a & s & E & H)
  | H : ret _ _ = Ok _ |- _ => apply ret_Ok in H
  | H : gets _ _ = Ok _ |- _ => apply gets_Ok in H
  | H : modify _ _ = Ok _ |- _ => apply modify_Ok in H
  | H : require _ _ _ = Ok _ |- _ =>
      let C := fresh "C" in apply require_Ok in H; destruct H as [C H]
  | H : (_ +! _) _ = Ok _ |- _ =>
      let C := fresh "C" in apply checked_add_Ok in H; destruct H as [C H]
  | H : (_ -! _) _ = Ok _ |- _ =>
      let C := fresh "C" in apply checked_sub_Ok in H; destruct H as [C H]
  | H : (_ *! _) _ = Ok _ |- _ =>
      let C := fresh "C" in apply checked_mul_Ok in H; destruct H as [C H]
  | H : (_ /! _) _ = Ok _ |- _ =>
      let C := fresh "C" in apply checked_div_Ok in H; destruct H as [C H]
  | H : revert _ _ = Ok _ |- _ => discriminate H
  | H : (_, _) = (_, _) |- _ => injection H as; subst
  | H : (let '(_, _) := ?x in _) _ = Ok _ |- _ => destruct x
  | H : (if ?b then _ else _) _ = Ok _ |- _ =>
      let E := fresh "E" in destruct b eqn:E
  end.

Ltac inv_run := repeat inv_step.

Create HintDb run discriminated.
#[export] Hint Resolve checked_add_run checked_sub_run checked_mul_run checked_div_run : run.

(** One forward step: the first call of a sequence returns. *)
Ltac run_step :=
  erewrite bind_Ok_intro by (first [reflexivity | solve [eauto with run]]).

Ltac run_steps := repeat run_step.

(** ** The transparent pool: what a run does *)

Module DemoSwapFacts.
Import DemoSwap.

Lemma callTokenA_Ok {A : Type} (m : M ERC20.Ledger A) (w w' : World) (a : A) :
  callTokenA m w = Ok (a, w') ->
  exists l, m (tokenA w) = Ok (a, l) /\
            w' = mkWorld (this w) (store w) l (tokenB w) (logs w).
Proof.
  unfold callTokenA. destruct (m (tokenA w)) as [[a0 l]|e]; [|discriminate].
  intros [= <- <-]. eauto.
Qed.

Lemma callTokenB_Ok {A : Type} (m : M ERC20.Ledger A) (w w' : World) (a : A) :
  callTokenB m w = Ok (a, w') ->
  exists l, m (tokenB w) = Ok (a, l) /\
            w' = mkWorld (this w) (store w) (tokenA w) l (logs w).
Proof.
  unfold callTokenB. destruct (m (tokenB w)) as [[a0 l]|e]; [|discriminate].
  intros [= <- <-]. eauto.
Qed.

Lemma _calculateSwap_Ok (aToB : bool) (amountIn : Z) (w w' : World) (r : Z * Z) :
  _calculateSwap aToB amountIn w = Ok (r, w') ->
  let fee := amountIn * feeNumerator (store w) / FEE_DENOMINATOR in
  let net := amountIn - fee in
  w' = w /\
  r = (net * reserveOut aToB w / (reserveIn aToB w + net), reserveIn aToB w + net) /\
  amountIn * feeNumerator (store w) < UINT256_LIMIT /\
  fee <= amountIn /\
  net * reserveOut aToB w < UINT256_LIMIT /\
  reserveIn aToB w + net < UINT256_LIMIT /\
  reserveIn aToB w + net <> 0.
Proof.
  unfold _calculateSwap, sload. intros H. inv_run.
  unfold reserveIn, reserveOut. repeat split; auto.
Qed.

Lemma _calculateSwap_run (aToB : bool) (amountIn : Z) (w : World) :
  let fee := amountIn * feeNumerator (store w) / FEE_DENOMINATOR in
  let net := amountIn - fee in
  amountIn * feeNumerator (store w) < UINT256_LIMIT ->
  fee <= amountIn ->
  net * reserveOut aToB w < UINT256_LIMIT ->
  reserveIn aToB w + net < UINT256_LIMIT ->
  reserveIn aToB w + net <> 0 ->
  _calculateSwap aToB amountIn w =
    Ok ((net * reserveOut aToB w / (reserveIn aToB w + net), reserveIn aToB w + net), w).
Proof.
  intros fee net H1 H2 H3 H4 H5. unfold _calculateSwap, sload.
  unfold reserveIn, reserveOut in *. subst fee net.
  assert (Hd : FEE_DENOMINATOR <> 0) by (unfold FEE_DENOMINATOR; lia).
  run_steps.
  reflexivity.
Qed.

Ltac demo_cbn :=
  cbn [this store tokenA tokenB logs reserveA reserveB feeNumerator _owner _paused _entered
       set_reserveA set_reserveB set_feeNumerator set_paused set_entered] in *.

Ltac demo_inv_step :=
  first
    [ inv_step
    | match goal with
      | H : _calculateSwap _ _ _ = Ok _ |- _ =>
          let F := fresh "F" in
          apply _calculateSwap_Ok in H; cbv zeta in H; destruct H as (-> & F & H)
      | H : callTokenA _ _ = Ok _ |- _ =>
          let l := fresh "l" in let T := fresh "T" in
          apply callTokenA_Ok in H; destruct H as (l & T & ->)
      | H : callTokenB _ _ = Ok _ |- _ =>
          let l := fresh "l" in let T := fresh "T" in
          apply callTokenB_Ok in H; destruct H as (l & T & ->)
      end ].

Ltac demo_inv := repeat (demo_inv_step; demo_cbn).

(** What a successful swap did. *)
Lemma swap_Ok (sender : address) (aToB : bool) (amountIn minAmountOut : Z)
      (w w' : World) (out : Z) :
  swap sender aToB amountIn minAmountOut w = Ok (out, w') ->
  let net := amountIn - amountIn * feeNumerator (store w) / FEE_DENOMINATOR in
  _paused (store w) = false /\ _entered (store w) = false /\
  0 < amountIn /\ positive w /\ 0 <= net /\
  out = net * reserveOut aToB w / (reserveIn aToB w + net) /\
  minAmountOut <= out /\
  reserveIn aToB w' = reserveIn aToB w + net /\
  reserveOut aToB w' = reserveOut aToB w - out /\
  out <= reserveOut aToB w /\
  feeNumerator (store w') = feeNumerator (store w) /\
  logs w' = logs w ++ [Swap sender aToB amountIn out].
Proof.
  unfold swap, nonReentrant, whenNotPaused, sload, sstore, emit. intros H.
  all: demo_inv.
  all: unfold positive, reserveIn, reserveOut in *; demo_cbn.
  all: apply andb_true_iff in C; destruct C as [Ca Cb].
  all: rewrite Z.ltb_lt in *; rewrite Z.leb_le in *.
  all: repeat split; try reflexivity; try assumption; try lia.
Qed.

Lemma addLiquidity_Ok (sender : address) (amountA amountB : Z) (w w' : World) (u : unit) :
  addLiquidity sender amountA amountB w = Ok (u, w') ->
  _paused (store w) = false /\ _entered (store w) = false /\
  0 < amountA /\ 0 < amountB /\
  (exists l, ERC20.transferFrom (this w) sender (this w) amountA (tokenA w) = Ok (tt, l) /\
             tokenA w' = l) /\
  (exists l, ERC20.transferFrom (this w) sender (this w) amountB (tokenB w) = Ok (tt, l) /\
             tokenB w' = l) /\
  this w' = this w /\
  store w' = set_reserveB (reserveB (store w) + amountB)
               (set_reserveA (reserveA (store w) + amountA) (store w)) /\
  reserveA (store w) + amountA < UINT256_LIMIT /\
  reserveB (store w) + amountB < UINT256_LIMIT /\
  logs w' = logs w ++ [LiquidityAdded sender amountA amountB].
Proof.
  unfold addLiquidity, nonReentrant, whenNotPaused, sload, sstore, emit. intros H.
  demo_inv.
  apply andb_true_iff in C; destruct C as [Ca Cb].
  rewrite Z.ltb_lt in *.
  repeat match goal with x : unit |- _ => destruct x end.
  destruct (store w) as [rA rB f o p e]; demo_cbn; subst.
  repeat split; eauto.
Qed.

Lemma removeLiquidity_Ok (sender : address) (amountA amountB : Z) (w w' : World) (u : unit) :
  removeLiquidity sender amountA amountB w = Ok (u, w') ->
  _paused (store w) = false /\ _entered (store w) = false /\
  amountA <= reserveA (store w) /\ amountB <= reserveB (store w) /\
  store w' = set_reserveB (reserveB (store w) - amountB)
               (set_reserveA (reserveA (store w) - amountA) (store w)) /\
  logs w' = logs w ++ [LiquidityRemoved sender amountA amountB].
Proof.
  unfold removeLiquidity, nonReentrant, whenNotPaused, sload, sstore, emit. intros H.
  demo_inv.
  apply andb_true_iff in C; destruct C as [Ca Cb].
  rewrite Z.leb_le in *.
  destruct (store w) as [rA rB f o p e]; demo_cbn; subst.
  repeat split; eauto.
Qed.


(** The modifiers, run forward. *)
Lemma nonReentrant_run {A : Type} (body : M World A) (w : World) :
  _entered (store w) = false ->
  nonReentrant body w =
    match body (mkWorld (this w) (set_entered true (store w)) (tokenA w) (tokenB w) (logs w)) with
    | Ok (r, w') =>
        Ok (r, mkWorld (this w') (set_entered false (store w')) (tokenA w') (tokenB w') (logs w'))
    | Revert e => Revert e
    end.
Proof.
  intros He. unfold nonReentrant, sload, sstore, bind, gets, modify, ret.
  rewrite He. destruct (body _) as [[r w']|e]; reflexivity.
Qed.

Lemma whenNotPaused_run {A : Type} (body : M World A) (w : World) :
  _paused (store w) = false -> whenNotPaused body w = body w.
Proof.
  intros Hp. unfold whenNotPaused, sload, bind, gets. rewrite Hp. reflexivity.
Qed.

Lemma whenNotPaused_paused {A : Type} (body : M World A) (w : World) :
  _paused (store w) = true -> whenNotPaused body w = Revert EnforcedPause.
Proof.
  intros Hp. unfold whenNotPaused, sload, bind, gets. rewrite Hp. reflexivity.
Qed.

Lemma _calculateSwap_entered (aToB : bool) (amountIn : Z) (w : World) (r : Z * Z) (b : bool) :
  _calculateSwap aToB amountIn w = Ok (r, w) ->
  let w1 := mkWorld (this w) (set_entered b (store w)) (tokenA w) (tokenB w) (logs w) in
  _calculateSwap aToB amountIn w1 = Ok (r, w1).
Proof.
  intros H w1. apply _calculateSwap_Ok in H. cbv zeta in H.
  destruct H as (_ & -> & H1 & H2 & H3 & H4 & H5).
  apply (_calculateSwap_run aToB amountIn w1); assumption.
Qed.

Lemma swap_slippage (sender : address) (aToB : bool) (amountIn minAmountOut : Z)
      (w : World) (amountOut newReserveIn : Z) :
  _paused (store w) = false -> _entered (store w) = false ->
  0 < amountIn -> positive w ->
  _calculateSwap aToB amountIn w = Ok ((amountOut, newReserveIn), w) ->
  amountOut < minAmountOut ->
  swap sender aToB amountIn minAmountOut w =
    Revert (RequireFailed "Insufficient output amount").
Proof.
  intros Hp He Ha [HA HB] Hc Hlt.
  apply (_calculateSwap_entered _ _ _ _ true) in Hc. cbv zeta in Hc.
  apply Z.ltb_lt in Ha, HA, HB. apply Z.leb_gt in Hlt.
  unfold swap. rewrite nonReentrant_run by assumption.
  rewrite whenNotPaused_run by assumption.
  unfold sload. rewrite Ha. do 3 run_step. demo_cbn. rewrite HA, HB.
  do 2 run_step. cbn iota beta. rewrite Hlt. reflexivity.
Qed.

(** The source's formula is the specification's. *)
Lemma quote_formula (w : World) (aToB : bool) (amountIn : Z) :
  let feeBps := feeNumerator (store w) in
  let net := spec_amountInAfterFee amountIn feeBps in
  0 < reserveIn aToB w -> 0 < reserveOut aToB w -> 0 < amountIn ->
  feeBps <= 10000 ->
  amountIn * feeBps < UINT256_LIMIT ->
  net * reserveOut aToB w < UINT256_LIMIT ->
  reserveIn aToB w + net < UINT256_LIMIT ->
  _calculateSwap aToB amountIn w =
    Ok ((spec_computeOutput (reserveIn aToB w) (reserveOut aToB w) amountIn feeBps,
         reserveIn aToB w + net), w) /\
  quote aToB amountIn w =
    Ok (spec_computeOutput (reserveIn aToB w) (reserveOut aToB w) amountIn feeBps, w).
Proof.
  intros feeBps net Hin Hout Ha Hf H1 H2 H3.
  assert (Hfee : amountIn * feeBps / 10000 <= amountIn).
  { apply Z.div_le_upper_bound; nia. }
  assert (Hc : _calculateSwap aToB amountIn w =
    Ok ((spec_computeOutput (reserveIn aToB w) (reserveOut aToB w) amountIn feeBps,
         reserveIn aToB w + net), w)).
  { apply (_calculateSwap_run aToB amountIn w); try assumption.
    fold feeBps. unfold FEE_DENOMINATOR. lia. }
  split; [exact Hc|].
  unfold quote, sload. do 2 run_step.
  assert (Hz : (amountIn =? 0) || (reserveA (store w) =? 0) || (reserveB (store w) =? 0) = false).
  { unfold reserveIn, reserveOut in Hin, Hout.
    destruct aToB; (apply orb_false_intro; [apply orb_false_intro|]); apply Z.eqb_neq; lia. }
  rewrite Hz. run_step. reflexivity.
Qed.

(** C2 (as amended): for [uint256] inputs with both reserves and
    [amountIn] positive, a fee of at most 10000 basis points, and the
    intermediate results [amountIn * feeBps],
    [amountInAfterFee * reserveOut] and [reserveIn + amountInAfterFee]
    all below [2^256], [_calculateSwap] and [quote] return
    [floor(amountInAfterFee * reserveOut / (reserveIn + amountInAfterFee))]
    with [amountInAfterFee = amountIn - floor(amountIn * feeBps / 10000)];
    on Scenario A the quote for 10,000 is exactly 4,935. *)
Theorem C2_transparent_formula :
  (forall (w : World) (aToB : bool) (amountIn : Z),
     0 < reserveIn aToB w -> 0 < reserveOut aToB w -> 0 < amountIn ->
     feeNumerator (store w) <= 10000 ->
     amountIn * feeNumerator (store w) < UINT256_LIMIT ->
     spec_amountInAfterFee amountIn (feeNumerator (store w)) * reserveOut aToB w
       < UINT256_LIMIT ->
     reserveIn aToB w + spec_amountInAfterFee amountIn (feeNumerator (store w))
       < UINT256_LIMIT ->
     _calculateSwap aToB amountIn w =
       Ok ((spec_computeOutput (reserveIn aToB w) (reserveOut aToB w) amountIn
                               (feeNumerator (store w)),
            reserveIn aToB w + spec_amountInAfterFee amountIn (feeNumerator (store w))), w) /\
     quote aToB amountIn w =
       Ok (spec_computeOutput (reserveIn aToB w) (reserveOut aToB w) amountIn
                              (feeNumerator (store w)), w))
  /\ quote true 10000 scenarioA = Ok (4935, scenarioA).
Proof.
  split.
  - intros w aToB amountIn. apply quote_formula.
  - vm_compute. reflexivity.
Qed.

Lemma C2_transparent_formula_witness :
  quote true 10000 scenarioA =
    Ok (spec_computeOutput 1000000 500000 10000 30, scenarioA).
Proof.
  refine (proj2 (proj1 C2_transparent_formula scenarioA true 10000 _ _ _ _ _ _ _));
    vm_compute; congruence.
Defined.

(** C2 as stated fails: with both reserves positive and the default fee
    of 30 basis points, an [amountIn] of [2^255] makes
    [amountIn * feeNumerator] overflow, and the call reverts instead of
    returning the quotient. *)
Lemma C2_transparent_formula_counterexample :
  0 < reserveIn true scenarioA /\ 0 < reserveOut true scenarioA /\ 0 < 2 ^ 255 /\
  is_uint256 (2 ^ 255) /\
  quote true (2 ^ 255) scenarioA = Revert (Panic PANIC_ARITHMETIC) /\
  _calculateSwap true (2 ^ 255) scenarioA = Revert (Panic PANIC_ARITHMETIC) /\
  quote true (2 ^ 255) scenarioA <>
    Ok (spec_computeOutput 1000000 500000 (2 ^ 255) 30, scenarioA).
Proof.
  repeat split; try (vm_compute; congruence).
Qed.

(** C4: a transparent swap on an unpaused pool with [amountIn > 0] and
    both reserves positive, whose computed [amountOut] is below
    [minAmountOut], reverts with the slippage error ("Insufficient
    output amount"), and the transaction leaves the whole world
    (reserves, fee, token ledgers, log) as it was; on Scenario A a swap
    of 10,000 with [minAmountOut = 5,000] fails that way. *)
Theorem C4_slippage_abort :
  (forall (w : World) (sender : address) (aToB : bool)
          (amountIn minAmountOut amountOut newReserveIn : Z),
     _paused (store w) = false -> _entered (store w) = false ->
     0 < amountIn -> positive w ->
     _calculateSwap aToB amountIn w = Ok ((amountOut, newReserveIn), w) ->
     amountOut < minAmountOut ->
     swap sender aToB amountIn minAmountOut w =
       Revert (RequireFailed "Insufficient output amount") /\
     transact (swap sender aToB amountIn minAmountOut) w =
       (w, Revert (RequireFailed "Insufficient output amount")))
  /\ transact (swap 7 true 10000 5000) scenarioA =
       (scenarioA, Revert (RequireFailed "Insufficient output amount")).
Proof.
  split.
  - intros w sender aToB amountIn minAmountOut amountOut newReserveIn Hp He Ha Hpos Hc Hlt.
    pose proof (swap_slippage sender aToB amountIn minAmountOut w amountOut newReserveIn
                  Hp He Ha Hpos Hc Hlt) as Hs.
    split; [exact Hs|]. unfold transact. rewrite Hs. reflexivity.
  - vm_compute. reflexivity.
Qed.

Lemma C4_slippage_abort_witness :
  swap 7 true 10000 5000 scenarioA =
    Revert (RequireFailed "Insufficient output amount") /\
  transact (swap 7 true 10000 5000) scenarioA =
    (scenarioA, Revert (RequireFailed "Insufficient output amount")).
Proof.
  refine (proj1 C4_slippage_abort scenarioA 7 true 10000 5000 4935 1009970 _ _ _ _ _ _).
  - reflexivity.
  - reflexivity.
  - lia.
  - split; vm_compute; reflexivity.
  - vm_compute. reflexivity.
  - lia.
Defined.

(** The product of the reserves after a swap, exactly. *)
Lemma swap_product (sender : address) (aToB : bool) (amountIn minAmountOut : Z)
      (w w' : World) (out : Z) :
  swap sender aToB amountIn minAmountOut w = Ok (out, w') ->
  let net := spec_amountInAfterFee amountIn (feeNumerator (store w)) in
  0 < reserveIn aToB w + net /\
  product w' = product w + (net * reserveOut aToB w) mod (reserveIn aToB w + net).
Proof.
  intros H net. apply swap_Ok in H. cbv zeta in H.
  destruct H as (_ & _ & Ha & [HA HB] & Hnet & Hout & _ & Hin' & Hout' & _).
  change (amountIn - amountIn * feeNumerator (store w) / FEE_DENOMINATOR) with net in *.
  clearbody net.
  assert (HD : 0 < reserveIn aToB w + net).
  { unfold reserveIn. destruct aToB; lia. }
  split; [exact HD|].
  assert (HD0 : reserveIn aToB w + net <> 0) by (clear - HD; lia).
  pose proof (Z.div_mod (net * reserveOut aToB w) (reserveIn aToB w + net) HD0) as Hdm.
  rewrite <- Hout in Hdm. clear Hout.
  set (remainder := (net * reserveOut aToB w) mod (reserveIn aToB w + net)) in *.
  clearbody remainder.
  unfold product. unfold reserveIn, reserveOut in *.
  destruct aToB; rewrite Hin', Hout'; lia.
Qed.

(** C6 (as amended): after every successful transparent swap the
    product [reserveA * reserveB] equals its value before plus the
    remainder of [amountInAfterFee * reserveOut] divided by
    [reserveIn + amountInAfterFee]; so it never decreases, and it
    strictly increases exactly when that remainder is not zero. *)
Theorem C6_product_monotone :
  forall (sender : address) (aToB : bool) (amountIn minAmountOut : Z)
         (w w' : World) (out : Z),
    swap sender aToB amountIn minAmountOut w = Ok (out, w') ->
    let net := spec_amountInAfterFee amountIn (feeNumerator (store w)) in
    let remainder := (net * reserveOut aToB w) mod (reserveIn aToB w + net) in
    product w' = product w + remainder /\
    product w <= product w' /\
    (product w < product w' <-> remainder <> 0).
Proof.
  intros sender aToB amountIn minAmountOut w w' out H net remainder.
  apply swap_product in H. cbv zeta in H. fold net in H. destruct H as [HD Hp].
  fold remainder in Hp.
  assert (0 <= remainder) by (apply Z.mod_pos_bound; exact HD).
  repeat split; lia.
Qed.

Lemma C6_product_monotone_witness :
  let w' := (transact (swap 7 true 10000 0) scenarioA).1 in
  swap 7 true 10000 0 scenarioA = Ok (4935, w') /\
  product scenarioA <= product w'.
Proof.
  intros w'.
  assert (E : swap 7 true 10000 0 scenarioA = Ok (4935, w')) by (vm_compute; reflexivity).
  split; [exact E|].
  exact (proj1 (proj2 (C6_product_monotone 7 true 10000 0 scenarioA w' 4935 E))).
Defined.

(** C6 as stated fails: with a fee of 30 basis points and
    [amountIn = 10,000] on reserves (9970, 2), the swap pays out 1 and
    the product is 19,940 before and after. *)
Lemma C6_product_monotone_counterexample :
  0 < feeNumerator (store (demo_world 9970 2 30)) /\ 0 < 10000 /\
  exists w', swap 7 true 10000 0 (demo_world 9970 2 30) = Ok (1, w') /\
             product (demo_world 9970 2 30) = 19940 /\ product w' = 19940 /\
             ~ product (demo_world 9970 2 30) < product w'.
Proof.
  split; [vm_compute; reflexivity|]. split; [lia|].
  eexists. split; [vm_compute; reflexivity|].
  repeat split; vm_compute; congruence.
Qed.

(** *** Token movements *)

Lemma balanceOf_set_balance (l : ERC20.Ledger) (a b : address) (v : Z) :
  ERC20.balanceOf (ERC20.set_balance a v l) b =
    if decide (a = b) then v else ERC20.balanceOf l b.
Proof.
  unfold ERC20.balanceOf, ERC20.set_balance. cbn.
  rewrite lookup_insert. destruct (decide (a = b)); reflexivity.
Qed.

Lemma balanceOf_set_allowance (l : ERC20.Ledger) (o s a : address) (v : Z) :
  ERC20.balanceOf (ERC20.set_allowance o s v l) a = ERC20.balanceOf l a.
Proof. reflexivity. Qed.

Lemma wf_balanceOf (l : ERC20.Ledger) (a : address) :
  ERC20.wf l -> is_uint256 (ERC20.balanceOf l a).
Proof.
  intros Hwf. unfold ERC20.balanceOf.
  destruct (ERC20.balances l !! a) as [v|] eqn:E; cbn.
  - exact (Hwf a v E).
  - unfold is_uint256, UINT256_LIMIT. lia.
Qed.

Lemma _update_Ok (from to : address) (value : Z) (l l' : ERC20.Ledger) (u : unit) :
  ERC20._update from to value l = Ok (u, l') ->
  let l1 := ERC20.set_balance from (ERC20.balanceOf l from - value) l in
  value <= ERC20.balanceOf l from /\
  ERC20.balanceOf l1 to + value < UINT256_LIMIT /\
  l' = ERC20.set_balance to (ERC20.balanceOf l1 to + value) l1.
Proof.
  unfold ERC20._update. intros H. inv_run.
  match goal with H : (_ <? _) = false |- _ => apply Z.ltb_ge in H end. auto.
Qed.

Lemma _update_run (from to : address) (value : Z) (l : ERC20.Ledger) :
  let l1 := ERC20.set_balance from (ERC20.balanceOf l from - value) l in
  value <= ERC20.balanceOf l from ->
  ERC20.balanceOf l1 to + value < UINT256_LIMIT ->
  ERC20._update from to value l =
    Ok (tt, ERC20.set_balance to (ERC20.balanceOf l1 to + value) l1).
Proof.
  intros l1 H1 H2. unfold ERC20._update. run_step. cbn beta.
  apply Z.ltb_ge in H1. rewrite H1. do 3 run_step. reflexivity.
Qed.

Lemma _spendAllowance_balances (owner spender : address) (value : Z)
      (l l' : ERC20.Ledger) (u : unit) :
  ERC20._spendAllowance owner spender value l = Ok (u, l') ->
  forall a, ERC20.balanceOf l' a = ERC20.balanceOf l a.
Proof.
  unfold ERC20._spendAllowance. intros H a. inv_run; reflexivity.
Qed.

(** What the pool has pulled from an account it can push back. *)
Lemma pull_then_push (self sender : address) (value : Z) (l l1 : ERC20.Ledger) (u : unit) :
  ERC20.wf l ->
  ERC20.transferFrom self sender self value l = Ok (u, l1) ->
  exists l2, ERC20.transfer self sender value l1 = Ok (tt, l2).
Proof.
  intros Hwf H. unfold ERC20.transferFrom in H. inv_run.
  pose proof (_spendAllowance_balances _ _ _ _ _ _ E) as Hb.
  apply _update_Ok in H. cbv zeta in H. destruct H as (H1 & H2 & ->).
  pose proof (wf_balanceOf l self Hwf) as [Hs0 Hs1].
  pose proof (wf_balanceOf l sender Hwf) as [Hn0 Hn1].
  eexists. unfold ERC20.transfer. apply _update_run; cbv zeta.
  all: repeat rewrite balanceOf_set_balance in *; rewrite ?Hb in *.
  all: repeat destruct (decide _); subst; try congruence; try lia.
Qed.

Lemma callTokenA_run {A : Type} (m : M ERC20.Ledger A) (w : World) (a : A) (l : ERC20.Ledger) :
  m (tokenA w) = Ok (a, l) ->
  callTokenA m w = Ok (a, mkWorld (this w) (store w) l (tokenB w) (logs w)).
Proof. unfold callTokenA. intros ->. reflexivity. Qed.

Lemma callTokenB_run {A : Type} (m : M ERC20.Ledger A) (w : World) (a : A) (l : ERC20.Ledger) :
  m (tokenB w) = Ok (a, l) ->
  callTokenB m w = Ok (a, mkWorld (this w) (store w) (tokenA w) l (logs w)).
Proof. unfold callTokenB. intros ->. reflexivity. Qed.

(** A removal that is covered by the reserves and by the pool's
    token balances goes through. *)
Lemma removeLiquidity_run (sender : address) (amountA amountB : Z) (w : World)
      (lA lB : ERC20.Ledger) :
  _paused (store w) = false -> _entered (store w) = false ->
  amountA <= reserveA (store w) -> amountB <= reserveB (store w) ->
  ERC20.transfer (this w) sender amountA (tokenA w) = Ok (tt, lA) ->
  ERC20.transfer (this w) sender amountB (tokenB w) = Ok (tt, lB) ->
  removeLiquidity sender amountA amountB w =
    Ok (tt, mkWorld (this w)
              (set_reserveB (reserveB (store w) - amountB)
                 (set_reserveA (reserveA (store w) - amountA) (store w)))
              lA lB (logs w ++ [LiquidityRemoved sender amountA amountB])).
Proof.
  intros Hp He HA HB HtA HtB.
  unfold removeLiquidity. rewrite nonReentrant_run by assumption.
  rewrite whenNotPaused_run by assumption.
  unfold sload, sstore, emit. do 2 run_step. demo_cbn.
  apply Z.leb_le in HA as HA', HB as HB'. rewrite HA', HB'.
  do 7 run_step. demo_cbn.
  erewrite bind_Ok_intro by (apply callTokenA_run; demo_cbn; exact HtA).
  erewrite bind_Ok_intro by (apply callTokenB_run; demo_cbn; exact HtB).
  unfold modify. demo_cbn.
  destruct (store w) as [rA rB f o p e]. demo_cbn. subst. reflexivity.
Qed.

Lemma ledger_of_wf (trader pool traderBalance poolBalance approved : Z) :
  is_uint256 traderBalance -> is_uint256 poolBalance ->
  ERC20.wf (ledger_of trader pool traderBalance poolBalance approved).
Proof.
  intros Ht Hp. unfold ERC20.wf, ledger_of. cbn [ERC20.balances].
  apply map_Forall_insert_2; [exact Hp|].
  apply map_Forall_singleton. exact Ht.
Qed.

Lemma demo_world_wf (rA rB fee : Z) :
  is_uint256 rA -> is_uint256 rB -> is_uint256 fee -> wf (demo_world rA rB fee).
Proof.
  intros HA HB Hf. unfold wf, demo_world. demo_cbn.
  split; [exact HA|]. split; [exact HB|]. split; [exact Hf|]. split; [reflexivity|].
  split; apply ledger_of_wf; try assumption; unfold is_uint256, UINT256_LIMIT; lia.
Qed.

(** C9: from a well-formed world, when [addLiquidity(a, b)] succeeds
    (which needs [a > 0] and [b > 0]), the [removeLiquidity(a, b)] that
    follows it succeeds too and leaves [reserveA] and [reserveB] exactly
    as they were before the addition. *)
Theorem C9_add_remove_roundtrip :
  forall (w w1 : World) (sender : address) (a b : Z),
    wf w ->
    addLiquidity sender a b w = Ok (tt, w1) ->
    0 < a /\ 0 < b /\
    exists w2, removeLiquidity sender a b w1 = Ok (tt, w2) /\
               reserveA (store w2) = reserveA (store w) /\
               reserveB (store w2) = reserveB (store w).
Proof.
  intros w w1 sender a b (HrA & HrB & _ & _ & HwA & HwB) Hadd.
  apply addLiquidity_Ok in Hadd.
  destruct Hadd as (Hp & He & Ha & Hb & (lA & HtA & HlA) & (lB & HtB & HlB)
                    & Hthis & Hstore & HoA & HoB & _).
  destruct (pull_then_push _ _ _ _ _ _ HwA HtA) as [lA2 HpA].
  destruct (pull_then_push _ _ _ _ _ _ HwB HtB) as [lB2 HpB].
  split; [exact Ha|]. split; [exact Hb|].
  unfold is_uint256 in HrA, HrB.
  eexists. split.
  - apply removeLiquidity_run with (lA := lA2) (lB := lB2); rewrite ?Hstore, ?Hthis, ?HlA, ?HlB;
      demo_cbn; try assumption; lia.
  - rewrite Hstore. demo_cbn. split; lia.
Qed.

Lemma C9_add_remove_roundtrip_witness :
  let w1 := (transact (addLiquidity 7 300 200) scenarioA).1 in
  0 < 300 /\ 0 < 200 /\
  exists w2, removeLiquidity 7 300 200 w1 = Ok (tt, w2) /\
             reserveA (store w2) = 1000000 /\ reserveB (store w2) = 500000.
Proof.
  intros w1.
  apply (C9_add_remove_roundtrip scenarioA w1 7 300 200).
  - apply demo_world_wf; unfold is_uint256, UINT256_LIMIT; lia.
  - vm_compute. reflexivity.
Defined.

(** *** Positive reserves *)

Lemma swap_positive (sender : address) (aToB : bool) (amountIn minAmountOut : Z)
      (w w' : World) (out : Z) :
  swap sender aToB amountIn minAmountOut w = Ok (out, w') -> positive w'.
Proof.
  intros H. apply swap_Ok in H. cbv zeta in H.
  destruct H as (_ & _ & Ha & [HA HB] & Hnet & Hout & _ & Hin' & Hout' & _).
  set (net := amountIn - amountIn * feeNumerator (store w) / FEE_DENOMINATOR) in *.
  clearbody net.
  assert (Hin : 0 < reserveIn aToB w) by (unfold reserveIn; destruct aToB; assumption).
  assert (Ho : 0 < reserveOut aToB w) by (unfold reserveOut; destruct aToB; assumption).
  assert (Hlt : out < reserveOut aToB w).
  { rewrite Hout. apply Z.div_lt_upper_bound; nia. }
  clear Hout. unfold positive. unfold reserveIn, reserveOut in *.
  destruct aToB; lia.
Qed.

Lemma addLiquidity_positive (sender : address) (amountA amountB : Z) (w w' : World) (u : unit) :
  addLiquidity sender amountA amountB w = Ok (u, w') -> positive w -> positive w'.
Proof.
  intros H [HA HB]. apply addLiquidity_Ok in H.
  destruct H as (_ & _ & Ha & Hb & _ & _ & _ & Hs & _).
  unfold positive. rewrite Hs. demo_cbn. lia.
Qed.

Lemma removeLiquidity_positive (sender : address) (amountA amountB : Z) (w w' : World)
      (u : unit) :
  removeLiquidity sender amountA amountB w = Ok (u, w') ->
  (positive w' <-> amountA < reserveA (store w) /\ amountB < reserveB (store w)).
Proof.
  intros H. apply removeLiquidity_Ok in H.
  destruct H as (_ & _ & Ha & Hb & Hs & _).
  unfold positive. rewrite Hs. demo_cbn. lia.
Qed.

(** *** Fee update *)

Lemma updateFee_run (sender : address) (newFee : Z) (w : World) :
  updateFee sender newFee w =
    if _owner (store w) =? sender
    then if newFee <=? 100
         then Ok (tt, mkWorld (this w) (set_feeNumerator newFee (store w))
                              (tokenA w) (tokenB w) (logs w ++ [FeeUpdated newFee]))
         else Revert (RequireFailed "Fee too high")
    else Revert (OwnableUnauthorizedAccount sender).
Proof.
  unfold updateFee, onlyOwner, sload, sstore, emit, bind, gets, modify, require, ret, revert.
  destruct (_owner (store w) =? sender); [|reflexivity].
  destruct (newFee <=? 100); reflexivity.
Qed.

(** *** Pause *)

Lemma nonReentrant_paused {A : Type} (body : M World A) (w : World) :
  _entered (store w) = false -> _paused (store w) = true ->
  nonReentrant (whenNotPaused body) w = Revert EnforcedPause.
Proof.
  intros He Hp. rewrite nonReentrant_run by assumption.
  rewrite whenNotPaused_paused by (demo_cbn; assumption). reflexivity.
Qed.

Lemma _calculateSwap_with_paused (aToB : bool) (amountIn : Z) (w : World) (b : bool) :
  _calculateSwap aToB amountIn (with_paused b w) =
    map_world (with_paused b) (_calculateSwap aToB amountIn w).
Proof.
  unfold _calculateSwap, sload, bind, gets, with_paused,
    checked_add, checked_sub, checked_mul, checked_div, ret, revert, map_world.
  demo_cbn.
  repeat (match goal with
          | |- context [if ?c then _ else _] => destruct c
          end; demo_cbn); reflexivity.
Qed.

Lemma quote_with_paused (aToB : bool) (amountIn : Z) (w : World) (b : bool) :
  quote aToB amountIn (with_paused b w) =
    map_world (with_paused b) (quote aToB amountIn w).
Proof.
  unfold quote. unfold bind at 1 2 4 5. unfold sload, gets. unfold with_paused at 1 2 3 4. demo_cbn.
  destruct ((amountIn =? 0) || (reserveA (store w) =? 0) || (reserveB (store w) =? 0)).
  - reflexivity.
  - unfold bind. fold (with_paused b w). rewrite _calculateSwap_with_paused.
    destruct (_calculateSwap aToB amountIn w) as [[[out n] w']|e]; reflexivity.
Qed.

Lemma pause_run (sender : address) (w : World) :
  _owner (store w) = sender -> _paused (store w) = false ->
  pause sender w =
    Ok (tt, mkWorld (this w) (set_paused true (store w)) (tokenA w) (tokenB w)
                    (logs w ++ [Paused sender])).
Proof.
  intros Ho Hp.
  unfold pause, onlyOwner, whenNotPaused, sload, sstore, emit, bind, gets, modify.
  rewrite Ho, Z.eqb_refl, Hp. reflexivity.
Qed.

End DemoSwapFacts.

(** ** The confidential pool: what a run does *)

Module PrivateSwapFacts.
Import PrivateSwap.

Ltac priv_cbn :=
  cbn [this tokenA_address tokenB_address store tokenA tokenB logs
       _reserveA _reserveB swapFee _lastNumerator _lastDenominator _owner _paused _entered
       fhevmConfigSet set_reserveA set_reserveB set_swapFee set_lastNumerator set_lastDenominator
       set_paused set_entered] in *.

Lemma confidential_callTokenA_Ok {A : Type} (m : M (gmap Z Z) A) (w w' : World) (a : A) :
  callTokenA m w = Ok (a, w') ->
  exists l, m (tokenA w) = Ok (a, l) /\
            w' = mkWorld (this w) (tokenA_address w) (tokenB_address w)
                         (store w) l (tokenB w) (logs w).
Proof.
  unfold callTokenA. destruct (m (tokenA w)) as [[a0 l]|e]; [|discriminate].
  intros [= <- <-]. eauto.
Qed.

Lemma confidential_callTokenB_Ok {A : Type} (m : M (gmap Z Z) A) (w w' : World) (a : A) :
  callTokenB m w = Ok (a, w') ->
  exists l, m (tokenB w) = Ok (a, l) /\
            w' = mkWorld (this w) (tokenA_address w) (tokenB_address w)
                         (store w) (tokenA w) l (logs w).
Proof.
  unfold callTokenB. destruct (m (tokenB w)) as [[a0 l]|e]; [|discriminate].
  intros [= <- <-]. eauto.
Qed.

Lemma coprocessor_Ok (w w' : World) (u : unit) :
  coprocessor w = Ok (u, w') -> fhevmConfigSet (store w) = true /\ w' = w.
Proof.
  unfold coprocessor, sload, bind, gets, ret, revert.
  destruct (fhevmConfigSet (store w)); [|discriminate].
  intros [= _ <-]. split; reflexivity.
Qed.

Lemma coprocessor_run (w : World) :
  fhevmConfigSet (store w) = true -> coprocessor w = Ok (tt, w).
Proof.
  intros H. unfold coprocessor, sload, bind, gets, ret. rewrite H. reflexivity.
Qed.

Lemma coprocessor_unset (w : World) :
  fhevmConfigSet (store w) = false -> coprocessor w = Revert CoprocessorUnset.
Proof.
  intros H. unfold coprocessor, sload, bind, gets, revert. rewrite H. reflexivity.
Qed.

Ltac priv_inv_step :=
  first
    [ inv_step
    | match goal with
      | H : coprocessor _ = Ok _ |- _ =>
          let G := fresh "G" in
          apply coprocessor_Ok in H; destruct H as [G ->]
      | H : callTokenA _ _ = Ok _ |- _ =>
          let l := fresh "l" in let T := fresh "T" in
          apply confidential_callTokenA_Ok in H; destruct H as (l & T & ->)
      | H : callTokenB _ _ = Ok _ |- _ =>
          let l := fresh "l" in let T := fresh "T" in
          apply confidential_callTokenB_Ok in H; destruct H as (l & T & ->)
      end ].

Ltac priv_inv := repeat (priv_inv_step; priv_cbn).

Lemma confidential_nonReentrant_run {A : Type} (body : M World A) (w : World) :
  _entered (store w) = false ->
  nonReentrant body w =
    match body (mkWorld (this w) (tokenA_address w) (tokenB_address w)
                        (set_entered true (store w)) (tokenA w) (tokenB w) (logs w)) with
    | Ok (r, w') =>
        Ok (r, mkWorld (this w') (tokenA_address w') (tokenB_address w')
                       (set_entered false (store w')) (tokenA w') (tokenB w') (logs w'))
    | Revert e => Revert e
    end.
Proof.
  intros He. unfold nonReentrant, sload, sstore, bind, gets, modify, ret.
  rewrite He. destruct (body _) as [[r w']|e]; reflexivity.
Qed.

Lemma confidential_whenNotPaused_run {A : Type} (body : M World A) (w : World) :
  _paused (store w) = false -> whenNotPaused body w = body w.
Proof.
  intros Hp. unfold whenNotPaused, sload, bind, gets. rewrite Hp. reflexivity.
Qed.

Lemma confidential_whenNotPaused_paused {A : Type} (body : M World A) (w : World) :
  _paused (store w) = true -> whenNotPaused body w = Revert EnforcedPause.
Proof.
  intros Hp. unfold whenNotPaused, sload, bind, gets. rewrite Hp. reflexivity.
Qed.

(** What a completed swap did. *)
Lemma confidential_swap_Ok (sender : address) (amountIn expectedAmountOut minAmountOut : Z)
      (isAtoB : bool) (w w' : World) (u : unit) :
  swap sender amountIn expectedAmountOut minAmountOut isAtoB w = Ok (u, w') ->
  let actualIn := actualInputAmount amountIn expectedAmountOut minAmountOut in
  let actualOut := actualTransferAmount expectedAmountOut minAmountOut in
  _paused (store w) = false /\ _entered (store w) = false /\ initialized w /\
  store w' =
    (if isAtoB
     then set_reserveB (TFHE.sub (_reserveB (store w)) actualOut)
            (set_reserveA (TFHE.add (_reserveA (store w)) actualIn) (store w))
     else set_reserveA (TFHE.sub (_reserveA (store w)) actualOut)
            (set_reserveB (TFHE.add (_reserveB (store w)) actualIn) (store w))) /\
  (exists t, ConfidentialToken._update sender (this w) actualIn
               (if isAtoB then tokenA w else tokenB w)
             = Ok (t, if isAtoB then tokenA w' else tokenB w')) /\
  (exists t, ConfidentialToken._update (this w) sender actualOut
               (if isAtoB then tokenB w else tokenA w)
             = Ok (t, if isAtoB then tokenB w' else tokenA w')) /\
  logs w' = logs w ++ [SwapExecuted sender
                         (if isAtoB then tokenA_address w else tokenB_address w)
                         (if isAtoB then tokenB_address w else tokenA_address w) sender].
Proof.
  unfold swap, whenNotPaused, nonReentrant, sload, sstore, emit,
    ConfidentialToken.confidentialTransferFrom, ConfidentialToken.confidentialTransfer.
  intros H. priv_inv.
  all: unfold initialized.
  all: destruct (store w) as [rA rB f n d o p e]; priv_cbn; subst.
  all: repeat split; eauto.
Qed.

Lemma confidential_addLiquidity_Ok (sender : address) (amountA amountB : Z)
      (w w' : World) (u : unit) :
  addLiquidity sender amountA amountB w = Ok (u, w') ->
  _paused (store w) = false /\ _entered (store w) = false /\
  store w' =
    (if TFHE.isInitialized (_reserveA (store w))
     then set_reserveB (TFHE.add (_reserveB (store w)) (TFHE.asEuint64 amountB))
            (set_reserveA (TFHE.add (_reserveA (store w)) (TFHE.asEuint64 amountA)) (store w))
     else set_reserveB (TFHE.asEuint64 amountB)
            (set_reserveA (TFHE.asEuint64 amountA) (store w))) /\
  logs w' = logs w ++ [LiquidityAdded sender].
Proof.
  unfold addLiquidity, whenNotPaused, nonReentrant, sload, sstore, emit.
  intros H. priv_inv.
  all: destruct (store w) as [rA rB f n d o p e]; priv_cbn; subst.
  all: destruct rA; priv_cbn; try discriminate; repeat split; eauto.
Qed.

Lemma confidential_removeLiquidity_Ok (sender : address) (amountA amountB : Z)
      (w w' : World) (u : unit) :
  removeLiquidity sender amountA amountB w = Ok (u, w') ->
  let hasEnough := hasEnoughReserves (_reserveA (store w)) (_reserveB (store w))
                                     amountA amountB in
  _paused (store w) = false /\ _entered (store w) = false /\ initialized w /\
  store w' =
    set_reserveB (TFHE.sub (_reserveB (store w)) (actualAmount hasEnough amountB))
      (set_reserveA (TFHE.sub (_reserveA (store w)) (actualAmount hasEnough amountA))
         (store w)) /\
  logs w' = logs w ++ [LiquidityRemoved sender].
Proof.
  unfold removeLiquidity, whenNotPaused, nonReentrant, sload, sstore, emit.
  intros H. priv_inv.
  unfold initialized.
  destruct (store w) as [rA rB f n d o p e]; priv_cbn; subst.
  repeat split; eauto.
Qed.

(** *** Sixty-four-bit plaintexts *)

Lemma mod_uint64 (x : Z) : TFHE.is_uint64 x -> x mod TFHE.UINT64_LIMIT = x.
Proof. intros H. apply Z.mod_small. exact H. Qed.

(** *** A failed slippage check *)

Lemma insufficient_amounts (amountIn expectedAmountOut minAmountOut : Z) :
  TFHE.is_uint64 expectedAmountOut -> TFHE.is_uint64 minAmountOut ->
  expectedAmountOut < minAmountOut ->
  actualInputAmount amountIn expectedAmountOut minAmountOut = Some 0 /\
  actualTransferAmount expectedAmountOut minAmountOut = Some 0.
Proof.
  intros He Hm Hlt.
  unfold actualInputAmount, actualTransferAmount, isAmountSufficient,
    TFHE.select, TFHE.ge, TFHE.asEuint64.
  cbn [TFHE.plainb TFHE.plain default from_option id].
  rewrite (mod_uint64 _ He), (mod_uint64 _ Hm).
  apply Z.leb_gt in Hlt. rewrite Hlt. split; reflexivity.
Qed.

Lemma add_zero (r : option Z) :
  TFHE.isInitialized r = true -> TFHE.wf r -> TFHE.add r (Some 0) = r.
Proof.
  destruct r as [x|]; [|discriminate]. intros _ Hx.
  unfold TFHE.add. cbn [TFHE.plain default from_option id]. rewrite Z.add_0_r, (mod_uint64 _ Hx). reflexivity.
Qed.

Lemma sub_zero (r : option Z) :
  TFHE.isInitialized r = true -> TFHE.wf r -> TFHE.sub r (Some 0) = r.
Proof.
  destruct r as [x|]; [|discriminate]. intros _ Hx.
  unfold TFHE.sub. cbn [TFHE.plain default from_option id]. rewrite Z.sub_0_r, (mod_uint64 _ Hx). reflexivity.
Qed.

Lemma private_world_wf (rA rB : option Z) (fee : Z) :
  TFHE.wf rA -> TFHE.wf rB -> is_uint256 fee -> wf (private_world rA rB fee).
Proof.
  intros HA HB Hf. unfold wf, private_world. priv_cbn.
  assert (Hp : forall r, TFHE.wf r -> TFHE.is_uint64 (TFHE.plain r)).
  { intros [x|] Hx; [exact Hx|]. unfold TFHE.is_uint64, TFHE.UINT64_LIMIT. cbn. lia. }
  assert (H7 : TFHE.is_uint64 20000) by (unfold TFHE.is_uint64, TFHE.UINT64_LIMIT; lia).
  split; [exact HA|]. split; [exact HB|]. split; [exact Hf|]. split; [reflexivity|].
  split; (apply map_Forall_insert_2; [apply Hp; assumption|]);
    apply map_Forall_singleton; exact H7.
Qed.

Lemma scenarioD_wf : wf scenarioD.
Proof.
  apply private_world_wf; cbn; unfold TFHE.is_uint64, TFHE.UINT64_LIMIT, is_uint256, UINT256_LIMIT; lia.
Qed.

(** *** Emergency withdrawal *)

(** C10: a call of [emergencyWithdraw(token, amount)] by the owner with
    [amount > 0] completes, leaves the storage (encrypted reserves, fee,
    pause flag, every stored quote numerator and denominator) and both
    token ledgers exactly as they were, and only appends one
    [EmergencyWithdraw] event to the log. *)
Theorem C10_emergencyWithdraw_frame :
  forall (w : World) (sender token : address) (amount : Z),
    sender = _owner (store w) -> 0 < amount ->
    exists w',
      emergencyWithdraw sender token amount w = Ok (tt, w') /\
      store w' = store w /\
      tokenA w' = tokenA w /\ tokenB w' = tokenB w /\
      this w' = this w /\
      tokenA_address w' = tokenA_address w /\ tokenB_address w' = tokenB_address w /\
      logs w' = logs w ++ [EmergencyWithdraw token amount].
Proof.
  intros w sender token amount -> Ha.
  unfold emergencyWithdraw, onlyOwner, sload, emit, bind, gets, modify, require.
  rewrite Z.eqb_refl. apply Z.ltb_lt in Ha. rewrite Ha. cbn.
  eexists. split; [reflexivity|]. cbn. repeat split; reflexivity.
Qed.

Lemma C10_emergencyWithdraw_frame_witness :
  exists w', emergencyWithdraw 1 201 5 scenarioD = Ok (tt, w') /\
             store w' = store scenarioD /\
             tokenA w' = tokenA scenarioD /\ tokenB w' = tokenB scenarioD /\
             logs w' = [EmergencyWithdraw 201 5].
Proof.
  destruct (C10_emergencyWithdraw_frame scenarioD 1 201 5)
    as (w' & H1 & H2 & H3 & H4 & _ & _ & _ & H8).
  - reflexivity.
  - lia.
  - exists w'. repeat split; assumption.
Defined.

(** *** Quotes *)

Lemma getQuote_run (sender : address) (amountIn : Z) (isAtoB : bool) (w : World) :
  fhevmConfigSet (store w) = true ->
  initialized w -> swapFee (store w) <= FEE_DENOMINATOR ->
  let feeMultiplier := (FEE_DENOMINATOR - swapFee (store w)) mod TFHE.UINT64_LIMIT in
  let rIn := if isAtoB then _reserveA (store w) else _reserveB (store w) in
  let rOut := if isAtoB then _reserveB (store w) else _reserveA (store w) in
  getQuote sender amountIn isAtoB w =
    Ok (tt, mkWorld (this w) (tokenA_address w) (tokenB_address w)
              (set_lastDenominator sender (quoteDenominator amountIn feeMultiplier rIn)
                 (set_lastNumerator sender (quoteNumerator amountIn feeMultiplier rOut)
                    (store w)))
              (tokenA w) (tokenB w)
              (logs w ++ [QuoteCalculated sender
                            (if isAtoB then tokenA_address w else tokenB_address w)])).
Proof.
  intros Hc [HA HB] Hf. cbv zeta.
  unfold getQuote, sload, sstore, emit. do 2 run_step. rewrite HA, HB.
  do 2 run_step. erewrite bind_Ok_intro by (apply coprocessor_run; exact Hc).
  do 2 run_step. reflexivity.
Qed.

(** What a completed [getQuote] did. *)
Lemma getQuote_Ok (sender : address) (amountIn : Z) (isAtoB : bool) (w w' : World) (u : unit) :
  getQuote sender amountIn isAtoB w = Ok (u, w') ->
  let feeMultiplier := (FEE_DENOMINATOR - swapFee (store w)) mod TFHE.UINT64_LIMIT in
  let rIn := if isAtoB then _reserveA (store w) else _reserveB (store w) in
  let rOut := if isAtoB then _reserveB (store w) else _reserveA (store w) in
  fhevmConfigSet (store w) = true /\
  initialized w /\ swapFee (store w) <= FEE_DENOMINATOR /\
  w' = mkWorld (this w) (tokenA_address w) (tokenB_address w)
         (set_lastDenominator sender (quoteDenominator amountIn feeMultiplier rIn)
            (set_lastNumerator sender (quoteNumerator amountIn feeMultiplier rOut)
               (store w)))
         (tokenA w) (tokenB w)
         (logs w ++ [QuoteCalculated sender
                       (if isAtoB then tokenA_address w else tokenB_address w)]).
Proof.
  intros H. cbv zeta.
  assert (Hi : fhevmConfigSet (store w) = true /\ initialized w /\
               swapFee (store w) <= FEE_DENOMINATOR).
  { unfold getQuote, sload, sstore, emit in H. priv_inv.
    unfold initialized. auto. }
  destruct Hi as (Hc & Hi & Hf). split; [exact Hc|]. split; [exact Hi|]. split; [exact Hf|].
  rewrite (getQuote_run sender amountIn isAtoB w Hc Hi Hf) in H. cbv zeta in H.
  injection H as _ <-. reflexivity.
Qed.

(** The plaintexts of the two expressions [getQuote] evaluates. *)
Lemma quote_plaintexts (amountIn feeMultiplier : Z) (rIn rOut : option Z) :
  TFHE.plain (quoteNumerator amountIn feeMultiplier rOut) =
    (((amountIn mod TFHE.UINT64_LIMIT) * feeMultiplier) mod TFHE.UINT64_LIMIT
     * TFHE.plain rOut) mod TFHE.UINT64_LIMIT /\
  TFHE.plain (quoteDenominator amountIn feeMultiplier rIn) =
    ((TFHE.plain rIn * (FEE_DENOMINATOR mod TFHE.UINT64_LIMIT)) mod TFHE.UINT64_LIMIT
     + ((amountIn mod TFHE.UINT64_LIMIT) * feeMultiplier) mod TFHE.UINT64_LIMIT)
    mod TFHE.UINT64_LIMIT.
Proof.
  unfold quoteNumerator, quoteDenominator, amountInWithFee,
    TFHE.mul, TFHE.add, TFHE.mul_scalar, TFHE.asEuint64.
  cbn [TFHE.plain default from_option id]. split; reflexivity.
Qed.

(** Within 64 bits the two expressions are the products and the sum
    they are written as. *)
Lemma quote_plaintexts_small (amountIn feeBps reserveIn reserveOut : Z) :
  TFHE.is_uint64 amountIn -> 0 <= feeBps <= 10000 ->
  0 < reserveIn -> 0 < reserveOut ->
  amountIn * (10000 - feeBps) * reserveOut < TFHE.UINT64_LIMIT ->
  reserveIn * 10000 + amountIn * (10000 - feeBps) < TFHE.UINT64_LIMIT ->
  let feeMultiplier := (FEE_DENOMINATOR - feeBps) mod TFHE.UINT64_LIMIT in
  TFHE.plain (quoteNumerator amountIn feeMultiplier (Some reserveOut))
    = amountIn * (10000 - feeBps) * reserveOut /\
  TFHE.plain (quoteDenominator amountIn feeMultiplier (Some reserveIn))
    = reserveIn * 10000 + amountIn * (10000 - feeBps).
Proof.
  intros Ha Hf Hin Hout Hnum Hden fm.
  destruct (quote_plaintexts amountIn fm (Some reserveIn) (Some reserveOut)) as [Hn Hd].
  rewrite Hn, Hd. cbn [TFHE.plain default from_option id]. subst fm.
  unfold TFHE.is_uint64, FEE_DENOMINATOR in *.
  assert (Hm : 0 <= amountIn * (10000 - feeBps) < TFHE.UINT64_LIMIT) by (split; nia).
  rewrite (Z.mod_small amountIn) by lia.
  rewrite (Z.mod_small (10000 - feeBps)) by (unfold TFHE.UINT64_LIMIT in *; lia).
  rewrite (Z.mod_small (amountIn * (10000 - feeBps))) by lia.
  rewrite (Z.mod_small 10000) by (unfold TFHE.UINT64_LIMIT; lia).
  rewrite (Z.mod_small (amountIn * (10000 - feeBps) * reserveOut)) by nia.
  rewrite (Z.mod_small (reserveIn * 10000)) by nia.
  rewrite Z.mod_small by nia.
  split; reflexivity.
Qed.

Lemma getQuote_with_paused (sender : address) (amountIn : Z) (isAtoB : bool)
      (w : World) (b : bool) :
  getQuote sender amountIn isAtoB (with_paused b w) =
    map_world (with_paused b) (getQuote sender amountIn isAtoB w).
Proof.
  unfold getQuote, coprocessor, sload, sstore, emit, bind, gets, modify, require,
    checked_sub, ret, revert, map_world, with_paused.
  priv_cbn.
  repeat (match goal with
          | |- context [if ?c then _ else _] => destruct c
          end; priv_cbn); reflexivity.
Qed.

(** *** Fee update *)

Lemma setSwapFee_run (sender : address) (newFee : Z) (w : World) :
  setSwapFee sender newFee w =
    if _owner (store w) =? sender
    then if newFee <=? MAX_FEE
         then Ok (tt, mkWorld (this w) (tokenA_address w) (tokenB_address w)
                              (set_swapFee newFee (store w)) (tokenA w) (tokenB w)
                              (logs w ++ [FeeUpdated (swapFee (store w)) newFee]))
         else Revert (RequireFailed "Fee exceeds maximum")
    else Revert (OwnableUnauthorizedAccount sender).
Proof.
  unfold setSwapFee, onlyOwner, sload, sstore, emit, bind, gets, modify, require, ret, revert.
  destruct (_owner (store w) =? sender); [|reflexivity].
  destruct (newFee <=? MAX_FEE); reflexivity.
Qed.

(** *** Pause *)

Lemma paused_reverts {A : Type} (body : M World A) (w : World) :
  _paused (store w) = true -> whenNotPaused (nonReentrant body) w = Revert EnforcedPause.
Proof. apply confidential_whenNotPaused_paused. Qed.

(** *** Positive reserves *)

Lemma positive_inv (w : World) :
  wf w -> positive w ->
  exists x y, _reserveA (store w) = Some x /\ _reserveB (store w) = Some y /\
              0 < x < TFHE.UINT64_LIMIT /\ 0 < y < TFHE.UINT64_LIMIT.
Proof.
  intros (HA & HB & _) [Ha Hb]. unfold reserveA, reserveB in *.
  destruct (_reserveA (store w)) as [x|]; [|cbn in Ha; lia].
  destruct (_reserveB (store w)) as [y|]; [|cbn in Hb; lia].
  cbn in *. unfold TFHE.is_uint64 in *. exists x, y. repeat split; lia.
Qed.

Lemma confidential_addLiquidity_positive (sender : address) (amountA amountB : Z)
      (w w' : World) (u : unit) :
  addLiquidity sender amountA amountB w = Ok (u, w') ->
  wf w -> positive w ->
  TFHE.is_uint64 amountA -> TFHE.is_uint64 amountB ->
  reserveA w + amountA < TFHE.UINT64_LIMIT -> reserveB w + amountB < TFHE.UINT64_LIMIT ->
  positive w'.
Proof.
  intros H Hwf Hpos Ha Hb HoA HoB.
  destruct (positive_inv w Hwf Hpos) as (x & y & Ex & Ey & Hx & Hy).
  apply confidential_addLiquidity_Ok in H. destruct H as (_ & _ & Hs & _).
  unfold positive, reserveA, reserveB in *. rewrite Hs, Ex, Ey in *.
  cbn [TFHE.isInitialized]. priv_cbn.
  unfold TFHE.add, TFHE.asEuint64, TFHE.is_uint64 in *.
  cbn [TFHE.plain default from_option id] in *.
  rewrite (Z.mod_small amountA), (Z.mod_small amountB) by lia.
  rewrite !Z.mod_small by lia. lia.
Qed.

Lemma confidential_removeLiquidity_positive (sender : address) (amountA amountB : Z)
      (w w' : World) (u : unit) :
  removeLiquidity sender amountA amountB w = Ok (u, w') ->
  wf w -> positive w ->
  TFHE.is_uint64 amountA -> TFHE.is_uint64 amountB ->
  (positive w' <->
   ~ (amountA <= reserveA w /\ amountB <= reserveB w /\
      (amountA = reserveA w \/ amountB = reserveB w))).
Proof.
  intros H Hwf Hpos Ha Hb.
  destruct (positive_inv w Hwf Hpos) as (x & y & Ex & Ey & Hx & Hy).
  apply confidential_removeLiquidity_Ok in H. cbv zeta in H. destruct H as (_ & _ & _ & Hs & _).
  unfold positive, reserveA, reserveB in *. rewrite Hs, Ex, Ey in *. priv_cbn.
  unfold hasEnoughReserves, actualAmount, TFHE.select, TFHE.and, TFHE.ge, TFHE.sub,
    TFHE.asEuint64, TFHE.is_uint64 in *.
  cbn [TFHE.plain TFHE.plainb default from_option id] in *.
  rewrite (Z.mod_small amountA), (Z.mod_small amountB) by lia.
  destruct (Z.leb_spec amountA x), (Z.leb_spec amountB y);
    cbn [andb TFHE.plain default from_option id];
    rewrite ?Z.mod_0_l, ?Z.sub_0_r by (unfold TFHE.UINT64_LIMIT; lia);
    rewrite ?Z.mod_small by lia; lia.
Qed.

Lemma mod_add_pos (x a : Z) :
  0 < x < TFHE.UINT64_LIMIT -> 0 <= a < TFHE.UINT64_LIMIT ->
  (0 < (x + a) mod TFHE.UINT64_LIMIT <-> x + a <> TFHE.UINT64_LIMIT).
Proof.
  unfold TFHE.UINT64_LIMIT. intros Hx Ha.
  pose proof (Z.mod_pos_bound (x + a) (2 ^ 64) ltac:(lia)).
  pose proof (Z.div_mod (x + a) (2 ^ 64) ltac:(lia)).
  lia.
Qed.

Lemma mod_sub_pos (y e : Z) :
  0 < y < TFHE.UINT64_LIMIT -> 0 <= e < TFHE.UINT64_LIMIT ->
  (0 < (y - e) mod TFHE.UINT64_LIMIT <-> e <> y).
Proof.
  unfold TFHE.UINT64_LIMIT. intros Hy He.
  pose proof (Z.mod_pos_bound (y - e) (2 ^ 64) ltac:(lia)).
  pose proof (Z.div_mod (y - e) (2 ^ 64) ltac:(lia)).
  lia.
Qed.

Lemma confidential_swap_positive (sender : address) (amountIn expectedAmountOut minAmountOut : Z)
      (isAtoB : bool) (w w' : World) (u : unit) :
  swap sender amountIn expectedAmountOut minAmountOut isAtoB w = Ok (u, w') ->
  wf w -> positive w ->
  TFHE.is_uint64 amountIn -> TFHE.is_uint64 expectedAmountOut ->
  TFHE.is_uint64 minAmountOut ->
  (positive w' <->
   expectedAmountOut < minAmountOut \/
   (reserveIn isAtoB w + amountIn <> TFHE.UINT64_LIMIT /\
    expectedAmountOut <> reserveOut isAtoB w)).
Proof.
  intros H Hwf Hpos Ha He Hm.
  destruct (positive_inv w Hwf Hpos) as (x & y & Ex & Ey & Hx & Hy).
  apply confidential_swap_Ok in H. cbv zeta in H. destruct H as (_ & _ & _ & Hs & _).
  unfold positive, reserveIn, reserveOut, reserveA, reserveB in *. rewrite Hs, Ex, Ey in *.
  unfold actualInputAmount, actualTransferAmount, isAmountSufficient,
    TFHE.select, TFHE.ge, TFHE.add, TFHE.sub, TFHE.asEuint64, TFHE.is_uint64 in *.
  cbn [TFHE.plain TFHE.plainb default from_option id] in *.
  rewrite (Z.mod_small amountIn), (Z.mod_small expectedAmountOut),
    (Z.mod_small minAmountOut) by lia.
  clear Hs Hwf Ex Ey.
  pose proof (mod_add_pos x amountIn Hx Ha).
  pose proof (mod_add_pos y amountIn Hy Ha).
  pose proof (mod_sub_pos x expectedAmountOut Hx He).
  pose proof (mod_sub_pos y expectedAmountOut Hy He).
  assert (Hx' : x mod TFHE.UINT64_LIMIT = x) by (apply Z.mod_small; lia).
  assert (Hy' : y mod TFHE.UINT64_LIMIT = y) by (apply Z.mod_small; lia).
  destruct isAtoB; priv_cbn;
    destruct (Z.leb_spec minAmountOut expectedAmountOut);
    cbn [TFHE.plain default from_option id];
    rewrite ?Z.mod_0_l, ?Z.sub_0_r, ?Z.add_0_r by (unfold TFHE.UINT64_LIMIT; lia);
    rewrite ?Hx', ?Hy'; lia.
Qed.
End PrivateSwapFacts.

(** ** The two formulas compared *)

Section Formulas.

(** [x * r / (R + x)] grows with [x]. *)
Lemma output_monotone (x y r R : Z) :
  0 <= x <= y -> 0 <= r -> 0 < R ->
  x * r / (R + x) <= y * r / (R + y).
Proof.
  intros Hxy Hr HR.
  apply Z.div_le_lower_bound; [lia|].
  assert (Hq1 : (R + x) * (x * r / (R + x)) <= x * r) by (apply Z.mul_div_le; lia).
  assert (Hq2 : x * r / (R + x) <= r) by (apply Z.div_le_upper_bound; nia).
  assert (Hq0 : 0 <= x * r / (R + x)) by (apply Z.div_pos; nia).
  generalize dependent (x * r / (R + x)). intros q Hq1 Hq2 Hq0. nia.
Qed.

(** The specification's formula with numerator and denominator scaled
    by 10000. *)
Lemma spec_computeOutput_scaled (reserveIn reserveOut amountIn feeBps : Z) :
  spec_computeOutput reserveIn reserveOut amountIn feeBps =
    (10000 * spec_amountInAfterFee amountIn feeBps) * reserveOut
    / (reserveIn * 10000 + 10000 * spec_amountInAfterFee amountIn feeBps).
Proof.
  unfold spec_computeOutput.
  set (net := spec_amountInAfterFee amountIn feeBps).
  destruct (Z.eq_dec (reserveIn + net) 0) as [E|E].
  - replace (reserveIn * 10000 + 10000 * net) with 0 by lia.
    rewrite E. rewrite !Z.div_0_r. reflexivity.
  - replace (10000 * net * reserveOut) with (10000 * (net * reserveOut)) by lia.
    replace (reserveIn * 10000 + 10000 * net) with (10000 * (reserveIn + net)) by lia.
    rewrite Z.div_mul_cancel_l by lia. reflexivity.
Qed.

Lemma scaled_net_bound (amountIn feeBps : Z) :
  amountIn * (10000 - feeBps) <= 10000 * spec_amountInAfterFee amountIn feeBps.
Proof.
  unfold spec_amountInAfterFee.
  pose proof (Z.mul_div_le (amountIn * feeBps) 10000 ltac:(lia)). lia.
Qed.

Lemma scaled_net_exact (amountIn feeBps : Z) :
  (amountIn * feeBps) mod 10000 = 0 ->
  amountIn * (10000 - feeBps) = 10000 * spec_amountInAfterFee amountIn feeBps.
Proof.
  intros H. unfold spec_amountInAfterFee.
  pose proof (Z.div_mod (amountIn * feeBps) 10000 ltac:(lia)). lia.
Qed.

(** The quotient of the confidential quote never exceeds the
    transparent output, and meets it when the fee divides evenly. *)
Lemma confidential_quotient_le (reserveIn reserveOut amountIn feeBps : Z) :
  0 <= amountIn -> 0 <= feeBps <= 10000 -> 0 < reserveIn -> 0 <= reserveOut ->
  amountIn * (10000 - feeBps) * reserveOut / (reserveIn * 10000 + amountIn * (10000 - feeBps))
    <= spec_computeOutput reserveIn reserveOut amountIn feeBps.
Proof.
  intros Ha Hf Hin Hout. rewrite spec_computeOutput_scaled.
  pose proof (scaled_net_bound amountIn feeBps).
  apply output_monotone; [split; [nia|assumption] | assumption | lia].
Qed.

Lemma confidential_quotient_eq (reserveIn reserveOut amountIn feeBps : Z) :
  (amountIn * feeBps) mod 10000 = 0 ->
  amountIn * (10000 - feeBps) * reserveOut / (reserveIn * 10000 + amountIn * (10000 - feeBps))
    = spec_computeOutput reserveIn reserveOut amountIn feeBps.
Proof.
  intros H. rewrite spec_computeOutput_scaled.
  rewrite (scaled_net_exact amountIn feeBps H). reflexivity.
Qed.

End Formulas.

(** ** Properties that span both pools *)

Lemma transact_Revert {S A : Type} (m : M S A) (s : S) (e : Error) :
  m s = Revert e -> transact m s = (s, Revert e).
Proof. unfold transact. intros ->. reflexivity. Qed.

(** C3 (as amended): for every direction, a fee of at most 10000 basis
    points and plaintext values (both reserves positive) for which neither
    [amountIn * (10000 - feeBps) * reserveOut] nor
    [reserveIn * 10000 + amountIn * (10000 - feeBps)] reaches [2^64], these
    two values are the numerator and the denominator that the expressions
    of [getQuote] compute; [floor(numerator / denominator)] is never
    greater than the amountOut the transparent pool computes for the same
    reserves, amount and fee, and equals it whenever [amountIn * feeBps]
    is a multiple of 10000; and a [getQuote] call that completes has
    stored exactly these two values for its caller. Whether a call
    completes is no part of the statement. *)
Theorem C3_quote_against_transparent :
  forall (pw : PrivateSwap.World) (dw : DemoSwap.World) (sender : address)
         (amountIn : Z) (isAtoB : bool) (out newReserveIn : Z),
    PrivateSwap.wf pw -> PrivateSwap.positive pw ->
    TFHE.is_uint64 amountIn ->
    PrivateSwap.swapFee (PrivateSwap.store pw) <= 10000 ->
    DemoSwap.reserveIn isAtoB dw = PrivateSwap.reserveIn isAtoB pw ->
    DemoSwap.reserveOut isAtoB dw = PrivateSwap.reserveOut isAtoB pw ->
    DemoSwap.feeNumerator (DemoSwap.store dw) = PrivateSwap.swapFee (PrivateSwap.store pw) ->
    DemoSwap._calculateSwap isAtoB amountIn dw = Ok ((out, newReserveIn), dw) ->
    let feeBps := PrivateSwap.swapFee (PrivateSwap.store pw) in
    let numerator := amountIn * (10000 - feeBps) * PrivateSwap.reserveOut isAtoB pw in
    let denominator := PrivateSwap.reserveIn isAtoB pw * 10000 + amountIn * (10000 - feeBps) in
    numerator < TFHE.UINT64_LIMIT -> denominator < TFHE.UINT64_LIMIT ->
    let feeMultiplier := (PrivateSwap.FEE_DENOMINATOR - feeBps) mod TFHE.UINT64_LIMIT in
    let rIn := if isAtoB then PrivateSwap._reserveA (PrivateSwap.store pw)
               else PrivateSwap._reserveB (PrivateSwap.store pw) in
    let rOut := if isAtoB then PrivateSwap._reserveB (PrivateSwap.store pw)
                else PrivateSwap._reserveA (PrivateSwap.store pw) in
    TFHE.plain (PrivateSwap.quoteNumerator amountIn feeMultiplier rOut) = numerator /\
    TFHE.plain (PrivateSwap.quoteDenominator amountIn feeMultiplier rIn) = denominator /\
    numerator / denominator <= out /\
    ((amountIn * feeBps) mod 10000 = 0 -> numerator / denominator = out) /\
    (forall pw',
       PrivateSwap.getQuote sender amountIn isAtoB pw = Ok (tt, pw') ->
       PrivateSwap.lastNumerator pw' sender = numerator /\
       PrivateSwap.lastDenominator pw' sender = denominator).
Proof.
  intros pw dw sender amountIn isAtoB out newReserveIn Hwf Hpos Ha Hfee Hin Hout Hf Hcalc
         feeBps numerator denominator Hnum Hden feeMultiplier rIn rOut.
  destruct (PrivateSwapFacts.positive_inv pw Hwf Hpos) as (x & y & Ex & Ey & Hx & Hy).
  assert (Hf0 : 0 <= feeBps) by (destruct Hwf as (_ & _ & [H0 _] & _); exact H0).
  assert (HrIn : rIn = Some (PrivateSwap.reserveIn isAtoB pw)).
  { subst rIn. unfold PrivateSwap.reserveIn, PrivateSwap.reserveA, PrivateSwap.reserveB.
    rewrite Ex, Ey. destruct isAtoB; reflexivity. }
  assert (HrOut : rOut = Some (PrivateSwap.reserveOut isAtoB pw)).
  { subst rOut. unfold PrivateSwap.reserveOut, PrivateSwap.reserveA, PrivateSwap.reserveB.
    rewrite Ex, Ey. destruct isAtoB; reflexivity. }
  assert (Hrin : 0 < PrivateSwap.reserveIn isAtoB pw).
  { unfold PrivateSwap.reserveIn, PrivateSwap.reserveA, PrivateSwap.reserveB.
    rewrite Ex, Ey. destruct isAtoB; cbn; lia. }
  assert (Hrout : 0 < PrivateSwap.reserveOut isAtoB pw).
  { unfold PrivateSwap.reserveOut, PrivateSwap.reserveA, PrivateSwap.reserveB.
    rewrite Ex, Ey. destruct isAtoB; cbn; lia. }
  destruct (PrivateSwapFacts.quote_plaintexts_small amountIn feeBps
              (PrivateSwap.reserveIn isAtoB pw) (PrivateSwap.reserveOut isAtoB pw)
              Ha ltac:(lia) Hrin Hrout Hnum Hden) as [Hn Hd].
  fold feeMultiplier in Hn, Hd. rewrite <- HrOut in Hn. rewrite <- HrIn in Hd.
  fold numerator in Hn. fold denominator in Hd.
  apply DemoSwapFacts._calculateSwap_Ok in Hcalc. cbv zeta in Hcalc.
  destruct Hcalc as (_ & Hres & _).
  injection Hres as Hres _. rewrite Hin, Hout, Hf in Hres. fold feeBps in Hres.
  change (amountIn - amountIn * feeBps / DemoSwap.FEE_DENOMINATOR)
    with (spec_amountInAfterFee amountIn feeBps) in Hres.
  change (spec_amountInAfterFee amountIn feeBps * PrivateSwap.reserveOut isAtoB pw
          / (PrivateSwap.reserveIn isAtoB pw + spec_amountInAfterFee amountIn feeBps))
    with (spec_computeOutput (PrivateSwap.reserveIn isAtoB pw)
            (PrivateSwap.reserveOut isAtoB pw) amountIn feeBps) in Hres.
  split; [exact Hn|]. split; [exact Hd|]. split; [|split].
  - rewrite Hres. subst numerator denominator.
    apply confidential_quotient_le; [apply Ha | split; assumption | exact Hrin | ].
    apply Z.lt_le_incl; exact Hrout.
  - rewrite Hres. subst numerator denominator. apply confidential_quotient_eq.
  - intros pw' Hrun. apply PrivateSwapFacts.getQuote_Ok in Hrun. cbv zeta in Hrun.
    destruct Hrun as (_ & _ & _ & ->).
    fold feeBps in Hn, Hd |- *. fold feeMultiplier. fold rIn rOut.
    unfold PrivateSwap.lastNumerator, PrivateSwap.lastDenominator.
    cbn [PrivateSwap.store PrivateSwap._lastNumerator PrivateSwap._lastDenominator
         PrivateSwap.set_lastNumerator PrivateSwap.set_lastDenominator].
    rewrite <- Hn, <- Hd.
    unfold PrivateSwap.quoteNumerator, PrivateSwap.quoteDenominator, TFHE.mul, TFHE.add.
    rewrite !lookup_insert_eq. split; reflexivity.
Qed.

Lemma C3_quote_against_transparent_witness :
  TFHE.plain (PrivateSwap.quoteNumerator 10000 9970 (Some 500000)) = 49850000000000 /\
  TFHE.plain (PrivateSwap.quoteDenominator 10000 9970 (Some 1000000)) = 10099700000 /\
  49850000000000 / 10099700000 = 4935.
Proof.
  destruct (C3_quote_against_transparent scenarioD scenarioA 7 10000 true 4935 1009970)
    as (H1 & H2 & _ & H4 & _).
  - exact PrivateSwapFacts.scenarioD_wf.
  - split; vm_compute; reflexivity.
  - unfold TFHE.is_uint64, TFHE.UINT64_LIMIT; lia.
  - vm_compute; congruence.
  - reflexivity.
  - reflexivity.
  - reflexivity.
  - vm_compute; reflexivity.
  - vm_compute; reflexivity.
  - vm_compute; reflexivity.
  - split; [exact H1|]. split; [exact H2|]. apply H4. vm_compute; reflexivity.
Defined.

(** C3 as stated fails: with reserves (1, 2), a fee of 30 basis points and
    [amountIn = 1], the transparent pool pays out 1 while the numerator
    and denominator of [getQuote] are 19940 and 19970, whose quotient is
    0; a [getQuote] call that completes on such a pool has stored these. *)
Lemma C3_quote_against_transparent_counterexample :
  DemoSwap.quote true 1 (demo_world 1 2 30) = Ok (1, demo_world 1 2 30) /\
  TFHE.plain (PrivateSwap.quoteNumerator 1 9970 (Some 2)) = 19940 /\
  TFHE.plain (PrivateSwap.quoteDenominator 1 9970 (Some 1)) = 19970 /\
  19940 / 19970 = 0 /\ 19940 / 19970 <> 1 /\
  (forall pw',
     PrivateSwap.getQuote 7 1 true (private_world (Some 1) (Some 2) 30) = Ok (tt, pw') ->
     PrivateSwap.lastNumerator pw' 7 = 19940 /\
     PrivateSwap.lastDenominator pw' 7 = 19970).
Proof.
  split; [vm_compute; reflexivity|].
  split; [vm_compute; reflexivity|].
  split; [vm_compute; reflexivity|].
  split; [vm_compute; reflexivity|].
  split; [vm_compute; congruence|].
  intros pw' H. apply PrivateSwapFacts.getQuote_Ok in H. cbv zeta in H.
  destruct H as (_ & _ & _ & ->). split; vm_compute; reflexivity.
Qed.

(** C1 (as amended): from a state with both reserves positive, every
    successful transparent swap and addLiquidity leaves both reserves
    positive; a successful transparent removeLiquidity leaves both
    positive exactly when [amountA < reserveA] and [amountB < reserveB];
    a confidential addLiquidity leaves both positive when neither sum
    reaches [2^64]; a confidential removeLiquidity leaves both positive
    exactly when it is not a covered request that takes a whole reserve;
    and a confidential swap leaves both positive exactly when the
    slippage check fails, or [expectedAmountOut <> reserveOut] and
    [reserveIn + amountIn <> 2^64]. *)
Theorem C1_positive_reserves :
  (forall (sender : address) (aToB : bool) (amountIn minAmountOut : Z)
          (w w' : DemoSwap.World) (out : Z),
     DemoSwap.positive w ->
     DemoSwap.swap sender aToB amountIn minAmountOut w = Ok (out, w') ->
     DemoSwap.positive w') /\
  (forall (sender : address) (amountA amountB : Z) (w w' : DemoSwap.World),
     DemoSwap.positive w ->
     DemoSwap.addLiquidity sender amountA amountB w = Ok (tt, w') ->
     DemoSwap.positive w') /\
  (forall (sender : address) (amountA amountB : Z) (w w' : DemoSwap.World),
     DemoSwap.positive w ->
     DemoSwap.removeLiquidity sender amountA amountB w = Ok (tt, w') ->
     (DemoSwap.positive w' <->
      amountA < DemoSwap.reserveA (DemoSwap.store w) /\
      amountB < DemoSwap.reserveB (DemoSwap.store w))) /\
  (forall (sender : address) (amountA amountB : Z) (w w' : PrivateSwap.World),
     PrivateSwap.wf w -> PrivateSwap.positive w ->
     TFHE.is_uint64 amountA -> TFHE.is_uint64 amountB ->
     PrivateSwap.addLiquidity sender amountA amountB w = Ok (tt, w') ->
     PrivateSwap.reserveA w + amountA < TFHE.UINT64_LIMIT ->
     PrivateSwap.reserveB w + amountB < TFHE.UINT64_LIMIT ->
     PrivateSwap.positive w') /\
  (forall (sender : address) (amountA amountB : Z) (w w' : PrivateSwap.World),
     PrivateSwap.wf w -> PrivateSwap.positive w ->
     TFHE.is_uint64 amountA -> TFHE.is_uint64 amountB ->
     PrivateSwap.removeLiquidity sender amountA amountB w = Ok (tt, w') ->
     (PrivateSwap.positive w' <->
      ~ (amountA <= PrivateSwap.reserveA w /\ amountB <= PrivateSwap.reserveB w /\
         (amountA = PrivateSwap.reserveA w \/ amountB = PrivateSwap.reserveB w)))) /\
  (forall (sender : address) (amountIn expectedAmountOut minAmountOut : Z) (isAtoB : bool)
          (w w' : PrivateSwap.World),
     PrivateSwap.wf w -> PrivateSwap.positive w ->
     TFHE.is_uint64 amountIn -> TFHE.is_uint64 expectedAmountOut ->
     TFHE.is_uint64 minAmountOut ->
     PrivateSwap.swap sender amountIn expectedAmountOut minAmountOut isAtoB w = Ok (tt, w') ->
     (PrivateSwap.positive w' <->
      expectedAmountOut < minAmountOut \/
      (PrivateSwap.reserveIn isAtoB w + amountIn <> TFHE.UINT64_LIMIT /\
       expectedAmountOut <> PrivateSwap.reserveOut isAtoB w))).
Proof.
  repeat apply conj.
  - intros sender aToB amountIn minAmountOut w w' out _ H.
    exact (DemoSwapFacts.swap_positive _ _ _ _ _ _ _ H).
  - intros sender amountA amountB w w' Hpos H.
    exact (DemoSwapFacts.addLiquidity_positive _ _ _ _ _ _ H Hpos).
  - intros sender amountA amountB w w' _ H.
    exact (DemoSwapFacts.removeLiquidity_positive _ _ _ _ _ _ H).
  - intros sender amountA amountB w w' Hwf Hpos Ha Hb H HA HB.
    exact (PrivateSwapFacts.confidential_addLiquidity_positive _ _ _ _ _ _ H Hwf Hpos Ha Hb HA HB).
  - intros sender amountA amountB w w' Hwf Hpos Ha Hb H.
    exact (PrivateSwapFacts.confidential_removeLiquidity_positive _ _ _ _ _ _ H Hwf Hpos Ha Hb).
  - intros sender amountIn expectedAmountOut minAmountOut isAtoB w w' Hwf Hpos Ha He Hm H.
    exact (PrivateSwapFacts.confidential_swap_positive _ _ _ _ _ _ _ _ H Hwf Hpos Ha He Hm).
Qed.

Lemma C1_positive_reserves_witness :
  DemoSwap.positive (transact (DemoSwap.swap 7 true 10000 0) scenarioA).1 /\
  DemoSwap.positive (transact (DemoSwap.addLiquidity 7 300 200) scenarioA).1 /\
  PrivateSwap.positive (transact (PrivateSwap.swap 7 10000 4935 4000 true) scenarioD).1.
Proof.
  destruct C1_positive_reserves as (Hswap & Hadd & _ & _ & _ & Hpswap).
  assert (Hposd : DemoSwap.positive scenarioA) by (split; vm_compute; reflexivity).
  assert (Hposp : PrivateSwap.positive scenarioD) by (split; vm_compute; reflexivity).
  assert (H64 : forall x, 0 <= x < 1000000 -> TFHE.is_uint64 x)
    by (intros x Hx; unfold TFHE.is_uint64, TFHE.UINT64_LIMIT; lia).
  split; [|split].
  - apply (Hswap 7 true 10000 0 scenarioA _ 4935 Hposd). vm_compute. reflexivity.
  - apply (Hadd 7 300 200 scenarioA _ Hposd). vm_compute. reflexivity.
  - apply (Hpswap 7 10000 4935 4000 true scenarioD _ PrivateSwapFacts.scenarioD_wf Hposp);
      try (apply H64; lia).
    + vm_compute. reflexivity.
    + right. split; vm_compute; congruence.
Defined.

(** C1 as stated fails: on Scenario A, [removeLiquidity(1000000, 0)]
    succeeds and drains reserve A to zero while reserve B stays at
    500,000; and on the confidential pool a swap whose
    [expectedAmountOut] is the whole output reserve drains that side. *)
Lemma C1_positive_reserves_counterexample :
  DemoSwap.positive scenarioA /\
  (exists w', DemoSwap.removeLiquidity 7 1000000 0 scenarioA = Ok (tt, w') /\
              DemoSwap.reserveA (DemoSwap.store w') = 0 /\
              DemoSwap.reserveB (DemoSwap.store w') = 500000 /\
              ~ DemoSwap.positive w') /\
  PrivateSwap.positive scenarioD /\
  (exists w', PrivateSwap.swap 7 10000 500000 0 true scenarioD = Ok (tt, w') /\
              PrivateSwap.reserveA w' = 1010000 /\
              PrivateSwap.reserveB w' = 0 /\
              ~ PrivateSwap.positive w').
Proof.
  split; [split; vm_compute; reflexivity|].
  split.
  { eexists. split; [vm_compute; reflexivity|].
    split; [vm_compute; reflexivity|]. split; [vm_compute; reflexivity|].
    intros [H _]. vm_compute in H. discriminate. }
  split; [split; vm_compute; reflexivity|].
  eexists. split; [vm_compute; reflexivity|].
  split; [vm_compute; reflexivity|]. split; [vm_compute; reflexivity|].
  intros [_ H]. vm_compute in H. discriminate.
Qed.

(** *** Fee updates, case by case *)

Lemma demo_updateFee_iff (w : DemoSwap.World) (sender : address) (newFee : Z) :
  (exists w', DemoSwap.updateFee sender newFee w = Ok (tt, w')) <->
  sender = DemoSwap._owner (DemoSwap.store w) /\ newFee <= 100.
Proof.
  rewrite DemoSwapFacts.updateFee_run.
  destruct (Z.eqb_spec (DemoSwap._owner (DemoSwap.store w)) sender) as [Ho|Ho];
    [destruct (Z.leb_spec newFee 100) as [Hf|Hf]|].
  - split; [intros _; split; [congruence|lia] | intros _; eauto].
  - split; [intros [w' H]; discriminate | intros [_ H]; lia].
  - split; [intros [w' H]; discriminate | intros [H _]; congruence].
Qed.

Lemma demo_updateFee_effect (w w' : DemoSwap.World) (sender : address) (newFee : Z) :
  DemoSwap.updateFee sender newFee w = Ok (tt, w') ->
  DemoSwap.feeNumerator (DemoSwap.store w') = newFee /\
  DemoSwap.reserveA (DemoSwap.store w') = DemoSwap.reserveA (DemoSwap.store w) /\
  DemoSwap.reserveB (DemoSwap.store w') = DemoSwap.reserveB (DemoSwap.store w).
Proof.
  rewrite DemoSwapFacts.updateFee_run.
  destruct (DemoSwap._owner (DemoSwap.store w) =? sender); [|discriminate].
  destruct (newFee <=? 100); [|discriminate].
  intros [= <-]. repeat split; reflexivity.
Qed.

Lemma demo_updateFee_too_high (w : DemoSwap.World) (sender : address) (newFee : Z) :
  sender = DemoSwap._owner (DemoSwap.store w) -> 100 < newFee ->
  DemoSwap.updateFee sender newFee w = Revert (RequireFailed "Fee too high").
Proof.
  intros -> Hf. rewrite DemoSwapFacts.updateFee_run, Z.eqb_refl.
  apply Z.leb_gt in Hf. rewrite Hf. reflexivity.
Qed.

Lemma demo_updateFee_unauthorized (w : DemoSwap.World) (sender : address) (newFee : Z) :
  sender <> DemoSwap._owner (DemoSwap.store w) ->
  DemoSwap.updateFee sender newFee w = Revert (OwnableUnauthorizedAccount sender).
Proof.
  intros Ho. rewrite DemoSwapFacts.updateFee_run.
  destruct (Z.eqb_spec (DemoSwap._owner (DemoSwap.store w)) sender); [congruence|reflexivity].
Qed.

Lemma private_setSwapFee_iff (w : PrivateSwap.World) (sender : address) (newFee : Z) :
  (exists w', PrivateSwap.setSwapFee sender newFee w = Ok (tt, w')) <->
  sender = PrivateSwap._owner (PrivateSwap.store w) /\ newFee <= PrivateSwap.MAX_FEE.
Proof.
  rewrite PrivateSwapFacts.setSwapFee_run.
  destruct (Z.eqb_spec (PrivateSwap._owner (PrivateSwap.store w)) sender) as [Ho|Ho];
    [destruct (Z.leb_spec newFee PrivateSwap.MAX_FEE) as [Hf|Hf]|].
  - split; [intros _; split; [congruence|lia] | intros _; eauto].
  - split; [intros [w' H]; discriminate | intros [_ H]; lia].
  - split; [intros [w' H]; discriminate | intros [H _]; congruence].
Qed.

Lemma private_setSwapFee_effect (w w' : PrivateSwap.World) (sender : address) (newFee : Z) :
  PrivateSwap.setSwapFee sender newFee w = Ok (tt, w') ->
  PrivateSwap.swapFee (PrivateSwap.store w') = newFee /\
  PrivateSwap._reserveA (PrivateSwap.store w') = PrivateSwap._reserveA (PrivateSwap.store w) /\
  PrivateSwap._reserveB (PrivateSwap.store w') = PrivateSwap._reserveB (PrivateSwap.store w).
Proof.
  rewrite PrivateSwapFacts.setSwapFee_run.
  destruct (PrivateSwap._owner (PrivateSwap.store w) =? sender); [|discriminate].
  destruct (newFee <=? PrivateSwap.MAX_FEE); [|discriminate].
  intros [= <-]. repeat split; reflexivity.
Qed.

Lemma private_setSwapFee_too_high (w : PrivateSwap.World) (sender : address) (newFee : Z) :
  sender = PrivateSwap._owner (PrivateSwap.store w) -> PrivateSwap.MAX_FEE < newFee ->
  PrivateSwap.setSwapFee sender newFee w = Revert (RequireFailed "Fee exceeds maximum").
Proof.
  intros -> Hf. rewrite PrivateSwapFacts.setSwapFee_run, Z.eqb_refl.
  apply Z.leb_gt in Hf. rewrite Hf. reflexivity.
Qed.

Lemma private_setSwapFee_unauthorized (w : PrivateSwap.World) (sender : address) (newFee : Z) :
  sender <> PrivateSwap._owner (PrivateSwap.store w) ->
  PrivateSwap.setSwapFee sender newFee w = Revert (OwnableUnauthorizedAccount sender).
Proof.
  intros Ho. rewrite PrivateSwapFacts.setSwapFee_run.
  destruct (Z.eqb_spec (PrivateSwap._owner (PrivateSwap.store w)) sender); [congruence|reflexivity].
Qed.

(** C7 (as amended): the fee update succeeds exactly when the caller is
    the owner and the new fee is within the pool's own bound, which is
    [MAX_FEE = 1000] for the confidential pool ([setSwapFee]) and 100 for
    the transparent pool ([updateFee]); an accepted fee is the one stored
    and read by every later formula evaluation, with the reserves
    untouched; an owner call above the bound is rejected; a call by anyone
    else fails as unauthorized and the transaction leaves the world, the
    fee with it, unchanged. *)
Theorem C7_fee_update :
  (forall (w : DemoSwap.World) (sender : address) (newFee : Z),
     ((exists w', DemoSwap.updateFee sender newFee w = Ok (tt, w')) <->
      sender = DemoSwap._owner (DemoSwap.store w) /\ newFee <= 100) /\
     (forall w', DemoSwap.updateFee sender newFee w = Ok (tt, w') ->
                 DemoSwap.feeNumerator (DemoSwap.store w') = newFee /\
                 DemoSwap.reserveA (DemoSwap.store w') = DemoSwap.reserveA (DemoSwap.store w) /\
                 DemoSwap.reserveB (DemoSwap.store w') = DemoSwap.reserveB (DemoSwap.store w)) /\
     (sender = DemoSwap._owner (DemoSwap.store w) -> 100 < newFee ->
      DemoSwap.updateFee sender newFee w = Revert (RequireFailed "Fee too high")) /\
     (sender <> DemoSwap._owner (DemoSwap.store w) ->
      DemoSwap.updateFee sender newFee w = Revert (OwnableUnauthorizedAccount sender) /\
      transact (DemoSwap.updateFee sender newFee) w
        = (w, Revert (OwnableUnauthorizedAccount sender)))) /\
  (forall (w : PrivateSwap.World) (sender : address) (newFee : Z),
     ((exists w', PrivateSwap.setSwapFee sender newFee w = Ok (tt, w')) <->
      sender = PrivateSwap._owner (PrivateSwap.store w) /\ newFee <= PrivateSwap.MAX_FEE) /\
     (forall w', PrivateSwap.setSwapFee sender newFee w = Ok (tt, w') ->
                 PrivateSwap.swapFee (PrivateSwap.store w') = newFee /\
                 PrivateSwap._reserveA (PrivateSwap.store w')
                   = PrivateSwap._reserveA (PrivateSwap.store w) /\
                 PrivateSwap._reserveB (PrivateSwap.store w')
                   = PrivateSwap._reserveB (PrivateSwap.store w)) /\
     (sender = PrivateSwap._owner (PrivateSwap.store w) -> PrivateSwap.MAX_FEE < newFee ->
      PrivateSwap.setSwapFee sender newFee w = Revert (RequireFailed "Fee exceeds maximum")) /\
     (sender <> PrivateSwap._owner (PrivateSwap.store w) ->
      PrivateSwap.setSwapFee sender newFee w = Revert (OwnableUnauthorizedAccount sender) /\
      transact (PrivateSwap.setSwapFee sender newFee) w
        = (w, Revert (OwnableUnauthorizedAccount sender)))) /\
  PrivateSwap.MAX_FEE = 1000.
Proof.
  split; [|split; [|reflexivity]].
  - intros w sender newFee.
    split; [apply demo_updateFee_iff|].
    split; [intros w'; apply demo_updateFee_effect|].
    split; [apply demo_updateFee_too_high|].
    intros Ho. pose proof (demo_updateFee_unauthorized w sender newFee Ho) as H.
    split; [exact H | apply transact_Revert; exact H].
  - intros w sender newFee.
    split; [apply private_setSwapFee_iff|].
    split; [intros w'; apply private_setSwapFee_effect|].
    split; [apply private_setSwapFee_too_high|].
    intros Ho. pose proof (private_setSwapFee_unauthorized w sender newFee Ho) as H.
    split; [exact H | apply transact_Revert; exact H].
Qed.

Lemma C7_fee_update_witness :
  (exists w', PrivateSwap.setSwapFee 1 1000 scenarioD = Ok (tt, w')) /\
  (exists w', DemoSwap.updateFee 1 100 scenarioA = Ok (tt, w')) /\
  transact (DemoSwap.updateFee 7 50) scenarioA
    = (scenarioA, Revert (OwnableUnauthorizedAccount 7)).
Proof.
  destruct C7_fee_update as (Hd & Hp & _).
  split; [|split].
  - apply (proj1 (Hp scenarioD 1 1000)). split; [reflexivity | unfold PrivateSwap.MAX_FEE; lia].
  - apply (proj1 (Hd scenarioA 1 100)). split; [reflexivity | lia].
  - apply (proj2 (proj2 (proj2 (Hd scenarioA 7 50)))). vm_compute. congruence.
Defined.

(** C7 as stated fails for the transparent pool: its owner (account 1)
    asks for a fee of 500 basis points, which is below [MAX_FEE = 1000],
    and the call is rejected; the fee stays at 30. *)
Lemma C7_fee_update_counterexample :
  DemoSwap._owner (DemoSwap.store scenarioA) = 1 /\ 500 <= 1000 /\
  DemoSwap.updateFee 1 500 scenarioA = Revert (RequireFailed "Fee too high") /\
  transact (DemoSwap.updateFee 1 500) scenarioA
    = (scenarioA, Revert (RequireFailed "Fee too high")) /\
  ~ (exists w', DemoSwap.updateFee 1 500 scenarioA = Ok (tt, w')).
Proof.
  split; [reflexivity|]. split; [lia|].
  split; [vm_compute; reflexivity|]. split; [vm_compute; reflexivity|].
  intros [w' H]. vm_compute in H. discriminate.
Qed.

(** *** Pause, case by case *)

Lemma demo_paused_swap (w : DemoSwap.World) (sender : address) (aToB : bool)
      (amountIn minAmountOut : Z) :
  DemoSwap._paused (DemoSwap.store w) = true -> DemoSwap._entered (DemoSwap.store w) = false ->
  DemoSwap.swap sender aToB amountIn minAmountOut w = Revert EnforcedPause.
Proof. intros Hp He. apply DemoSwapFacts.nonReentrant_paused; assumption. Qed.

Lemma demo_paused_addLiquidity (w : DemoSwap.World) (sender : address) (amountA amountB : Z) :
  DemoSwap._paused (DemoSwap.store w) = true -> DemoSwap._entered (DemoSwap.store w) = false ->
  DemoSwap.addLiquidity sender amountA amountB w = Revert EnforcedPause.
Proof. intros Hp He. apply DemoSwapFacts.nonReentrant_paused; assumption. Qed.

Lemma demo_paused_removeLiquidity (w : DemoSwap.World) (sender : address) (amountA amountB : Z) :
  DemoSwap._paused (DemoSwap.store w) = true -> DemoSwap._entered (DemoSwap.store w) = false ->
  DemoSwap.removeLiquidity sender amountA amountB w = Revert EnforcedPause.
Proof. intros Hp He. apply DemoSwapFacts.nonReentrant_paused; assumption. Qed.

(** C8: on a paused pool (with its reentrancy guard released, as it is
    between transactions) every swap, addLiquidity and removeLiquidity of
    either variant reverts with the pause error ([EnforcedPause]) before
    anything else is checked, and the transaction leaves the world
    unchanged; [quote] and [getQuote] do not read the pause flag: run on a
    world with the flag forced to either value they give the same result,
    and the same stored quote and log, as on the world itself. *)
Theorem C8_paused :
  (forall (w : DemoSwap.World),
     DemoSwap._paused (DemoSwap.store w) = true ->
     DemoSwap._entered (DemoSwap.store w) = false ->
     (forall sender aToB amountIn minAmountOut,
        transact (DemoSwap.swap sender aToB amountIn minAmountOut) w
          = (w, Revert EnforcedPause)) /\
     (forall sender amountA amountB,
        transact (DemoSwap.addLiquidity sender amountA amountB) w
          = (w, Revert EnforcedPause)) /\
     (forall sender amountA amountB,
        transact (DemoSwap.removeLiquidity sender amountA amountB) w
          = (w, Revert EnforcedPause))) /\
  (forall (w : PrivateSwap.World),
     PrivateSwap._paused (PrivateSwap.store w) = true ->
     (forall sender amountIn expectedAmountOut minAmountOut isAtoB,
        transact (PrivateSwap.swap sender amountIn expectedAmountOut minAmountOut isAtoB) w
          = (w, Revert EnforcedPause)) /\
     (forall sender amountA amountB,
        transact (PrivateSwap.addLiquidity sender amountA amountB) w
          = (w, Revert EnforcedPause)) /\
     (forall sender amountA amountB,
        transact (PrivateSwap.removeLiquidity sender amountA amountB) w
          = (w, Revert EnforcedPause))) /\
  (forall (w : DemoSwap.World) (aToB : bool) (amountIn : Z) (b : bool),
     DemoSwap.quote aToB amountIn (DemoSwap.with_paused b w)
       = map_world (DemoSwap.with_paused b) (DemoSwap.quote aToB amountIn w)) /\
  (forall (w : PrivateSwap.World) (sender : address) (amountIn : Z) (isAtoB : bool) (b : bool),
     PrivateSwap.getQuote sender amountIn isAtoB (PrivateSwap.with_paused b w)
       = map_world (PrivateSwap.with_paused b) (PrivateSwap.getQuote sender amountIn isAtoB w)).
Proof.
  split; [|split; [|split]].
  - intros w Hp He. split; [|split]; intros; apply transact_Revert.
    + apply demo_paused_swap; assumption.
    + apply demo_paused_addLiquidity; assumption.
    + apply demo_paused_removeLiquidity; assumption.
  - intros w Hp. split; [|split]; intros; apply transact_Revert;
      apply PrivateSwapFacts.paused_reverts; assumption.
  - intros w aToB amountIn b. apply DemoSwapFacts.quote_with_paused.
  - intros w sender amountIn isAtoB b. apply PrivateSwapFacts.getQuote_with_paused.
Qed.

Lemma C8_paused_witness :
  let paused := (transact (DemoSwap.pause 1) scenarioA).1 in
  DemoSwap._paused (DemoSwap.store paused) = true /\
  transact (DemoSwap.swap 7 true 10000 0) paused = (paused, Revert EnforcedPause) /\
  transact (PrivateSwap.swap 7 10000 4935 4000 true) (PrivateSwap.with_paused true scenarioD)
    = (PrivateSwap.with_paused true scenarioD, Revert EnforcedPause).
Proof.
  intros paused.
  destruct C8_paused as (Hd & Hp & _).
  assert (H1 : DemoSwap._paused (DemoSwap.store paused) = true) by (vm_compute; reflexivity).
  assert (H2 : DemoSwap._entered (DemoSwap.store paused) = false) by (vm_compute; reflexivity).
  assert (H3 : PrivateSwap._paused (PrivateSwap.store (PrivateSwap.with_paused true scenarioD))
               = true) by reflexivity.
  split; [exact H1|]. split.
  - exact (proj1 (Hd paused H1 H2) 7 true 10000 0).
  - exact (proj1 (Hp (PrivateSwap.with_paused true scenarioD) H3) 7 10000 4935 4000 true).
Defined.

(** ** Invariants of the reachable worlds *)

Module DemoSwapInvariant.
Import DemoSwap DemoSwapFacts.

Lemma _update_wf (from to : address) (value : Z) (l l' : ERC20.Ledger) (u : unit) :
  ERC20.wf l -> 0 <= value ->
  ERC20._update from to value l = Ok (u, l') -> ERC20.wf l'.
Proof.
  intros Hwf Hv H. apply _update_Ok in H. cbv zeta in H. destruct H as (H1 & H2 & ->).
  pose proof (wf_balanceOf l from Hwf) as [Hf0 Hf1].
  assert (Hwf1 : ERC20.wf (ERC20.set_balance from (ERC20.balanceOf l from - value) l)).
  { unfold ERC20.wf, ERC20.set_balance. cbn [ERC20.balances].
    apply map_Forall_insert_2; [|exact Hwf]. unfold is_uint256. lia. }
  pose proof (wf_balanceOf _ to Hwf1) as [Ht0 Ht1].
  set (l1 := ERC20.set_balance from (ERC20.balanceOf l from - value) l) in *.
  assert (Hc : is_uint256 (ERC20.balanceOf l1 to + value)) by (unfold is_uint256; lia).
  generalize dependent (ERC20.balanceOf l1 to + value). intros credited _ Hc.
  unfold ERC20.wf. unfold ERC20.set_balance at 1. cbn [ERC20.balances].
  apply map_Forall_insert_2; [exact Hc|exact Hwf1].
Qed.

Lemma _spendAllowance_wf (owner spender : address) (value : Z) (l l' : ERC20.Ledger) (u : unit) :
  ERC20.wf l -> ERC20._spendAllowance owner spender value l = Ok (u, l') -> ERC20.wf l'.
Proof.
  unfold ERC20._spendAllowance. intros Hwf H. inv_run; exact Hwf.
Qed.

Lemma transferFrom_wf (spender from to : address) (value : Z) (l l' : ERC20.Ledger) (u : unit) :
  ERC20.wf l -> 0 <= value ->
  ERC20.transferFrom spender from to value l = Ok (u, l') -> ERC20.wf l'.
Proof.
  unfold ERC20.transferFrom. intros Hwf Hv H. inv_run.
  eapply _update_wf; [|exact Hv|eassumption].
  eapply _spendAllowance_wf; eassumption.
Qed.

Lemma transfer_wf (sender to : address) (value : Z) (l l' : ERC20.Ledger) (u : unit) :
  ERC20.wf l -> 0 <= value ->
  ERC20.transfer sender to value l = Ok (u, l') -> ERC20.wf l'.
Proof. unfold ERC20.transfer. apply _update_wf. Qed.

Lemma swap_invariant (sender : address) (aToB : bool) (amountIn minAmountOut : Z)
      (w w' : World) (out : Z) :
  invariant w -> swap sender aToB amountIn minAmountOut w = Ok (out, w') -> invariant w'.
Proof.
  intros [(HA & HB & HF & He & HtA & HtB) Hfee].
  unfold swap, nonReentrant, whenNotPaused, sload, sstore, emit. intros H.
  demo_inv.
  all: unfold invariant, wf, reserveIn, reserveOut, is_uint256 in *; demo_cbn.
  all: apply andb_true_iff in C; destruct C as [Ca Cb].
  all: rewrite Z.ltb_lt in *; rewrite Z.leb_le in *.
  all: match goal with
       | H : _ /\ _ /\ _ /\ _ |- _ => destruct H as (F1 & F2 & F3 & F4 & F5)
       end.
  all: match goal with
       | H : ?f / FEE_DENOMINATOR <= ?a |- _ =>
           set (net := a - f / FEE_DENOMINATOR) in *; assert (Hnet : 0 <= net) by lia
       end.
  all: match goal with
       | H : ?q <= reserveB (store _), T : ERC20.transfer _ _ ?q _ = _ |- _ =>
           assert (Hq : 0 <= q) by (apply Z.div_pos; nia)
       | H : ?q <= reserveA (store _), T : ERC20.transfer _ _ ?q _ = _ |- _ =>
           assert (Hq : 0 <= q) by (apply Z.div_pos; nia)
       end.
  all: repeat match goal with
         | T : ERC20.transferFrom _ _ _ _ _ = Ok _ |- _ =>
             eapply transferFrom_wf in T; [| eassumption | first [assumption | lia]]
         | T : ERC20.transfer _ _ _ _ = Ok _ |- _ =>
             eapply transfer_wf in T; [| eassumption | first [assumption | lia]]
         end.
  all: repeat match goal with |- _ /\ _ => split end; try assumption; try lia.
Qed.

Ltac ledgers_wf :=
  repeat match goal with
    | T : ERC20.transferFrom _ _ _ _ _ = Ok _ |- _ =>
        eapply transferFrom_wf in T; [| eassumption | first [assumption | lia]]
    | T : ERC20.transfer _ _ _ _ = Ok _ |- _ =>
        eapply transfer_wf in T; [| eassumption | first [assumption | lia]]
    end.

Lemma addLiquidity_invariant (sender : address) (amountA amountB : Z) (w w' : World) (u : unit) :
  invariant w -> addLiquidity sender amountA amountB w = Ok (u, w') -> invariant w'.
Proof.
  intros [(HA & HB & HF & He & HtA & HtB) Hfee].
  unfold addLiquidity, nonReentrant, whenNotPaused, sload, sstore, emit. intros H.
  demo_inv.
  unfold invariant, wf, is_uint256 in *; demo_cbn.
  apply andb_true_iff in C; destruct C as [Ca Cb].
  rewrite Z.ltb_lt in *.
  ledgers_wf.
  repeat match goal with |- _ /\ _ => split end; try assumption; try lia.
Qed.

Lemma removeLiquidity_invariant (sender : address) (amountA amountB : Z) (w w' : World)
      (u : unit) :
  invariant w -> 0 <= amountA -> 0 <= amountB ->
  removeLiquidity sender amountA amountB w = Ok (u, w') -> invariant w'.
Proof.
  intros [(HA & HB & HF & He & HtA & HtB) Hfee] Ha Hb.
  unfold removeLiquidity, nonReentrant, whenNotPaused, sload, sstore, emit. intros H.
  demo_inv.
  unfold invariant, wf, is_uint256 in *; demo_cbn.
  apply andb_true_iff in C; destruct C as [Ca Cb].
  rewrite Z.leb_le in *.
  ledgers_wf.
  repeat match goal with |- _ /\ _ => split end; try assumption; try lia.
Qed.

Lemma call_invariant (sender : address) (c : Call) (w w' : World) (u : unit) :
  invariant w -> valid_call c -> call sender c w = Ok (u, w') -> invariant w'.
Proof.
  intros Hinv Hc H.
  destruct c as [aToB amountIn minOut|a b|a b|fee| |]; cbn [call valid_call] in *.
  - inv_run. eapply swap_invariant; eassumption.
  - eapply addLiquidity_invariant; eassumption.
  - destruct Hc as [[Ha _] [Hb _]].
    exact (removeLiquidity_invariant _ _ _ _ _ _ Hinv Ha Hb H).
  - rewrite updateFee_run in H.
    destruct (_owner (store w) =? sender); [|discriminate].
    destruct (Z.leb_spec fee 100); [|discriminate].
    injection H as _ <-. destruct Hinv as [(HA & HB & HF & He & HtA & HtB) Hfee].
    unfold invariant, wf. demo_cbn.
    repeat match goal with |- _ /\ _ => split end; assumption.
  - unfold pause, onlyOwner, whenNotPaused, sload, sstore, emit in H. demo_inv. exact Hinv.
  - unfold unpause, onlyOwner, whenPaused, sload, sstore, emit in H. demo_inv. exact Hinv.
Qed.

(** Every reachable world of the transparent pool is well formed and
    has a fee of at most 100 basis points. *)
Theorem reachable_invariant (w : World) : reachable w -> invariant w.
Proof.
  induction 1 as [self deployer tA tB HA HB | w sender c Hr IH Hc | w tA tB Hr IH HA HB].
  - unfold invariant, wf, constructor, is_uint256, UINT256_LIMIT. demo_cbn.
    repeat match goal with |- _ /\ _ => split end; try assumption; try reflexivity; lia.
  - unfold transact. destruct (call sender c w) as [[u w']|e] eqn:E; cbn [fst].
    + eapply call_invariant; eassumption.
    + exact IH.
  - destruct IH as [(H1 & H2 & H3 & H4 & _ & _) Hfee].
    unfold invariant, wf. demo_cbn.
    repeat match goal with |- _ /\ _ => split end; assumption.
Qed.

End DemoSwapInvariant.

Module PrivateSwapInvariant.
Import PrivateSwap PrivateSwapFacts.

Lemma mod_is_uint64 (x : Z) : TFHE.is_uint64 (x mod TFHE.UINT64_LIMIT).
Proof. apply Z.mod_pos_bound. unfold TFHE.UINT64_LIMIT. lia. Qed.

Lemma wf_asEuint64 (v : Z) : TFHE.wf (TFHE.asEuint64 v).
Proof. apply mod_is_uint64. Qed.

Lemma wf_add (a b : option Z) : TFHE.wf (TFHE.add a b).
Proof. apply mod_is_uint64. Qed.

Lemma wf_sub (a b : option Z) : TFHE.wf (TFHE.sub a b).
Proof. apply mod_is_uint64. Qed.

Lemma confidential__update_wf (from to : address) (amount : option Z) (l l' : gmap Z Z) (t : option Z) :
  ConfidentialToken.wf l ->
  ConfidentialToken._update from to amount l = Ok (t, l') -> ConfidentialToken.wf l'.
Proof.
  intros Hwf H. unfold ConfidentialToken._update in H. inv_run.
  unfold ConfidentialToken.wf.
  apply map_Forall_insert_2; [apply mod_is_uint64|].
  apply map_Forall_insert_2; [apply mod_is_uint64|exact Hwf].
Qed.

Ltac ledgers_wf :=
  unfold ConfidentialToken.confidentialTransferFrom, ConfidentialToken.confidentialTransfer in *;
  repeat match goal with
    | T : ConfidentialToken._update _ _ _ _ = Ok _ |- _ =>
        eapply confidential__update_wf in T; [| eassumption]
    end.

Ltac close_invariant :=
  unfold invariant, wf in *; priv_cbn;
  repeat match goal with |- _ /\ _ => split end;
  first [ assumption | apply wf_add | apply wf_sub | apply wf_asEuint64 | lia | idtac ].

Lemma confidential_call_invariant (sender : address) (c : Call) (w w' : World) (u : unit) :
  invariant w -> valid_call c -> call sender c w = Ok (u, w') -> invariant w'.
Proof.
  intros [(HA & HB & HF & He & HlA & HlB) Hfee] Hc H.
  destruct c as [amountIn expected minOut isAtoB|a b|a b|amountIn isAtoB|fee|token amount| |];
    cbn [call valid_call] in *.
  - unfold swap, whenNotPaused, nonReentrant, sload, sstore, emit in H.
    priv_inv; ledgers_wf; close_invariant.
  - unfold addLiquidity, whenNotPaused, nonReentrant, sload, sstore, emit in H.
    priv_inv; ledgers_wf; close_invariant.
  - unfold removeLiquidity, whenNotPaused, nonReentrant, sload, sstore, emit in H.
    priv_inv; ledgers_wf; close_invariant.
  - unfold getQuote, sload, sstore, emit in H.
    priv_inv; close_invariant.
  - rewrite setSwapFee_run in H.
    destruct (_owner (store w) =? sender); [|discriminate].
    destruct (Z.leb_spec fee MAX_FEE); [|discriminate].
    injection H as _ <-. close_invariant.
  - unfold emergencyWithdraw, onlyOwner, sload, emit in H.
    priv_inv; close_invariant.
  - unfold pause, onlyOwner, whenNotPaused, sload, sstore, emit in H.
    priv_inv; close_invariant.
  - unfold unpause, onlyOwner, whenPaused, sload, sstore, emit in H.
    priv_inv; close_invariant.
Qed.

(** Every reachable world of the confidential pool is well formed and
    has a fee of at most [MAX_FEE]. *)
Theorem confidential_reachable_invariant (w : World) : reachable w -> invariant w.
Proof.
  induction 1 as [self tA tB o lA lB HA HB | w sender c Hr IH Hc | w lA lB Hr IH HA HB].
  - unfold invariant, wf, constructor, is_uint256, UINT256_LIMIT, MAX_FEE. priv_cbn.
    repeat match goal with |- _ /\ _ => split end;
      try assumption; try reflexivity; try exact I; lia.
  - unfold transact. destruct (call sender c w) as [[u w']|e] eqn:E; cbn [fst].
    + eapply confidential_call_invariant; eassumption.
    + exact IH.
  - destruct IH as [(H1 & H2 & H3 & H4 & _ & _) Hfee].
    unfold invariant, wf. priv_cbn.
    repeat match goal with |- _ /\ _ => split end; assumption.
Qed.

End PrivateSwapInvariant.

(** ** The pool as it is deployed *)

Module PrivateSwapDeployed.
Import PrivateSwap PrivateSwapFacts Variants.

(** A call that completes leaves the FHEVM configuration as it was; it
    is either a call behind [onlyOwner], sent by the owner and leaving
    the reserves alone, or it found the configuration set. *)
Lemma call_Ok_config (sender : address) (c : Call) (w w' : World) (u : unit) :
  call sender c w = Ok (u, w') ->
  fhevmConfigSet (store w') = fhevmConfigSet (store w) /\
  (owner_call c = false -> fhevmConfigSet (store w) = true) /\
  (owner_call c = true ->
   _owner (store w) = sender /\
   _reserveA (store w') = _reserveA (store w) /\
   _reserveB (store w') = _reserveB (store w)).
Proof.
  intros H.
  destruct c as [amountIn expected minOut isAtoB|a b|a b|amountIn isAtoB|fee|token amount| |];
    cbn [call owner_call] in *.
  - unfold swap, whenNotPaused, nonReentrant, sload, sstore, emit in H. priv_inv.
    all: split; [reflexivity|].
    all: split; [intros _; assumption | discriminate].
  - unfold addLiquidity, whenNotPaused, nonReentrant, sload, sstore, emit in H. priv_inv.
    all: split; [reflexivity|].
    all: split; [intros _; assumption | discriminate].
  - unfold removeLiquidity, whenNotPaused, nonReentrant, sload, sstore, emit in H. priv_inv.
    all: split; [reflexivity|].
    all: split; [intros _; assumption | discriminate].
  - apply getQuote_Ok in H. cbv zeta in H. destruct H as (Hc & _ & _ & ->).
    split; [reflexivity|]. split; [intros _; exact Hc | discriminate].
  - rewrite setSwapFee_run in H.
    destruct (Z.eqb_spec (_owner (store w)) sender) as [Ho|]; [|discriminate].
    destruct (fee <=? MAX_FEE); [|discriminate].
    injection H as _ <-. priv_cbn.
    split; [reflexivity|]. split; [discriminate|]. intros _. auto.
  - unfold emergencyWithdraw, onlyOwner, sload, emit, bind, gets, modify, require, ret, revert
      in H.
    destruct (Z.eqb_spec (_owner (store w)) sender) as [Ho|]; [|discriminate].
    destruct (0 <? amount); [|discriminate].
    injection H as _ <-. priv_cbn.
    split; [reflexivity|]. split; [discriminate|]. intros _. auto.
  - unfold pause, onlyOwner, whenNotPaused, sload, sstore, emit, bind, gets, modify, ret, revert
      in H.
    destruct (Z.eqb_spec (_owner (store w)) sender) as [Ho|]; [|discriminate].
    destruct (_paused (store w)); [discriminate|].
    injection H as _ <-. priv_cbn.
    split; [reflexivity|]. split; [discriminate|]. intros _. auto.
  - unfold unpause, onlyOwner, whenPaused, sload, sstore, emit, bind, gets, modify, ret, revert
      in H.
    destruct (Z.eqb_spec (_owner (store w)) sender) as [Ho|]; [|discriminate].
    destruct (_paused (store w)); [|discriminate].
    injection H as _ <-. priv_cbn.
    split; [reflexivity|]. split; [discriminate|]. intros _. auto.
Qed.

(** No transaction sets the FHEVM configuration, and without it no
    transaction initialises a reserve. *)
Lemma reachable_unset (w : World) :
  reachable w ->
  fhevmConfigSet (store w) = false /\
  _reserveA (store w) = None /\ _reserveB (store w) = None.
Proof.
  induction 1 as [self tA tB o lA lB HA HB | w sender c Hr IH Hc | w lA lB Hr IH HA HB].
  - unfold constructor. priv_cbn. auto.
  - unfold transact. destruct (call sender c w) as [[u w']|e] eqn:E; cbn [fst]; [|exact IH].
    destruct IH as (Hc0 & HrA & HrB).
    destruct (call_Ok_config _ _ _ _ _ E) as (Hk & Hn & Ho).
    destruct (owner_call c).
    + destruct (Ho eq_refl) as (_ & EA & EB). rewrite Hk, EA, EB. auto.
    + rewrite (Hn eq_refl) in Hc0. discriminate.
  - priv_cbn. exact IH.
Qed.

Lemma reachable_released (w : World) : reachable w -> _entered (store w) = false.
Proof.
  intros Hr.
  destruct (PrivateSwapInvariant.confidential_reachable_invariant w Hr)
    as [(_ & _ & _ & He & _) _].
  exact He.
Qed.

(** What the calls do without the configuration. *)
Lemma addLiquidity_unset (sender : address) (amountA amountB : Z) (w : World) :
  fhevmConfigSet (store w) = false -> _entered (store w) = false ->
  addLiquidity sender amountA amountB w
    = Revert (if _paused (store w) then EnforcedPause else CoprocessorUnset).
Proof.
  intros Hc He. unfold addLiquidity.
  destruct (_paused (store w)) eqn:Hp.
  - apply confidential_whenNotPaused_paused. exact Hp.
  - rewrite confidential_whenNotPaused_run by exact Hp.
    rewrite confidential_nonReentrant_run by exact He.
    unfold bind at 1. rewrite coprocessor_unset by (priv_cbn; exact Hc). reflexivity.
Qed.

Lemma swap_uninitialised (sender : address) (amountIn expectedAmountOut minAmountOut : Z)
      (isAtoB : bool) (w : World) :
  _reserveA (store w) = None -> _entered (store w) = false ->
  swap sender amountIn expectedAmountOut minAmountOut isAtoB w
    = Revert (if _paused (store w) then EnforcedPause
              else RequireFailed "Reserves not initialized").
Proof.
  intros HA He. unfold swap.
  destruct (_paused (store w)) eqn:Hp.
  - apply confidential_whenNotPaused_paused. exact Hp.
  - rewrite confidential_whenNotPaused_run by exact Hp.
    rewrite confidential_nonReentrant_run by exact He.
    unfold sload, bind, gets, require, ret, revert. priv_cbn. rewrite HA. reflexivity.
Qed.

Lemma removeLiquidity_uninitialised (sender : address) (amountA amountB : Z) (w : World) :
  _reserveA (store w) = None -> _entered (store w) = false ->
  removeLiquidity sender amountA amountB w
    = Revert (if _paused (store w) then EnforcedPause
              else RequireFailed "Reserves not initialized").
Proof.
  intros HA He. unfold removeLiquidity.
  destruct (_paused (store w)) eqn:Hp.
  - apply confidential_whenNotPaused_paused. exact Hp.
  - rewrite confidential_whenNotPaused_run by exact Hp.
    rewrite confidential_nonReentrant_run by exact He.
    unfold sload, bind, gets, require, ret, revert. priv_cbn. rewrite HA. reflexivity.
Qed.

Lemma getQuote_uninitialised (sender : address) (amountIn : Z) (isAtoB : bool) (w : World) :
  _reserveA (store w) = None ->
  getQuote sender amountIn isAtoB w = Revert (RequireFailed "Reserves not initialized").
Proof.
  intros HA. unfold getQuote, sload, bind, gets, require, ret, revert.
  rewrite HA. reflexivity.
Qed.



End PrivateSwapDeployed.

(** ** More of the transparent pool *)

Module DemoSwapMore.
Import DemoSwap DemoSwapFacts Holdings.

(** *** Exchange rate *)

Lemma getExchangeRate_run (aToB : bool) (w : World) :
  getExchangeRate aToB w =
    if (reserveA (store w) =? 0) || (reserveB (store w) =? 0) then Ok (0, w)
    else if reserveOut aToB w * 10 ^ 18 <? UINT256_LIMIT
         then Ok (reserveOut aToB w * 10 ^ 18 / reserveIn aToB w, w)
         else Revert (Panic PANIC_ARITHMETIC).
Proof.
  unfold getExchangeRate, sload, bind, gets, ret, checked_mul, checked_div, revert,
    reserveIn, reserveOut.
  destruct (Z.eqb_spec (reserveA (store w)) 0) as [Ha|Ha]; [reflexivity|].
  destruct (Z.eqb_spec (reserveB (store w)) 0) as [Hb|Hb]; [reflexivity|].
  cbn [orb]. destruct aToB.
  - destruct (reserveB (store w) * 10 ^ 18 <? UINT256_LIMIT); [|reflexivity].
    destruct (Z.eqb_spec (reserveA (store w)) 0); [contradiction|reflexivity].
  - destruct (reserveA (store w) * 10 ^ 18 <? UINT256_LIMIT); [|reflexivity].
    destruct (Z.eqb_spec (reserveB (store w)) 0); [contradiction|reflexivity].
Qed.

(** X1: [getExchangeRate] never divides by zero: with an empty side it
    returns 0, and the only way it reverts is the arithmetic panic of
    [reserveOut * 1e18] not fitting in 256 bits. *)
Theorem getExchangeRate_errors :
  forall (w : World) (aToB : bool),
    (reserveA (store w) = 0 \/ reserveB (store w) = 0 ->
     getExchangeRate aToB w = Ok (0, w)) /\
    (forall e, getExchangeRate aToB w = Revert e ->
               e = Panic PANIC_ARITHMETIC /\
               UINT256_LIMIT <= reserveOut aToB w * 10 ^ 18 /\
               reserveA (store w) <> 0 /\ reserveB (store w) <> 0) /\
    (reserveA (store w) <> 0 -> reserveB (store w) <> 0 ->
     reserveOut aToB w * 10 ^ 18 < UINT256_LIMIT ->
     getExchangeRate aToB w = Ok (reserveOut aToB w * 10 ^ 18 / reserveIn aToB w, w)).
Proof.
  intros w aToB. rewrite getExchangeRate_run.
  destruct (Z.eqb_spec (reserveA (store w)) 0) as [Ha|Ha];
    [|destruct (Z.eqb_spec (reserveB (store w)) 0) as [Hb|Hb]]; cbn [orb].
  - split; [reflexivity|]. split; [discriminate|]. contradiction.
  - split; [reflexivity|]. split; [discriminate|]. contradiction.
  - destruct (Z.ltb_spec (reserveOut aToB w * 10 ^ 18) UINT256_LIMIT) as [Hl|Hl].
    + split; [intros [H|H]; contradiction|]. split; [discriminate|]. reflexivity.
    + split; [intros [H|H]; contradiction|]. split.
      * intros e [= <-]. auto.
      * intros _ _ H. lia.
Qed.

Lemma getExchangeRate_errors_witness :
  getExchangeRate true (demo_world 0 5 30) = Ok (0, demo_world 0 5 30) /\
  getExchangeRate true scenarioA = Ok (500000 * 10 ^ 18 / 1000000, scenarioA).
Proof.
  split.
  - apply (proj1 (getExchangeRate_errors (demo_world 0 5 30) true)). left. reflexivity.
  - apply (proj2 (proj2 (getExchangeRate_errors scenarioA true))); vm_compute; congruence.
Defined.

(** X2: the two directions of [getExchangeRate] are floors of reciprocal
    rates, so when both return, their product is at most [1e36]. *)
Theorem getExchangeRate_product :
  forall (w w1 w2 : World) (r1 r2 : Z),
    0 <= reserveA (store w) -> 0 <= reserveB (store w) ->
    getExchangeRate true w = Ok (r1, w1) ->
    getExchangeRate false w = Ok (r2, w2) ->
    0 <= r1 /\ 0 <= r2 /\ r1 * r2 <= 10 ^ 36.
Proof.
  intros w w1 w2 r1 r2 HA HB H1 H2.
  rewrite getExchangeRate_run in H1, H2. unfold reserveIn, reserveOut in *.
  destruct (Z.eqb_spec (reserveA (store w)) 0) as [Ha|Ha];
    [|destruct (Z.eqb_spec (reserveB (store w)) 0) as [Hb|Hb]]; cbn [orb] in *.
  - injection H1 as <- _. injection H2 as <- _. lia.
  - injection H1 as <- _. injection H2 as <- _. lia.
  - destruct (_ <? _) in H1; [|discriminate]. destruct (_ <? _) in H2; [|discriminate].
    injection H1 as <- _. injection H2 as <- _.
    set (A := reserveA (store w)) in *. set (B := reserveB (store w)) in *.
    assert (HA' : 0 < A) by lia. assert (HB' : 0 < B) by lia.
    assert (Hq1 : 0 <= B * 10 ^ 18 / A) by (apply Z.div_pos; lia).
    assert (Hq2 : 0 <= A * 10 ^ 18 / B) by (apply Z.div_pos; lia).
    assert (Hm1 : A * (B * 10 ^ 18 / A) <= B * 10 ^ 18) by (apply Z.mul_div_le; lia).
    assert (Hm2 : B * (A * 10 ^ 18 / B) <= A * 10 ^ 18) by (apply Z.mul_div_le; lia).
    split; [exact Hq1|]. split; [exact Hq2|].
    generalize dependent (B * 10 ^ 18 / A). generalize dependent (A * 10 ^ 18 / B).
    intros q2 Hq2 Hm2 q1 Hq1 Hm1.
    assert (H : (A * B) * (q1 * q2) <= (A * B) * 10 ^ 36).
    { replace ((A * B) * (q1 * q2)) with ((A * q1) * (B * q2)) by ring.
      replace ((A * B) * 10 ^ 36) with ((B * 10 ^ 18) * (A * 10 ^ 18)) by ring.
      apply Z.mul_le_mono_nonneg; lia. }
    apply Z.mul_le_mono_pos_l in H; [exact H|nia].
Qed.

Lemma getExchangeRate_product_witness :
  500000000000000000 * 2000000000000000000 <= 10 ^ 36.
Proof.
  refine (proj2 (proj2 (getExchangeRate_product scenarioA scenarioA scenarioA
                          500000000000000000 2000000000000000000 _ _ _ _)));
    vm_compute; congruence.
Defined.


(** *** Quotes and swaps *)

Lemma quote_run (aToB : bool) (amountIn : Z) (w : World) :
  quote aToB amountIn w =
    if (amountIn =? 0) || (reserveA (store w) =? 0) || (reserveB (store w) =? 0)
    then Ok (0, w)
    else match _calculateSwap aToB amountIn w with
         | Ok ((amountOut, _), w') => Ok (amountOut, w')
         | Revert e => Revert e
         end.
Proof.
  unfold quote, sload, bind, gets, ret.
  destruct ((amountIn =? 0) || (reserveA (store w) =? 0) || (reserveB (store w) =? 0));
    [reflexivity|].
  destruct (_calculateSwap aToB amountIn w) as [[[o n] w']|e]; reflexivity.
Qed.

(** What a successful swap did, with the formula's run on the world
    before it and the two token transfers. *)
Lemma swap_Ok_ledgers (sender : address) (aToB : bool) (amountIn minAmountOut : Z)
      (w w' : World) (out : Z) :
  swap sender aToB amountIn minAmountOut w = Ok (out, w') ->
  let net := amountIn - feeOf amountIn w in
  0 < amountIn /\ positive w /\ feeOf amountIn w <= amountIn /\
  _calculateSwap aToB amountIn w = Ok ((out, reserveIn aToB w + net), w) /\
  this w' = this w /\
  reserveIn aToB w' = reserveIn aToB w + net /\
  reserveOut aToB w' = reserveOut aToB w - out /\
  ERC20.transferFrom (this w) sender (this w) amountIn (ledgerIn aToB w)
    = Ok (tt, ledgerIn aToB w') /\
  ERC20.transfer (this w) sender out (ledgerOut aToB w) = Ok (tt, ledgerOut aToB w').
Proof.
  unfold swap, nonReentrant, whenNotPaused, sload, sstore, emit. intros H.
  all: demo_inv.
  all: repeat match goal with x : unit |- _ => destruct x end.
  all: unfold positive, reserveIn, reserveOut, ledgerIn, ledgerOut, feeOf in *; demo_cbn.
  all: apply andb_true_iff in C; destruct C as [Ca Cb].
  all: rewrite Z.ltb_lt in *; rewrite Z.leb_le in *.
  all: match goal with
       | H : _ < UINT256_LIMIT /\ _ |- _ => destruct H as (B1 & B2 & B3 & B4 & B5)
       end.
  all: repeat match goal with |- _ /\ _ => split end;
         try reflexivity; try assumption; try lia.
  - apply (_calculateSwap_run true amountIn w); assumption.
  - apply (_calculateSwap_run false amountIn w); assumption.
Qed.

(** X3: a successful [swap] pays out exactly what [quote] answers on
    the world before it. *)
Theorem swap_pays_the_quote :
  forall (w w' : World) (sender : address) (aToB : bool) (amountIn minAmountOut out : Z),
    swap sender aToB amountIn minAmountOut w = Ok (out, w') ->
    quote aToB amountIn w = Ok (out, w).
Proof.
  intros w w' sender aToB amountIn minAmountOut out H.
  apply swap_Ok_ledgers in H. cbv zeta in H.
  destruct H as (Ha & [HA HB] & _ & Hc & _).
  rewrite quote_run, Hc.
  replace ((amountIn =? 0) || (reserveA (store w) =? 0) || (reserveB (store w) =? 0))
    with false; [reflexivity|].
  symmetry. apply orb_false_intro; [apply orb_false_intro|]; apply Z.eqb_neq; lia.
Qed.

Lemma swap_pays_the_quote_witness :
  quote true 10000 scenarioA = Ok (4935, scenarioA).
Proof.
  refine (swap_pays_the_quote scenarioA
            (transact (swap 7 true 10000 4900) scenarioA).1 7 true 10000 4900 4935 _).
  vm_compute. reflexivity.
Defined.

Lemma net_monotone (x y f : Z) :
  x <= y -> 0 <= f <= 10000 ->
  x - x * f / 10000 <= y - y * f / 10000.
Proof.
  intros Hxy Hf.
  assert (H : y * f / 10000 <= x * f / 10000 + (y - x)).
  { rewrite <- Z.div_add by lia. apply Z.div_le_mono; [lia|]. nia. }
  lia.
Qed.

(** What [quote] answers when it returns. *)
Lemma quote_Ok (aToB : bool) (amountIn : Z) (w w' : World) (out : Z) :
  quote aToB amountIn w = Ok (out, w') ->
  let net := amountIn - feeOf amountIn w in
  w' = w /\
  ((amountIn = 0 \/ reserveA (store w) = 0 \/ reserveB (store w) = 0) /\ out = 0 \/
   (amountIn <> 0 /\ reserveA (store w) <> 0 /\ reserveB (store w) <> 0 /\
    feeOf amountIn w <= amountIn /\
    out = net * reserveOut aToB w / (reserveIn aToB w + net))).
Proof.
  rewrite quote_run. intros H net.
  destruct (Z.eqb_spec amountIn 0) as [Ha|Ha]; cbn [orb] in H.
  { injection H as <- <-. split; [reflexivity|]. left. split; [tauto|reflexivity]. }
  destruct (Z.eqb_spec (reserveA (store w)) 0) as [HA|HA]; cbn [orb] in H.
  { injection H as <- <-. split; [reflexivity|]. left. split; [tauto|reflexivity]. }
  destruct (Z.eqb_spec (reserveB (store w)) 0) as [HB|HB]; cbn [orb] in H.
  { injection H as <- <-. split; [reflexivity|]. left. split; [tauto|reflexivity]. }
  destruct (_calculateSwap aToB amountIn w) as [[[o n] w1]|e] eqn:E; [|discriminate].
  injection H as <- <-.
  apply _calculateSwap_Ok in E. cbv zeta in E.
  destruct E as (-> & F & _ & Hfee & _). injection F as -> _.
  split; [reflexivity|]. right. unfold feeOf. auto 6.
Qed.

(** X4: on a pool with a fee of at most 100%, [quote] never answers
    less for a larger input, and never more than the reserve it pays
    from. *)
Theorem quote_monotone :
  forall (w w1 w2 : World) (aToB : bool) (x y out1 out2 : Z),
    0 <= reserveA (store w) -> 0 <= reserveB (store w) ->
    0 <= feeNumerator (store w) <= 10000 ->
    0 <= x <= y ->
    quote aToB x w = Ok (out1, w1) ->
    quote aToB y w = Ok (out2, w2) ->
    0 <= out1 <= out2 /\ out2 <= reserveOut aToB w.
Proof.
  intros w w1 w2 aToB x y out1 out2 HA HB Hf Hxy H1 H2.
  apply quote_Ok in H1, H2. cbv zeta in H1, H2. unfold feeOf, FEE_DENOMINATOR in *.
  destruct H1 as [_ H1], H2 as [_ H2].
  assert (Hin : 0 <= reserveIn aToB w) by (unfold reserveIn; destruct aToB; assumption).
  assert (Hout : 0 <= reserveOut aToB w) by (unfold reserveOut; destruct aToB; assumption).
  assert (Hq : forall z, 0 <= z -> 0 < reserveIn aToB w ->
            0 <= (z - z * feeNumerator (store w) / 10000) * reserveOut aToB w
                 / (reserveIn aToB w + (z - z * feeNumerator (store w) / 10000))
              <= reserveOut aToB w).
  { intros z Hz Hr.
    assert (Hn : 0 <= z - z * feeNumerator (store w) / 10000).
    { pose proof (net_monotone 0 z (feeNumerator (store w)) Hz Hf) as Hm.
      rewrite Z.mul_0_l, Z.div_0_l in Hm by lia. lia. }
    split; [apply Z.div_pos; nia|apply Z.div_le_upper_bound; nia]. }
  assert (Hpos : reserveA (store w) <> 0 -> reserveB (store w) <> 0 -> 0 < reserveIn aToB w).
  { unfold reserveIn. destruct aToB; lia. }
  destruct H2 as [[Hz2 ->]|(Hy & HA2 & HB2 & Hfy & ->)].
  - destruct H1 as [[Hz1 ->]|(Hx & HA1 & HB1 & Hfx & ->)]; [lia|].
    exfalso. lia.
  - specialize (Hpos HA2 HB2).
    destruct H1 as [[Hz1 ->]|(Hx & HA1 & HB1 & Hfx & ->)].
    + pose proof (Hq y ltac:(lia) Hpos). lia.
    + pose proof (Hq y ltac:(lia) Hpos) as Hqy. pose proof (Hq x ltac:(lia) Hpos) as Hqx.
      split; [split; [lia|]|lia].
      apply output_monotone; [|assumption|assumption].
      split; [|apply net_monotone; lia].
      pose proof (net_monotone 0 x (feeNumerator (store w)) ltac:(lia) Hf) as Hm.
      rewrite Z.mul_0_l, Z.div_0_l in Hm by lia. lia.
Qed.

Lemma quote_monotone_witness :
  0 <= 4935 <= 9775 /\ 9775 <= reserveOut true scenarioA.
Proof.
  refine (quote_monotone scenarioA scenarioA scenarioA true 10000 20000 4935 9775
            _ _ _ _ _ _); vm_compute; first [reflexivity | split; congruence | congruence].
Defined.

(** X5: a swap never beats the pool's spot price:
    [amountOut * reserveIn <= amountIn * reserveOut]. *)
Theorem swap_within_spot_price :
  forall (w w' : World) (sender : address) (aToB : bool) (amountIn minAmountOut out : Z),
    0 <= feeNumerator (store w) ->
    swap sender aToB amountIn minAmountOut w = Ok (out, w') ->
    0 <= out /\ out * reserveIn aToB w <= amountIn * reserveOut aToB w.
Proof.
  intros w w' sender aToB amountIn minAmountOut out Hf H.
  apply swap_Ok_ledgers in H. cbv zeta in H.
  destruct H as (Ha & [HA HB] & Hfee & Hc & _).
  apply _calculateSwap_Ok in Hc. cbv zeta in Hc. destruct Hc as (_ & F & _).
  injection F as ->.
  assert (Hin : 0 < reserveIn aToB w) by (unfold reserveIn; destruct aToB; assumption).
  assert (Hout : 0 < reserveOut aToB w) by (unfold reserveOut; destruct aToB; assumption).
  unfold feeOf in Hfee.
  assert (Hfee0 : 0 <= amountIn * feeNumerator (store w) / FEE_DENOMINATOR).
  { apply Z.div_pos; [nia|unfold FEE_DENOMINATOR; lia]. }
  set (net := amountIn - amountIn * feeNumerator (store w) / FEE_DENOMINATOR) in *.
  assert (Hnet : 0 <= net <= amountIn) by (subst net; lia).
  clearbody net.
  assert (Hq0 : 0 <= net * reserveOut aToB w / (reserveIn aToB w + net))
    by (apply Z.div_pos; nia).
  assert (Hq1 : (reserveIn aToB w + net) * (net * reserveOut aToB w / (reserveIn aToB w + net))
                <= net * reserveOut aToB w) by (apply Z.mul_div_le; lia).
  split; [exact Hq0|].
  generalize dependent (net * reserveOut aToB w / (reserveIn aToB w + net)).
  intros q Hq0 Hq1. nia.
Qed.

Lemma swap_within_spot_price_witness :
  0 <= 4935 /\ 4935 * reserveIn true scenarioA <= 10000 * reserveOut true scenarioA.
Proof.
  refine (swap_within_spot_price scenarioA
            (transact (swap 7 true 10000 4900) scenarioA).1 7 true 10000 4900 4935 _ _).
  - vm_compute. congruence.
  - vm_compute. reflexivity.
Defined.

(** *** Token movements *)

Lemma transfer_balances (from to : address) (value : Z) (l l' : ERC20.Ledger) (u : unit) :
  ERC20.transfer from to value l = Ok (u, l') -> from <> to ->
  value <= ERC20.balanceOf l from /\
  ERC20.balanceOf l' from = ERC20.balanceOf l from - value /\
  ERC20.balanceOf l' to = ERC20.balanceOf l to + value /\
  (forall a, a <> from -> a <> to -> ERC20.balanceOf l' a = ERC20.balanceOf l a).
Proof.
  unfold ERC20.transfer. intros H Hne.
  apply _update_Ok in H. cbv zeta in H. destruct H as (H1 & _ & ->).
  split; [exact H1|].
  repeat rewrite balanceOf_set_balance.
  split; [|split].
  - destruct (decide (to = from)); [congruence|].
    destruct (decide (from = from)); [reflexivity|congruence].
  - destruct (decide (to = to)); [|congruence].
    destruct (decide (from = to)); [congruence|reflexivity].
  - intros a Ha1 Ha2. repeat rewrite balanceOf_set_balance.
    destruct (decide (to = a)); [congruence|].
    destruct (decide (from = a)); [congruence|reflexivity].
Qed.

Lemma transferFrom_balances (spender from to : address) (value : Z)
      (l l' : ERC20.Ledger) (u : unit) :
  ERC20.transferFrom spender from to value l = Ok (u, l') -> from <> to ->
  value <= ERC20.balanceOf l from /\
  ERC20.balanceOf l' from = ERC20.balanceOf l from - value /\
  ERC20.balanceOf l' to = ERC20.balanceOf l to + value /\
  (forall a, a <> from -> a <> to -> ERC20.balanceOf l' a = ERC20.balanceOf l a).
Proof.
  unfold ERC20.transferFrom. intros H Hne. inv_run.
  pose proof (_spendAllowance_balances _ _ _ _ _ _ E) as Hb.
  destruct (transfer_balances from to value w l' u H Hne) as (H1 & H2 & H3 & H4).
  rewrite !Hb in *.
  split; [exact H1|]. split; [exact H2|]. split; [exact H3|].
  intros a Ha1 Ha2. rewrite <- Hb. apply H4; assumption.
Qed.

(** What a successful swap did to the pool's own balances and to the
    reserves. *)
Lemma swap_pool_holdings (sender : address) (aToB : bool) (amountIn minAmountOut : Z)
      (w w' : World) (out : Z) :
  sender <> this w ->
  swap sender aToB amountIn minAmountOut w = Ok (out, w') ->
  this w' = this w /\ 0 < amountIn /\
  ERC20.balanceOf (ledgerIn aToB w') (this w)
    = ERC20.balanceOf (ledgerIn aToB w) (this w) + amountIn /\
  ERC20.balanceOf (ledgerOut aToB w') (this w)
    = ERC20.balanceOf (ledgerOut aToB w) (this w) - out /\
  reserveIn aToB w' = reserveIn aToB w + (amountIn - feeOf amountIn w) /\
  reserveOut aToB w' = reserveOut aToB w - out.
Proof.
  intros Hne H.
  apply swap_Ok_ledgers in H. cbv zeta in H.
  destruct H as (Ha & _ & _ & _ & Ht & Rin & Rout & Tin & Tout).
  apply transferFrom_balances in Tin; [|exact Hne].
  apply transfer_balances in Tout; [|congruence].
  destruct Tin as (_ & _ & I2 & _), Tout as (_ & O1 & _).
  split; [exact Ht|]. split; [exact Ha|]. split; [exact I2|]. split; [exact O1|].
  split; assumption.
Qed.

(** X6: a successful swap moves exactly [amountIn] of the input token
    from the caller to the pool and exactly [amountOut] of the output
    token from the pool to the caller; no other account's balance
    changes. *)
Theorem swap_moves_tokens :
  forall (w w' : World) (sender : address) (aToB : bool) (amountIn minAmountOut out : Z),
    sender <> this w ->
    swap sender aToB amountIn minAmountOut w = Ok (out, w') ->
    ERC20.balanceOf (ledgerIn aToB w') sender
      = ERC20.balanceOf (ledgerIn aToB w) sender - amountIn /\
    ERC20.balanceOf (ledgerIn aToB w') (this w)
      = ERC20.balanceOf (ledgerIn aToB w) (this w) + amountIn /\
    ERC20.balanceOf (ledgerOut aToB w') sender
      = ERC20.balanceOf (ledgerOut aToB w) sender + out /\
    ERC20.balanceOf (ledgerOut aToB w') (this w)
      = ERC20.balanceOf (ledgerOut aToB w) (this w) - out /\
    (forall a, a <> sender -> a <> this w ->
       ERC20.balanceOf (tokenA w') a = ERC20.balanceOf (tokenA w) a /\
       ERC20.balanceOf (tokenB w') a = ERC20.balanceOf (tokenB w) a).
Proof.
  intros w w' sender aToB amountIn minAmountOut out Hne H.
  apply swap_Ok_ledgers in H. cbv zeta in H.
  destruct H as (_ & _ & _ & _ & _ & _ & _ & Tin & Tout).
  apply transferFrom_balances in Tin; [|exact Hne].
  apply transfer_balances in Tout; [|congruence].
  destruct Tin as (_ & I1 & I2 & I3), Tout as (_ & O1 & O2 & O3).
  split; [exact I1|]. split; [exact I2|]. split; [exact O2|]. split; [exact O1|].
  intros a Ha1 Ha2. unfold ledgerIn, ledgerOut in *.
  destruct aToB; split; first [apply I3 | apply O3]; congruence.
Qed.

Lemma swap_moves_tokens_witness :
  ERC20.balanceOf (tokenA (transact (swap 7 true 10000 4900) scenarioA).1) 7 = 20000 - 10000 /\
  ERC20.balanceOf (tokenB (transact (swap 7 true 10000 4900) scenarioA).1) 7 = 20000 + 4935.
Proof.
  pose proof (swap_moves_tokens scenarioA (transact (swap 7 true 10000 4900) scenarioA).1
                7 true 10000 4900 4935) as H.
  destruct H as (H1 & _ & H3 & _).
  - vm_compute. congruence.
  - vm_compute. reflexivity.
  - split; [exact H1|exact H3].
Defined.

(** X7: the fee of a swap stays in the pool but outside the reserves:
    what the pool holds of the input token beyond [reserveIn] grows by
    exactly the fee, and on the output side holdings and reserve fall
    together. *)
Theorem swap_fee_outside_reserves :
  forall (w w' : World) (sender : address) (aToB : bool) (amountIn minAmountOut out : Z),
    sender <> this w ->
    swap sender aToB amountIn minAmountOut w = Ok (out, w') ->
    surplusIn aToB w' = surplusIn aToB w + feeOf amountIn w /\
    surplusOut aToB w' = surplusOut aToB w.
Proof.
  intros w w' sender aToB amountIn minAmountOut out Hne H.
  destruct (swap_pool_holdings _ _ _ _ _ _ _ Hne H) as (Ht & _ & I & O & Rin & Rout).
  unfold surplusIn, surplusOut, surplusA, surplusB, holdingA, holdingB,
    ledgerIn, ledgerOut, reserveIn, reserveOut in *.
  rewrite Ht. destruct aToB; lia.
Qed.

Lemma swap_fee_outside_reserves_witness :
  surplusIn true (transact (swap 7 true 10000 4900) scenarioA).1 = 0 + 30.
Proof.
  refine (proj1 (swap_fee_outside_reserves scenarioA
            (transact (swap 7 true 10000 4900) scenarioA).1 7 true 10000 4900 4935 _ _)).
  - vm_compute. congruence.
  - vm_compute. reflexivity.
Defined.

(** What a successful removal did, with the two token transfers. *)
Lemma removeLiquidity_Ok_ledgers (sender : address) (amountA amountB : Z) (w w' : World)
      (u : unit) :
  removeLiquidity sender amountA amountB w = Ok (u, w') ->
  this w' = this w /\
  reserveA (store w') = reserveA (store w) - amountA /\
  reserveB (store w') = reserveB (store w) - amountB /\
  ERC20.transfer (this w) sender amountA (tokenA w) = Ok (tt, tokenA w') /\
  ERC20.transfer (this w) sender amountB (tokenB w) = Ok (tt, tokenB w').
Proof.
  unfold removeLiquidity, nonReentrant, whenNotPaused, sload, sstore, emit. intros H.
  demo_inv.
  repeat match goal with x : unit |- _ => destruct x end.
  repeat match goal with |- _ /\ _ => split end; try reflexivity; assumption.
Qed.

(** X8: no call takes tokens out of the pool beyond what it takes off
    the reserves: what the pool holds beyond each reserve never
    shrinks, so a pool whose reserves are backed by its holdings stays
    backed. *)
Theorem call_keeps_reserves_backed :
  forall (w w' : World) (sender : address) (c : Call) (u : unit),
    sender <> this w ->
    0 <= feeNumerator (store w) ->
    call sender c w = Ok (u, w') ->
    this w' = this w /\ surplusA w <= surplusA w' /\ surplusB w <= surplusB w'.
Proof.
  intros w w' sender c u Hne Hf H.
  destruct c as [aToB amountIn minOut|a b|a b|fee| |]; cbn [call] in H.
  - inv_run.
    destruct (swap_pool_holdings _ _ _ _ _ _ _ Hne E) as (Ht & Ha & I & O & Rin & Rout).
    assert (Hfee : 0 <= feeOf amountIn w).
    { unfold feeOf, FEE_DENOMINATOR. apply Z.div_pos; [nia|lia]. }
    unfold surplusA, surplusB, holdingA, holdingB, ledgerIn, ledgerOut,
      reserveIn, reserveOut in *.
    rewrite Ht. split; [reflexivity|]. destruct aToB; lia.
  - apply addLiquidity_Ok in H.
    destruct H as (_ & _ & _ & _ & (lA & TA & EA) & (lB & TB & EB) & Ht & Hs & _).
    apply transferFrom_balances in TA; [|exact Hne].
    apply transferFrom_balances in TB; [|exact Hne].
    destruct TA as (_ & _ & TA & _), TB as (_ & _ & TB & _).
    unfold surplusA, surplusB, holdingA, holdingB.
    rewrite Ht, Hs, EA, EB, TA, TB. destruct (store w); demo_cbn.
    split; [reflexivity|]. lia.
  - apply removeLiquidity_Ok_ledgers in H. destruct H as (Ht & RA & RB & TA & TB).
    apply transfer_balances in TA; [|congruence].
    apply transfer_balances in TB; [|congruence].
    destruct TA as (_ & TA & _), TB as (_ & TB & _).
    unfold surplusA, surplusB, holdingA, holdingB.
    rewrite Ht, RA, RB, TA, TB. split; [reflexivity|]. lia.
  - rewrite updateFee_run in H.
    destruct (_owner (store w) =? sender); [|discriminate].
    destruct (fee <=? 100); [|discriminate].
    injection H as _ <-. unfold surplusA, surplusB, holdingA, holdingB. demo_cbn.
    split; [reflexivity|]. lia.
  - unfold pause, onlyOwner, whenNotPaused, sload, sstore, emit in H. demo_inv.
    unfold surplusA, surplusB, holdingA, holdingB. demo_cbn.
    split; [reflexivity|]. lia.
  - unfold unpause, onlyOwner, whenPaused, sload, sstore, emit in H. demo_inv.
    unfold surplusA, surplusB, holdingA, holdingB. demo_cbn.
    split; [reflexivity|]. lia.
Qed.

Lemma call_keeps_reserves_backed_witness :
  surplusA scenarioA <= surplusA (transact (call 7 (CallSwap true 10000 4900)) scenarioA).1.
Proof.
  refine (proj1 (proj2 (call_keeps_reserves_backed scenarioA
            (transact (call 7 (CallSwap true 10000 4900)) scenarioA).1
            7 (CallSwap true 10000 4900) tt _ _ _))).
  - vm_compute. congruence.
  - vm_compute. congruence.
  - vm_compute. reflexivity.
Defined.

(** X9: the pool keeps no record of who provided liquidity: on a
    running pool whose reserves are backed by its holdings, any account
    can take out any amounts up to the reserves, and receives them. *)
Theorem removeLiquidity_by_anyone :
  forall (w : World) (sender : address) (amountA amountB : Z),
    _paused (store w) = false -> _entered (store w) = false ->
    0 <= surplusA w -> 0 <= surplusB w ->
    sender <> this w ->
    0 <= amountA <= reserveA (store w) ->
    0 <= amountB <= reserveB (store w) ->
    ERC20.balanceOf (tokenA w) sender + amountA < UINT256_LIMIT ->
    ERC20.balanceOf (tokenB w) sender + amountB < UINT256_LIMIT ->
    exists w',
      removeLiquidity sender amountA amountB w = Ok (tt, w') /\
      reserveA (store w') = reserveA (store w) - amountA /\
      reserveB (store w') = reserveB (store w) - amountB /\
      ERC20.balanceOf (tokenA w') sender = ERC20.balanceOf (tokenA w) sender + amountA /\
      ERC20.balanceOf (tokenB w') sender = ERC20.balanceOf (tokenB w) sender + amountB.
Proof.
  intros w sender amountA amountB Hp He HsA HsB Hne HA HB HlA HlB.
  unfold surplusA, surplusB, holdingA, holdingB in *.
  assert (TA : exists lA, ERC20.transfer (this w) sender amountA (tokenA w) = Ok (tt, lA)).
  { eexists. unfold ERC20.transfer. apply _update_run; cbv zeta; [lia|].
    rewrite balanceOf_set_balance. destruct (decide (this w = sender)); [congruence|lia]. }
  assert (TB : exists lB, ERC20.transfer (this w) sender amountB (tokenB w) = Ok (tt, lB)).
  { eexists. unfold ERC20.transfer. apply _update_run; cbv zeta; [lia|].
    rewrite balanceOf_set_balance. destruct (decide (this w = sender)); [congruence|lia]. }
  destruct TA as [lA TA], TB as [lB TB].
  eexists. split.
  - apply (removeLiquidity_run sender amountA amountB w lA lB); try assumption; lia.
  - apply transfer_balances in TA; [|congruence].
    apply transfer_balances in TB; [|congruence].
    destruct TA as (_ & _ & TA & _), TB as (_ & _ & TB & _).
    demo_cbn. destruct (store w); demo_cbn.
    split; [reflexivity|]. split; [reflexivity|]. split; assumption.
Qed.

Lemma removeLiquidity_by_anyone_witness :
  exists w',
    removeLiquidity 9 1000000 500000 scenarioA = Ok (tt, w') /\
    reserveA (store w') = 0 /\ reserveB (store w') = 0 /\
    ERC20.balanceOf (tokenA w') 9 = 1000000 /\
    ERC20.balanceOf (tokenB w') 9 = 500000.
Proof.
  refine (removeLiquidity_by_anyone scenarioA 9 1000000 500000 _ _ _ _ _ _ _ _ _);
    vm_compute; first [reflexivity | split; congruence | congruence].
Defined.

End DemoSwapMore.

(** ** More of the confidential pool *)

Module PrivateSwapMore.
Import PrivateSwap PrivateSwapFacts PrivateSwapDeployed Variants.

(** *** Before the first liquidity *)

(** X12: while either reserve is uninitialised, [swap],
    [removeLiquidity] and [getQuote] revert with
    "Reserves not initialized" and the [isInitialized] view answers
    [false]. *)
Theorem uninitialized_reverts :
  forall (w : World),
    TFHE.isInitialized (_reserveA (store w)) = false \/
    TFHE.isInitialized (_reserveB (store w)) = false ->
    (forall sender amountIn isAtoB,
       getQuote sender amountIn isAtoB w
         = Revert (RequireFailed "Reserves not initialized")) /\
    isInitialized w = Ok (false, w) /\
    (_paused (store w) = false -> _entered (store w) = false ->
     (forall sender amountIn expectedAmountOut minAmountOut isAtoB,
        swap sender amountIn expectedAmountOut minAmountOut isAtoB w
          = Revert (RequireFailed "Reserves not initialized")) /\
     (forall sender amountA amountB,
        removeLiquidity sender amountA amountB w
          = Revert (RequireFailed "Reserves not initialized"))).
Proof.
  intros w Hu.
  assert (Hv : isInitialized w = Ok (false, w)).
  { unfold isInitialized, sload, gets.
    destruct Hu as [-> | ->]; [reflexivity|]. rewrite andb_false_r. reflexivity. }
  split; [|split; [exact Hv|]].
  - intros sender amountIn isAtoB.
    unfold getQuote, sload, bind, gets, require, ret, revert.
    destruct Hu as [-> | ->]; [reflexivity|].
    destruct (TFHE.isInitialized (_reserveA (store w))); reflexivity.
  - intros Hp He. split; intros.
    + unfold swap. rewrite confidential_whenNotPaused_run by assumption.
      rewrite confidential_nonReentrant_run by assumption.
      unfold sload, bind, gets, require, ret, revert. priv_cbn.
      destruct Hu as [-> | ->]; [reflexivity|].
      destruct (TFHE.isInitialized (_reserveA (store w))); reflexivity.
    + unfold removeLiquidity. rewrite confidential_whenNotPaused_run by assumption.
      rewrite confidential_nonReentrant_run by assumption.
      unfold sload, bind, gets, require, ret, revert. priv_cbn.
      destruct Hu as [-> | ->]; [reflexivity|].
      destruct (TFHE.isInitialized (_reserveA (store w))); reflexivity.
Qed.

Lemma uninitialized_reverts_witness :
  getQuote 7 10000 true (private_world None None 30)
    = Revert (RequireFailed "Reserves not initialized") /\
  swap 7 10000 4935 4000 true (private_world None None 30)
    = Revert (RequireFailed "Reserves not initialized").
Proof.
  destruct (uninitialized_reverts (private_world None None 30)) as (H1 & _ & H3).
  - left. reflexivity.
  - split; [exact (H1 7 10000 true)|].
    exact (proj1 (H3 eq_refl eq_refl) 7 10000 4935 4000 true).
Defined.

(** X13: the pool as it is deployed takes no liquidity: in every world
    it can reach, the FHEVM configuration is unset and both reserves are
    uninitialised, and [addLiquidity] reverts whatever the amounts, with
    [EnforcedPause] on a paused pool and at its first coprocessor call
    otherwise, leaving the world as it was. *)
Theorem addLiquidity_never_completes :
  forall (w : World) (sender : address) (amountA amountB : Z),
    reachable w ->
    fhevmConfigSet (store w) = false /\
    TFHE.isInitialized (_reserveA (store w)) = false /\
    TFHE.isInitialized (_reserveB (store w)) = false /\
    transact (addLiquidity sender amountA amountB) w
      = (w, Revert (if _paused (store w) then EnforcedPause else CoprocessorUnset)).
Proof.
  intros w sender amountA amountB Hr.
  destruct (reachable_unset w Hr) as (Hc & HA & HB).
  split; [exact Hc|]. rewrite HA, HB. split; [reflexivity|]. split; [reflexivity|].
  apply transact_Revert. apply addLiquidity_unset; [exact Hc|].
  apply reachable_released. exact Hr.
Qed.

Lemma addLiquidity_never_completes_witness :
  let w := constructor 100 201 202 1 ∅ ∅ in
  transact (addLiquidity 9 5000 7000) w = (w, Revert CoprocessorUnset).
Proof.
  intros w.
  refine (proj2 (proj2 (proj2 (addLiquidity_never_completes w 9 5000 7000 _)))).
  apply reachable_constructor; apply map_Forall_empty.
Defined.

(** *** Initialisation is kept *)




(** *** Removing liquidity *)

(** X15: [removeLiquidity] is all or nothing on the reserves: after
    the transaction, completed or reverted, either both reserves are as
    before, or both amounts were covered by the reserves and each
    reserve has fallen by its amount. In a world the deployed pool can
    reach it reverts, with [EnforcedPause] on a paused pool and with
    "Reserves not initialized" otherwise. *)
Theorem removeLiquidity_all_or_nothing :
  forall (w : World) (sender : address) (amountA amountB : Z),
    wf w -> TFHE.is_uint64 amountA -> TFHE.is_uint64 amountB ->
    let w' := (transact (removeLiquidity sender amountA amountB) w).1 in
    ((reserveA w' = reserveA w /\ reserveB w' = reserveB w) \/
     (amountA <= reserveA w /\ amountB <= reserveB w /\
      reserveA w' = reserveA w - amountA /\ reserveB w' = reserveB w - amountB)) /\
    (reachable w ->
     transact (removeLiquidity sender amountA amountB) w
       = (w, Revert (if _paused (store w) then EnforcedPause
                     else RequireFailed "Reserves not initialized"))).
Proof.
  intros w sender amountA amountB (HwA & HwB & _ & He & _) Ha Hb w'.
  split.
  - subst w'. unfold transact.
    destruct (removeLiquidity sender amountA amountB w) as [[u w1]|e] eqn:H; cbn [fst];
      [|left; split; reflexivity].
    apply confidential_removeLiquidity_Ok in H. cbv zeta in H.
    destruct H as (_ & _ & [HiA HiB] & Hs & _).
    unfold reserveA, reserveB. rewrite Hs. priv_cbn.
    destruct (_reserveA (store w)) as [x|]; [|discriminate].
    destruct (_reserveB (store w)) as [y|]; [|discriminate].
    cbn [TFHE.wf] in HwA, HwB.
    unfold hasEnoughReserves, actualAmount, TFHE.select, TFHE.and, TFHE.ge, TFHE.sub,
      TFHE.asEuint64, TFHE.is_uint64 in *.
    cbn [TFHE.plain TFHE.plainb default from_option id].
    rewrite (Z.mod_small amountA), (Z.mod_small amountB) by lia.
    destruct (Z.leb_spec amountA x) as [HA|HA], (Z.leb_spec amountB y) as [HB|HB];
      cbn [andb TFHE.plain default from_option id].
    + right. rewrite !Z.mod_small by lia. auto.
    + left. rewrite !Z.sub_0_r, !Z.mod_small by lia. auto.
    + left. rewrite !Z.sub_0_r, !Z.mod_small by lia. auto.
    + left. rewrite !Z.sub_0_r, !Z.mod_small by lia. auto.
  - intros Hr. destruct (reachable_unset w Hr) as (_ & HA & _).
    apply transact_Revert. apply removeLiquidity_uninitialised; assumption.
Qed.

Lemma removeLiquidity_all_or_nothing_witness :
  let w' := (transact (removeLiquidity 7 1000001 1) scenarioD).1 in
  (reserveA w' = reserveA scenarioD /\ reserveB w' = reserveB scenarioD) \/
  (1000001 <= reserveA scenarioD /\ 1 <= reserveB scenarioD /\
   reserveA w' = reserveA scenarioD - 1000001 /\ reserveB w' = reserveB scenarioD - 1).
Proof.
  refine (proj1 (removeLiquidity_all_or_nothing scenarioD 7 1000001 1 _ _ _)).
  - exact scenarioD_wf.
  - unfold TFHE.is_uint64, TFHE.UINT64_LIMIT. lia.
  - unfold TFHE.is_uint64, TFHE.UINT64_LIMIT. lia.
Defined.

(** *** Quotes are kept per caller *)

(** X16: [getQuote] touches the caller's stored quote and nothing
    else: after the transaction, completed or reverted, every other
    account reads back the numerator and the denominator it had, and
    the reserves, the fee, the owner, the pause flag and both ledgers
    are as before. In a world the deployed pool can reach it reverts
    with "Reserves not initialized". *)
Theorem getQuote_per_caller :
  forall (w : World) (sender : address) (amountIn : Z) (isAtoB : bool),
    let w' := (transact (getQuote sender amountIn isAtoB) w).1 in
    (forall user, user <> sender ->
       getEncryptedNumerator user w' = Ok (_lastNumerator (store w) !! user, w') /\
       getEncryptedDenominator user w' = Ok (_lastDenominator (store w) !! user, w')) /\
    _reserveA (store w') = _reserveA (store w) /\
    _reserveB (store w') = _reserveB (store w) /\
    swapFee (store w') = swapFee (store w) /\
    _owner (store w') = _owner (store w) /\
    _paused (store w') = _paused (store w) /\
    tokenA w' = tokenA w /\ tokenB w' = tokenB w /\
    (reachable w ->
     transact (getQuote sender amountIn isAtoB) w
       = (w, Revert (RequireFailed "Reserves not initialized"))).
Proof.
  intros w sender amountIn isAtoB w'.
  assert (Hlast : reachable w ->
            transact (getQuote sender amountIn isAtoB) w
              = (w, Revert (RequireFailed "Reserves not initialized"))).
  { intros Hr. destruct (reachable_unset w Hr) as (_ & HA & _).
    apply transact_Revert. apply getQuote_uninitialised. exact HA. }
  subst w'.
  split; [|repeat match goal with |- _ /\ _ => split end; [.. | exact Hlast]].
  all: unfold transact.
  all: destruct (getQuote sender amountIn isAtoB w) as [[u w1]|e] eqn:H; cbn [fst].
  all: try (apply getQuote_Ok in H; cbv zeta in H; destruct H as (_ & _ & _ & ->)).
  all: try reflexivity.
  - intros user Hne.
    unfold getEncryptedNumerator, getEncryptedDenominator, sload, gets. priv_cbn.
    unfold quoteNumerator, quoteDenominator, TFHE.mul, TFHE.add. priv_cbn.
    rewrite !lookup_insert_ne by congruence. split; reflexivity.
  - intros user _. split; reflexivity.
Qed.

Lemma getQuote_per_caller_witness :
  let w := constructor 100 201 202 1 ∅ ∅ in
  transact (getQuote 7 10000 true) w
    = (w, Revert (RequireFailed "Reserves not initialized")).
Proof.
  intros w.
  destruct (getQuote_per_caller w 7 10000 true) as (_ & _ & _ & _ & _ & _ & _ & _ & H).
  apply H. apply reachable_constructor; apply map_Forall_empty.
Defined.

(** *** What a swap settles at *)

(** X17: the confidential [swap] settles at the output the caller
    supplies or not at all: after the transaction, completed or
    reverted, either both reserves are as before, or
    [expectedAmountOut] passed the slippage check against the caller's
    own [minAmountOut] and the input reserve has grown by [amountIn] and
    the output reserve fallen by [expectedAmountOut] (modulo [2^64]),
    whatever the constant-product formula or a stored quote would give.
    In a world the deployed pool can reach it reverts, with
    [EnforcedPause] on a paused pool and with "Reserves not initialized"
    otherwise. *)
Theorem swap_settles_at_expected :
  forall (w : World) (sender : address) (amountIn expectedAmountOut minAmountOut : Z)
         (isAtoB : bool),
    wf w ->
    TFHE.is_uint64 amountIn -> TFHE.is_uint64 expectedAmountOut ->
    TFHE.is_uint64 minAmountOut ->
    let w' := (transact (swap sender amountIn expectedAmountOut minAmountOut isAtoB) w).1 in
    ((reserveIn isAtoB w' = reserveIn isAtoB w /\
      reserveOut isAtoB w' = reserveOut isAtoB w) \/
     (minAmountOut <= expectedAmountOut /\
      reserveIn isAtoB w' = (reserveIn isAtoB w + amountIn) mod TFHE.UINT64_LIMIT /\
      reserveOut isAtoB w'
        = (reserveOut isAtoB w - expectedAmountOut) mod TFHE.UINT64_LIMIT)) /\
    (reachable w ->
     transact (swap sender amountIn expectedAmountOut minAmountOut isAtoB) w
       = (w, Revert (if _paused (store w) then EnforcedPause
                     else RequireFailed "Reserves not initialized"))).
Proof.
  intros w sender amountIn expectedAmountOut minAmountOut isAtoB
         (HwA & HwB & _ & He & _) Ha Hx Hm w'.
  split.
  - subst w'. unfold transact.
    destruct (swap sender amountIn expectedAmountOut minAmountOut isAtoB w)
      as [[u w1]|e] eqn:H; cbn [fst]; [|left; split; reflexivity].
    apply confidential_swap_Ok in H. cbv zeta in H.
    destruct H as (_ & _ & [HiA HiB] & Hs & _).
    destruct (Z.le_gt_cases minAmountOut expectedAmountOut) as [Hle|Hlt].
    + right. split; [exact Hle|].
      unfold reserveIn, reserveOut, reserveA, reserveB. rewrite Hs.
      unfold actualInputAmount, actualTransferAmount, isAmountSufficient,
        TFHE.select, TFHE.ge, TFHE.add, TFHE.sub, TFHE.asEuint64.
      cbn [TFHE.plain TFHE.plainb default from_option id].
      rewrite (mod_uint64 _ Ha), (mod_uint64 _ Hx), (mod_uint64 _ Hm).
      apply Z.leb_le in Hle. rewrite Hle.
      destruct isAtoB; priv_cbn; cbn [TFHE.plain default from_option id];
        split; reflexivity.
    + left.
      destruct (insufficient_amounts amountIn expectedAmountOut minAmountOut Hx Hm Hlt)
        as [HIn HOut].
      unfold reserveIn, reserveOut, reserveA, reserveB. rewrite Hs, HIn, HOut.
      rewrite !add_zero, !sub_zero by assumption.
      destruct isAtoB; priv_cbn; split; reflexivity.
  - intros Hr. destruct (reachable_unset w Hr) as (_ & HA & _).
    apply transact_Revert. apply swap_uninitialised; assumption.
Qed.

Lemma swap_settles_at_expected_witness :
  let w' := (transact (swap 7 1 400000 0 true) scenarioD).1 in
  (reserveIn true w' = reserveIn true scenarioD /\
   reserveOut true w' = reserveOut true scenarioD) \/
  (0 <= 400000 /\
   reserveIn true w' = (reserveIn true scenarioD + 1) mod TFHE.UINT64_LIMIT /\
   reserveOut true w' = (reserveOut true scenarioD - 400000) mod TFHE.UINT64_LIMIT).
Proof.
  refine (proj1 (swap_settles_at_expected scenarioD 7 1 400000 0 true _ _ _ _)).
  - exact scenarioD_wf.
  - unfold TFHE.is_uint64, TFHE.UINT64_LIMIT. lia.
  - unfold TFHE.is_uint64, TFHE.UINT64_LIMIT. lia.
  - unfold TFHE.is_uint64, TFHE.UINT64_LIMIT. lia.
Defined.

(** X18: no call of the confidential pool reads what the token
    transfers did: run on worlds that differ only in the two token
    ledgers, a call reverts with the same error or leaves the same
    storage (reserves included) and the same log. *)
Theorem storage_ignores_ledgers :
  forall (w : World) (lA lB : gmap Z Z) (sender : address) (c : Call),
    storage_outcome (call sender c (with_ledgers lA lB w))
      = storage_outcome (call sender c w).
Proof.
  intros w lA lB sender c. destruct w as [self tA tB s mA mB lg].
  destruct s as [rA rB f n d o p e g].
  destruct c as [amountIn expected minOut isAtoB|a b|a b|amountIn isAtoB|fee|token amount| |];
    cbn [call].
  - destruct p, e, g, rA, rB, isAtoB; reflexivity.
  - destruct p, e, g, rA; reflexivity.
  - destruct p, e, g, rA, rB; reflexivity.
  - unfold getQuote, coprocessor, with_ledgers, sload, sstore, emit, storage_outcome,
      bind, gets, modify, require, checked_sub, ret, revert. priv_cbn.
    destruct rA, rB; cbn [TFHE.isInitialized]; try reflexivity.
    priv_cbn. destruct g; [|reflexivity]. priv_cbn.
    destruct (f <=? FEE_DENOMINATOR); reflexivity.
  - unfold setSwapFee, with_ledgers, onlyOwner, sload, sstore, emit, storage_outcome,
      bind, gets, modify, require, ret, revert. priv_cbn.
    destruct (o =? sender); [|reflexivity]. destruct (fee <=? MAX_FEE); reflexivity.
  - unfold emergencyWithdraw, with_ledgers, onlyOwner, sload, sstore, emit, storage_outcome,
      bind, gets, modify, require, ret, revert. priv_cbn.
    destruct (o =? sender); [|reflexivity]. destruct (0 <? amount); reflexivity.
  - unfold pause, with_ledgers, onlyOwner, whenNotPaused, sload, sstore, emit,
      storage_outcome, bind, gets, modify, ret, revert. priv_cbn.
    destruct (o =? sender); [|reflexivity]. destruct p; reflexivity.
  - unfold unpause, with_ledgers, onlyOwner, whenPaused, sload, sstore, emit,
      storage_outcome, bind, gets, modify, ret, revert. priv_cbn.
    destruct (o =? sender); [|reflexivity]. destruct p; reflexivity.
Qed.

(** X19: the confidential [swap] never reads the stored quotes: with
    any other numerators and denominators in storage it does the same
    to everything else. *)
Theorem swap_ignores_stored_quotes :
  forall (w : World) (n d : gmap Z Z) (sender : address)
         (amountIn expectedAmountOut minAmountOut : Z) (isAtoB : bool),
    swap sender amountIn expectedAmountOut minAmountOut isAtoB (with_quotes n d w)
      = map_world (with_quotes n d)
          (swap sender amountIn expectedAmountOut minAmountOut isAtoB w).
Proof.
  intros w n d sender amountIn expectedAmountOut minAmountOut isAtoB.
  destruct w as [self tA tB s mA mB lg]. destruct s as [rA rB f n0 d0 o p e g].
  destruct p, e, g, rA, rB, isAtoB; reflexivity.
Qed.

End PrivateSwapMore.

(** ** Pause, unpause and who may change the settings *)

Lemma demo_pause_cases (w : DemoSwap.World) (sender : address) :
  DemoSwap.pause sender w =
    if DemoSwap._owner (DemoSwap.store w) =? sender
    then if DemoSwap._paused (DemoSwap.store w)
         then Revert EnforcedPause
         else Ok (tt, DemoSwap.mkWorld (DemoSwap.this w)
                        (DemoSwap.set_paused true (DemoSwap.store w))
                        (DemoSwap.tokenA w) (DemoSwap.tokenB w)
                        (DemoSwap.logs w ++ [DemoSwap.Paused sender]))
    else Revert (OwnableUnauthorizedAccount sender).
Proof.
  unfold DemoSwap.pause, DemoSwap.onlyOwner, DemoSwap.whenNotPaused, DemoSwap.sload,
    DemoSwap.sstore, DemoSwap.emit, bind, gets, modify, revert.
  destruct (_ =? _); [|reflexivity]. destruct (DemoSwap._paused _); reflexivity.
Qed.

Lemma demo_unpause_cases (w : DemoSwap.World) (sender : address) :
  DemoSwap.unpause sender w =
    if DemoSwap._owner (DemoSwap.store w) =? sender
    then if DemoSwap._paused (DemoSwap.store w)
         then Ok (tt, DemoSwap.mkWorld (DemoSwap.this w)
                        (DemoSwap.set_paused false (DemoSwap.store w))
                        (DemoSwap.tokenA w) (DemoSwap.tokenB w)
                        (DemoSwap.logs w ++ [DemoSwap.Unpaused sender]))
         else Revert ExpectedPause
    else Revert (OwnableUnauthorizedAccount sender).
Proof.
  unfold DemoSwap.unpause, DemoSwap.onlyOwner, DemoSwap.whenPaused, DemoSwap.sload,
    DemoSwap.sstore, DemoSwap.emit, bind, gets, modify, revert.
  destruct (_ =? _); [|reflexivity]. destruct (DemoSwap._paused _); reflexivity.
Qed.

Lemma private_pause_cases (w : PrivateSwap.World) (sender : address) :
  PrivateSwap.pause sender w =
    if PrivateSwap._owner (PrivateSwap.store w) =? sender
    then if PrivateSwap._paused (PrivateSwap.store w)
         then Revert EnforcedPause
         else Ok (tt, PrivateSwap.mkWorld (PrivateSwap.this w)
                        (PrivateSwap.tokenA_address w) (PrivateSwap.tokenB_address w)
                        (PrivateSwap.set_paused true (PrivateSwap.store w))
                        (PrivateSwap.tokenA w) (PrivateSwap.tokenB w)
                        (PrivateSwap.logs w ++ [PrivateSwap.Paused sender]))
    else Revert (OwnableUnauthorizedAccount sender).
Proof.
  unfold PrivateSwap.pause, PrivateSwap.onlyOwner, PrivateSwap.whenNotPaused,
    PrivateSwap.sload, PrivateSwap.sstore, PrivateSwap.emit, bind, gets, modify, revert.
  destruct (_ =? _); [|reflexivity]. destruct (PrivateSwap._paused _); reflexivity.
Qed.

Lemma private_unpause_cases (w : PrivateSwap.World) (sender : address) :
  PrivateSwap.unpause sender w =
    if PrivateSwap._owner (PrivateSwap.store w) =? sender
    then if PrivateSwap._paused (PrivateSwap.store w)
         then Ok (tt, PrivateSwap.mkWorld (PrivateSwap.this w)
                        (PrivateSwap.tokenA_address w) (PrivateSwap.tokenB_address w)
                        (PrivateSwap.set_paused false (PrivateSwap.store w))
                        (PrivateSwap.tokenA w) (PrivateSwap.tokenB w)
                        (PrivateSwap.logs w ++ [PrivateSwap.Unpaused sender]))
         else Revert ExpectedPause
    else Revert (OwnableUnauthorizedAccount sender).
Proof.
  unfold PrivateSwap.unpause, PrivateSwap.onlyOwner, PrivateSwap.whenPaused,
    PrivateSwap.sload, PrivateSwap.sstore, PrivateSwap.emit, bind, gets, modify, revert.
  destruct (_ =? _); [|reflexivity]. destruct (PrivateSwap._paused _); reflexivity.
Qed.

(** X10: in the transparent pool, [pause] succeeds exactly for the
    owner on a running pool (a second [pause] reverts with
    [EnforcedPause], a stranger's with [OwnableUnauthorizedAccount]),
    [unpause] exactly for the owner on a paused pool, and
    [pause] followed by [unpause] restores the storage and the ledgers,
    leaving only the two events in the log. *)
Theorem demo_pause_unpause :
  forall (w : DemoSwap.World) (sender : address),
    ((exists w', DemoSwap.pause sender w = Ok (tt, w')) <->
     DemoSwap._owner (DemoSwap.store w) = sender /\
     DemoSwap._paused (DemoSwap.store w) = false) /\
    ((exists w', DemoSwap.unpause sender w = Ok (tt, w')) <->
     DemoSwap._owner (DemoSwap.store w) = sender /\
     DemoSwap._paused (DemoSwap.store w) = true) /\
    (DemoSwap._owner (DemoSwap.store w) <> sender ->
     DemoSwap.pause sender w = Revert (OwnableUnauthorizedAccount sender) /\
     DemoSwap.unpause sender w = Revert (OwnableUnauthorizedAccount sender)) /\
    (DemoSwap._owner (DemoSwap.store w) = sender ->
     (DemoSwap._paused (DemoSwap.store w) = true ->
      DemoSwap.pause sender w = Revert EnforcedPause) /\
     (DemoSwap._paused (DemoSwap.store w) = false ->
      DemoSwap.unpause sender w = Revert ExpectedPause)) /\
    (forall w1, DemoSwap.pause sender w = Ok (tt, w1) ->
       DemoSwap._paused (DemoSwap.store w1) = true /\
       exists w2, DemoSwap.unpause sender w1 = Ok (tt, w2) /\
                  DemoSwap.store w2 = DemoSwap.store w /\
                  DemoSwap.tokenA w2 = DemoSwap.tokenA w /\
                  DemoSwap.tokenB w2 = DemoSwap.tokenB w /\
                  DemoSwap.logs w2 = DemoSwap.logs w
                    ++ [DemoSwap.Paused sender; DemoSwap.Unpaused sender]).
Proof.
  intros w sender. rewrite demo_pause_cases, demo_unpause_cases.
  destruct (Z.eqb_spec (DemoSwap._owner (DemoSwap.store w)) sender) as [Ho|Ho];
    destruct (DemoSwap._paused (DemoSwap.store w)) eqn:Hp.
  all: repeat match goal with |- _ /\ _ => split | |- _ <-> _ => split end.
  all: try (intros [w' H]; discriminate H).
  all: try (intros [H1 H2]; congruence).
  all: try (intros; congruence).
  all: try (intros; eexists; reflexivity).
  all: try (intros; split; [assumption|reflexivity]).
  all: try (intros w1 H; discriminate H).
  all: try (intros _; split; intros; congruence).
  all: intros w1 [= <-]; cbn [DemoSwap.store DemoSwap.set_paused DemoSwap._paused].
  all: split; [reflexivity|]; rewrite demo_unpause_cases.
  all: cbn [DemoSwap.store DemoSwap.set_paused DemoSwap._paused DemoSwap._owner
            DemoSwap.this DemoSwap.tokenA DemoSwap.tokenB DemoSwap.logs].
  all: rewrite Ho, Z.eqb_refl; eexists; split; [reflexivity|].
  all: cbn [DemoSwap.store DemoSwap.set_paused DemoSwap._paused DemoSwap._owner
            DemoSwap.this DemoSwap.tokenA DemoSwap.tokenB DemoSwap.logs].
  all: rewrite <- app_assoc; cbn [app].
  all: destruct (DemoSwap.store w); cbn in *; subst; repeat split; reflexivity.
Qed.

Lemma demo_pause_unpause_witness :
  exists w2,
    DemoSwap.unpause 1 (transact (DemoSwap.pause 1) scenarioA).1 = Ok (tt, w2) /\
    DemoSwap.store w2 = DemoSwap.store scenarioA.
Proof.
  destruct (proj2 (proj2 (proj2 (proj2 (demo_pause_unpause scenarioA 1))))
              (transact (DemoSwap.pause 1) scenarioA).1) as (_ & w2 & H1 & H2 & _).
  - vm_compute. reflexivity.
  - exists w2. split; [exact H1|exact H2].
Defined.

(** X11: in the confidential pool, [pause] succeeds exactly for the
    owner on a running pool (a second [pause] reverts with
    [EnforcedPause], a stranger's with [OwnableUnauthorizedAccount]),
    [unpause] exactly for the owner on a paused pool, and [pause]
    followed by [unpause] restores the storage (reserves, fee, stored
    quotes) and the ledgers, leaving only the two events in the log. *)
Theorem private_pause_unpause :
  forall (w : PrivateSwap.World) (sender : address),
    ((exists w', PrivateSwap.pause sender w = Ok (tt, w')) <->
     PrivateSwap._owner (PrivateSwap.store w) = sender /\
     PrivateSwap._paused (PrivateSwap.store w) = false) /\
    ((exists w', PrivateSwap.unpause sender w = Ok (tt, w')) <->
     PrivateSwap._owner (PrivateSwap.store w) = sender /\
     PrivateSwap._paused (PrivateSwap.store w) = true) /\
    (PrivateSwap._owner (PrivateSwap.store w) <> sender ->
     PrivateSwap.pause sender w = Revert (OwnableUnauthorizedAccount sender) /\
     PrivateSwap.unpause sender w = Revert (OwnableUnauthorizedAccount sender)) /\
    (PrivateSwap._owner (PrivateSwap.store w) = sender ->
     (PrivateSwap._paused (PrivateSwap.store w) = true ->
      PrivateSwap.pause sender w = Revert EnforcedPause) /\
     (PrivateSwap._paused (PrivateSwap.store w) = false ->
      PrivateSwap.unpause sender w = Revert ExpectedPause)) /\
    (forall w1, PrivateSwap.pause sender w = Ok (tt, w1) ->
       PrivateSwap._paused (PrivateSwap.store w1) = true /\
       exists w2, PrivateSwap.unpause sender w1 = Ok (tt, w2) /\
                  PrivateSwap.store w2 = PrivateSwap.store w /\
                  PrivateSwap.tokenA w2 = PrivateSwap.tokenA w /\
                  PrivateSwap.tokenB w2 = PrivateSwap.tokenB w /\
                  PrivateSwap.logs w2 = PrivateSwap.logs w
                    ++ [PrivateSwap.Paused sender; PrivateSwap.Unpaused sender]).
Proof.
  intros w sender. rewrite private_pause_cases, private_unpause_cases.
  destruct (Z.eqb_spec (PrivateSwap._owner (PrivateSwap.store w)) sender) as [Ho|Ho];
    destruct (PrivateSwap._paused (PrivateSwap.store w)) eqn:Hp.
  all: repeat match goal with |- _ /\ _ => split | |- _ <-> _ => split end.
  all: try (intros [w' H]; discriminate H).
  all: try (intros [H1 H2]; congruence).
  all: try (intros; congruence).
  all: try (intros; eexists; reflexivity).
  all: try (intros; split; [assumption|reflexivity]).
  all: try (intros w1 H; discriminate H).
  all: try (intros _; split; intros; congruence).
  all: intros w1 [= <-];
         cbn [PrivateSwap.store PrivateSwap.set_paused PrivateSwap._paused].
  all: split; [reflexivity|]; rewrite private_unpause_cases.
  all: cbn [PrivateSwap.store PrivateSwap.set_paused PrivateSwap._paused PrivateSwap._owner
            PrivateSwap.this PrivateSwap.tokenA PrivateSwap.tokenB PrivateSwap.logs
            PrivateSwap.tokenA_address PrivateSwap.tokenB_address].
  all: rewrite Ho, Z.eqb_refl; eexists; split; [reflexivity|].
  all: cbn [PrivateSwap.store PrivateSwap.set_paused PrivateSwap._paused PrivateSwap._owner
            PrivateSwap.this PrivateSwap.tokenA PrivateSwap.tokenB PrivateSwap.logs
            PrivateSwap.tokenA_address PrivateSwap.tokenB_address].
  all: rewrite <- app_assoc; cbn [app].
  all: destruct (PrivateSwap.store w); cbn in *; subst; repeat split; reflexivity.
Qed.

Lemma private_pause_unpause_witness :
  exists w2,
    PrivateSwap.unpause 1 (transact (PrivateSwap.pause 1) scenarioD).1 = Ok (tt, w2) /\
    PrivateSwap.store w2 = PrivateSwap.store scenarioD.
Proof.
  destruct (proj2 (proj2 (proj2 (proj2 (private_pause_unpause scenarioD 1))))
              (transact (PrivateSwap.pause 1) scenarioD).1) as (_ & w2 & H1 & H2 & _).
  - vm_compute. reflexivity.
  - exists w2. split; [exact H1|exact H2].
Defined.

Lemma demo_swap_settings (sender : address) (aToB : bool) (amountIn minAmountOut : Z)
      (w w' : DemoSwap.World) (out : Z) :
  DemoSwap.swap sender aToB amountIn minAmountOut w = Ok (out, w') ->
  DemoSwap.feeNumerator (DemoSwap.store w') = DemoSwap.feeNumerator (DemoSwap.store w) /\
  DemoSwap._paused (DemoSwap.store w') = DemoSwap._paused (DemoSwap.store w) /\
  DemoSwap._owner (DemoSwap.store w') = DemoSwap._owner (DemoSwap.store w).
Proof.
  unfold DemoSwap.swap, DemoSwap.nonReentrant, DemoSwap.whenNotPaused, DemoSwap.sload,
    DemoSwap.sstore, DemoSwap.emit.
  intros H. DemoSwapFacts.demo_inv.
  all: DemoSwapFacts.demo_cbn; split; [|split]; congruence.
Qed.

(** X20: only the owner changes the settings: a call by any other
    account, whatever it is, leaves the fee and the pause flag of
    either pool as they were. *)
Theorem settings_need_owner :
  (forall (w w' : DemoSwap.World) (sender : address) (c : DemoSwap.Call) (u : unit),
     sender <> DemoSwap._owner (DemoSwap.store w) ->
     DemoSwap.call sender c w = Ok (u, w') ->
     DemoSwap.feeNumerator (DemoSwap.store w') = DemoSwap.feeNumerator (DemoSwap.store w) /\
     DemoSwap._paused (DemoSwap.store w') = DemoSwap._paused (DemoSwap.store w)) /\
  (forall (w w' : PrivateSwap.World) (sender : address) (c : PrivateSwap.Call) (u : unit),
     sender <> PrivateSwap._owner (PrivateSwap.store w) ->
     PrivateSwap.call sender c w = Ok (u, w') ->
     PrivateSwap.swapFee (PrivateSwap.store w') = PrivateSwap.swapFee (PrivateSwap.store w) /\
     PrivateSwap._paused (PrivateSwap.store w') = PrivateSwap._paused (PrivateSwap.store w)).
Proof.
  split.
  - intros w w' sender c u Hne H.
    destruct c as [aToB amountIn minOut|a b|a b|fee| |]; cbn [DemoSwap.call] in H.
    + inv_run. apply demo_swap_settings in E. tauto.
    + apply DemoSwapFacts.addLiquidity_Ok in H.
      destruct H as (_ & _ & _ & _ & _ & _ & _ & Hs & _). rewrite Hs.
      split; reflexivity.
    + apply DemoSwapFacts.removeLiquidity_Ok in H.
      destruct H as (_ & _ & _ & _ & Hs & _). rewrite Hs. split; reflexivity.
    + rewrite DemoSwapFacts.updateFee_run in H.
      destruct (Z.eqb_spec (DemoSwap._owner (DemoSwap.store w)) sender); [congruence|].
      discriminate.
    + rewrite demo_pause_cases in H.
      destruct (Z.eqb_spec (DemoSwap._owner (DemoSwap.store w)) sender); [congruence|].
      discriminate.
    + rewrite demo_unpause_cases in H.
      destruct (Z.eqb_spec (DemoSwap._owner (DemoSwap.store w)) sender); [congruence|].
      discriminate.
  - intros w w' sender c u Hne H.
    destruct c as [amountIn expected minOut isAtoB|a b|a b|amountIn isAtoB|fee|token amount| |];
      cbn [PrivateSwap.call] in H.
    + apply PrivateSwapFacts.confidential_swap_Ok in H. cbv zeta in H.
      destruct H as (_ & _ & _ & Hs & _). rewrite Hs. destruct isAtoB; split; reflexivity.
    + apply PrivateSwapFacts.confidential_addLiquidity_Ok in H.
      destruct H as (_ & _ & Hs & _). rewrite Hs.
      destruct (TFHE.isInitialized _); split; reflexivity.
    + apply PrivateSwapFacts.confidential_removeLiquidity_Ok in H. cbv zeta in H.
      destruct H as (_ & _ & _ & Hs & _). rewrite Hs. split; reflexivity.
    + apply PrivateSwapFacts.getQuote_Ok in H. cbv zeta in H.
      destruct H as (_ & _ & _ & ->). split; reflexivity.
    + rewrite PrivateSwapFacts.setSwapFee_run in H.
      destruct (Z.eqb_spec (PrivateSwap._owner (PrivateSwap.store w)) sender); [congruence|].
      discriminate.
    + unfold PrivateSwap.emergencyWithdraw, PrivateSwap.onlyOwner, PrivateSwap.sload,
        bind, gets in H.
      destruct (Z.eqb_spec (PrivateSwap._owner (PrivateSwap.store w)) sender); [congruence|].
      discriminate.
    + rewrite private_pause_cases in H.
      destruct (Z.eqb_spec (PrivateSwap._owner (PrivateSwap.store w)) sender); [congruence|].
      discriminate.
    + rewrite private_unpause_cases in H.
      destruct (Z.eqb_spec (PrivateSwap._owner (PrivateSwap.store w)) sender); [congruence|].
      discriminate.
Qed.

Lemma settings_need_owner_witness :
  DemoSwap.feeNumerator
    (DemoSwap.store (transact (DemoSwap.call 7 (DemoSwap.CallSwap true 10000 4900)) scenarioA).1)
  = 30.
Proof.
  refine (proj1 (proj1 settings_need_owner scenarioA
            (transact (DemoSwap.call 7 (DemoSwap.CallSwap true 10000 4900)) scenarioA).1
            7 (DemoSwap.CallSwap true 10000 4900) tt _ _)).
  - vm_compute. congruence.
  - vm_compute. reflexivity.
Defined.

(** ** What the invariants of the reachable worlds give *)

(** X21: in every world the transparent pool can reach, the fee is at
    most 100 basis points, so the fee [swap] and [quote] take from any
    input is at most one hundredth of it, and the amount that enters
    the formula is at least 99% of the input. *)
Theorem reachable_fee_at_most_one_percent :
  forall (w : DemoSwap.World) (amountIn : Z),
    DemoSwap.reachable w -> 0 <= amountIn ->
    0 <= DemoSwap.feeNumerator (DemoSwap.store w) <= 100 /\
    0 <= Holdings.feeOf amountIn w /\
    100 * Holdings.feeOf amountIn w <= amountIn /\
    99 * amountIn <= 100 * (amountIn - Holdings.feeOf amountIn w).
Proof.
  intros w amountIn Hr Ha.
  destruct (DemoSwapInvariant.reachable_invariant w Hr) as [(_ & _ & [Hf0 _] & _) Hf].
  unfold Holdings.feeOf, DemoSwap.FEE_DENOMINATOR.
  set (f := DemoSwap.feeNumerator (DemoSwap.store w)) in *. clearbody f.
  assert (H0 : 0 <= amountIn * f / 10000) by (apply Z.div_pos; nia).
  assert (H1 : 100 * (amountIn * f / 10000) <= amountIn).
  { pose proof (Z.mul_div_le (amountIn * f) 10000 ltac:(lia)) as Hm.
    generalize dependent (amountIn * f / 10000). intros q H0 Hm. nia. }
  split; [lia|]. split; [exact H0|]. split; [exact H1|]. lia.
Qed.

Lemma reachable_fee_at_most_one_percent_witness :
  let w := (transact (DemoSwap.call 7 (DemoSwap.CallAddLiquidity 300 200))
              (DemoSwap.constructor 100 1 (ledger_of 7 100 20000 0 20000)
                                          (ledger_of 7 100 20000 0 20000))).1 in
  100 * Holdings.feeOf 10000 w <= 10000.
Proof.
  intros w.
  refine (proj1 (proj2 (proj2 (reachable_fee_at_most_one_percent w 10000 _ _)))); [|lia].
  apply DemoSwap.reachable_call.
  - apply DemoSwap.reachable_constructor;
      apply DemoSwapFacts.ledger_of_wf; unfold is_uint256, UINT256_LIMIT; lia.
  - cbn [DemoSwap.valid_call]. unfold is_uint256, UINT256_LIMIT. lia.
Defined.

(** X22: in every world the confidential pool can reach, the fee is
    at most [MAX_FEE] and the FHEVM configuration is unset, so only the
    owner's calls complete: [swap], [addLiquidity], [removeLiquidity]
    and [getQuote], and every call sent by another account, revert and
    leave the world as it was. *)
Theorem reachable_only_owner_calls_complete :
  forall (w : PrivateSwap.World) (sender : address) (c : PrivateSwap.Call),
    PrivateSwap.reachable w ->
    PrivateSwap.swapFee (PrivateSwap.store w) <= PrivateSwap.MAX_FEE /\
    PrivateSwap.fhevmConfigSet (PrivateSwap.store w) = false /\
    (Variants.owner_call c = false \/ PrivateSwap._owner (PrivateSwap.store w) <> sender ->
     exists e, transact (PrivateSwap.call sender c) w = (w, Revert e)).
Proof.
  intros w sender c Hr.
  destruct (PrivateSwapInvariant.confidential_reachable_invariant w Hr) as [_ Hf].
  destruct (PrivateSwapDeployed.reachable_unset w Hr) as (Hc & _).
  split; [exact Hf|]. split; [exact Hc|].
  intros Hcase. unfold transact.
  destruct (PrivateSwap.call sender c w) as [[u w']|e] eqn:E; [|eauto].
  destruct (PrivateSwapDeployed.call_Ok_config _ _ _ _ _ E) as (_ & Hn & Ho).
  destruct (Variants.owner_call c).
  - destruct (Ho eq_refl) as (Hs & _). destruct Hcase as [Hcase|Hcase]; congruence.
  - rewrite (Hn eq_refl) in Hc. discriminate.
Qed.

Lemma reachable_only_owner_calls_complete_witness :
  let w := PrivateSwap.constructor 100 201 202 1 ∅ ∅ in
  exists e, transact (PrivateSwap.call 1 (PrivateSwap.CallGetQuote 10 true)) w
            = (w, Revert e).
Proof.
  intros w.
  refine (proj2 (proj2 (reachable_only_owner_calls_complete w 1
                          (PrivateSwap.CallGetQuote 10 true) _)) _).
  - apply PrivateSwap.reachable_constructor; apply map_Forall_empty.
  - left. reflexivity.
Defined.

(** ** EncryptedPUSD: ownership *)

Module EncryptedPUSDFacts.
Import EncryptedPUSD.

Section Inherited.
Context {Token : Type}.
Variable _unsafeMint : address -> Z -> M Token unit.

Lemma transferOwnership_cases (sender newOwner : address) (s : Storage Token) :
  transferOwnership sender newOwner s =
    if sender =? owner s
    then if newOwner =? 0
         then Revert (RequireFailed "New owner cannot be zero address")
         else Ok (tt, mkStorage newOwner (token s))
    else Revert (RequireFailed "Only owner can call this").
Proof.
  unfold transferOwnership, onlyOwner, bind, gets, modify, require, ret, revert.
  destruct (sender =? owner s); [|reflexivity].
  destruct (newOwner =? 0); reflexivity.
Qed.

Lemma mint_not_owner (sender to : address) (amount : Z) (s : Storage Token) :
  sender <> owner s ->
  mint _unsafeMint sender to amount s = Revert (RequireFailed "Only owner can call this").
Proof.
  intros Hne. unfold mint, onlyOwner, bind, gets, require, revert.
  apply Z.eqb_neq in Hne. rewrite Hne. reflexivity.
Qed.

(** X23: [transferOwnership] succeeds exactly when the caller is the
    owner and the new owner is not the zero address (the owner check
    comes first); it hands the contract over without touching the
    token state: the new owner is never the zero address, and the old
    owner, if another account, can no longer mint or transfer
    ownership. *)
Theorem ownership_handoff :
  forall (s : Storage Token) (sender newOwner : address),
    ((exists s', transferOwnership sender newOwner s = Ok (tt, s')) <->
     sender = owner s /\ newOwner <> 0) /\
    (sender <> owner s ->
     transferOwnership sender newOwner s
       = Revert (RequireFailed "Only owner can call this")) /\
    (sender = owner s -> newOwner = 0 ->
     transferOwnership sender newOwner s
       = Revert (RequireFailed "New owner cannot be zero address")) /\
    (forall s', transferOwnership sender newOwner s = Ok (tt, s') ->
       owner s' = newOwner /\ owner s' <> 0 /\ token s' = token s /\
       (sender <> newOwner ->
        (forall to amount,
           mint _unsafeMint sender to amount s'
             = Revert (RequireFailed "Only owner can call this")) /\
        (forall next,
           transferOwnership sender next s'
             = Revert (RequireFailed "Only owner can call this")))).
Proof.
  intros s sender newOwner. rewrite transferOwnership_cases.
  destruct (Z.eqb_spec sender (owner s)) as [Ho|Ho];
    [destruct (Z.eqb_spec newOwner 0) as [Hz|Hz]|].
  - split; [split; [intros [s' H]; discriminate H|intros [_ H]; contradiction]|].
    split; [intros H; contradiction|]. split; [reflexivity|].
    intros s' H. discriminate H.
  - split; [split; [intros _; split; assumption|intros _; eexists; reflexivity]|].
    split; [intros H; contradiction|]. split; [intros _ H; contradiction|].
    intros s' [= <-]. cbn [owner token].
    split; [reflexivity|]. split; [exact Hz|]. split; [reflexivity|].
    intros Hne. split.
    + intros to amount. apply mint_not_owner. exact Hne.
    + intros next. rewrite transferOwnership_cases. cbn [owner].
      destruct (Z.eqb_spec sender newOwner); [contradiction|reflexivity].
  - split; [split; [intros [s' H]; discriminate H|intros [H _]; contradiction]|].
    split; [reflexivity|]. split; [intros H; contradiction|].
    intros s' H. discriminate H.
Qed.

End Inherited.

Lemma ownership_handoff_witness :
  owner (transact (transferOwnership (Token := unit) 1 2) (constructor 1 tt)).1 = 2 /\
  mint (fun _ _ => ret tt) 1 7 1000
       (transact (transferOwnership (Token := unit) 1 2) (constructor 1 tt)).1
    = Revert (RequireFailed "Only owner can call this").
Proof.
  destruct (proj2 (proj2 (proj2
              (ownership_handoff (fun _ _ => ret tt) (constructor 1 tt) 1 2)))
              (transact (transferOwnership (Token := unit) 1 2) (constructor 1 tt)).1)
    as (H1 & _ & _ & H4).
  - reflexivity.
  - split; [exact H1|]. apply H4. lia.
Defined.

End EncryptedPUSDFacts.

(** ** The web client's estimate against the pool *)

Module UsePoolReservesFacts.
Import UsePoolReserves.

(** X24: while the pool's fee is the 30 basis points the client
    assumes, the client's estimate for a positive input never exceeds
    what [quote] answers on chain (so a swap with the estimate as
    [minAmountOut] is not refused for slippage on an unchanged pool),
    and equals it when [amountIn * 30] is a multiple of 10000. *)
Theorem estimate_within_quote :
  forall (w w' : DemoSwap.World) (aToB : bool) (amountIn out : Z),
    DemoSwap.feeNumerator (DemoSwap.store w) = 30 ->
    DemoSwap.positive w -> 0 < amountIn ->
    DemoSwap.quote aToB amountIn w = Ok (out, w') ->
    exists estimate,
      calculateSwapOutput (Some (DemoSwap.reserveA (DemoSwap.store w)))
                          (Some (DemoSwap.reserveB (DemoSwap.store w))) amountIn aToB
        = AmountOut estimate /\
      0 <= estimate <= out /\
      ((amountIn * 30) mod 10000 = 0 -> estimate = out).
Proof.
  intros w w' aToB amountIn out Hfee [HA HB] Ha Hq.
  apply DemoSwapMore.quote_Ok in Hq. cbv zeta in Hq. destruct Hq as [_ Hq].
  destruct Hq as [[Hz _]|(_ & _ & _ & _ & ->)]; [lia|].
  unfold Holdings.feeOf, DemoSwap.FEE_DENOMINATOR. rewrite Hfee.
  unfold calculateSwapOutput, falsy.
  replace (DemoSwap.reserveA (DemoSwap.store w) =? 0) with false
    by (symmetry; apply Z.eqb_neq; lia).
  replace (DemoSwap.reserveB (DemoSwap.store w) =? 0) with false
    by (symmetry; apply Z.eqb_neq; lia).
  cbn [orb]. cbv zeta.
  set (rIn := DemoSwap.reserveIn aToB w). set (rOut := DemoSwap.reserveOut aToB w).
  assert (Hin : default 0 (if aToB then Some (DemoSwap.reserveA (DemoSwap.store w))
                           else Some (DemoSwap.reserveB (DemoSwap.store w))) = rIn)
    by (subst rIn; unfold DemoSwap.reserveIn; destruct aToB; reflexivity).
  assert (Hout : default 0 (if aToB then Some (DemoSwap.reserveB (DemoSwap.store w))
                            else Some (DemoSwap.reserveA (DemoSwap.store w))) = rOut)
    by (subst rOut; unfold DemoSwap.reserveOut; destruct aToB; reflexivity).
  rewrite Hin, Hout.
  assert (Hpin : 0 < rIn) by (subst rIn; unfold DemoSwap.reserveIn; destruct aToB; assumption).
  assert (Hpout : 0 < rOut)
    by (subst rOut; unfold DemoSwap.reserveOut; destruct aToB; assumption).
  clearbody rIn rOut.
  replace (rIn * 10000 + amountIn * (10000 - 30) =? 0) with false
    by (symmetry; apply Z.eqb_neq; nia).
  eexists. split; [reflexivity|].
  rewrite Z.quot_div_nonneg by nia.
  pose proof (confidential_quotient_le rIn rOut amountIn 30
                ltac:(lia) ltac:(lia) Hpin ltac:(lia)) as Hle.
  pose proof (confidential_quotient_eq rIn rOut amountIn 30) as Heq.
  unfold spec_computeOutput, spec_amountInAfterFee in Hle, Heq.
  split; [split; [apply Z.div_pos; nia|exact Hle]|exact Heq].
Qed.

Lemma estimate_within_quote_witness :
  exists estimate,
    calculateSwapOutput (Some 1000000) (Some 500000) 10000 true = AmountOut estimate /\
    0 <= estimate <= 4935.
Proof.
  destruct (estimate_within_quote scenarioA scenarioA true 10000 4935)
    as (e & H1 & H2 & _).
  - reflexivity.
  - split; vm_compute; reflexivity.
  - lia.
  - vm_compute. reflexivity.
  - exists e. split; [exact H1|exact H2].
Defined.

End UsePoolReservesFacts.

(** ** Hexadecimal strings *)

Module FheFacts.
Import Fhe.

Lemma hexValue_hexDigit (d : Z) : 0 <= d < 16 -> hexValue (hexDigit d) = d.
Proof.
  intros Hd.
  assert (H : d = 0 \/ d = 1 \/ d = 2 \/ d = 3 \/ d = 4 \/ d = 5 \/ d = 6 \/ d = 7 \/
              d = 8 \/ d = 9 \/ d = 10 \/ d = 11 \/ d = 12 \/ d = 13 \/ d = 14 \/ d = 15)
    by lia.
  repeat (destruct H as [-> | H]; [reflexivity|]). subst d. reflexivity.
Qed.

(** Every byte becomes exactly two digits. *)
Lemma padStart2_toString16 (byte : Z) :
  0 <= byte < 256 ->
  padStart2 (toString16 byte)
    = String (hexDigit (byte / 16)) (String (hexDigit (byte mod 16)) EmptyString).
Proof.
  intros Hb. unfold toString16.
  destruct (Z.ltb_spec byte 16) as [Hlt|Hge].
  - rewrite Z.div_small, Z.mod_small by lia. reflexivity.
  - reflexivity.
Qed.

Lemma append_assoc (a b c : string) :
  String.append (String.append a b) c = String.append a (String.append b c).
Proof.
  induction a as [|x a IH]; [reflexivity|].
  change (String x (String.append (String.append a b) c)
          = String x (String.append a (String.append b c))).
  rewrite IH. reflexivity.
Qed.

Lemma append_empty_r (a : string) : String.append a EmptyString = a.
Proof.
  induction a as [|x a IH]; [reflexivity|].
  change (String x (String.append a EmptyString) = String x a).
  rewrite IH. reflexivity.
Qed.

Lemma fold_left_append (f : Z -> string) (bytes : list Z) (acc : string) :
  fold_left (fun str byte => String.append str (f byte)) bytes acc
    = String.append acc (fold_left (fun str byte => String.append str (f byte))
                                   bytes EmptyString).
Proof.
  revert acc. induction bytes as [|b bytes IH]; intros acc; cbn [fold_left].
  - rewrite append_empty_r. reflexivity.
  - rewrite IH. rewrite (IH (String.append EmptyString (f b))).
    change (String.append EmptyString (f b)) with (f b).
    rewrite append_assoc. reflexivity.
Qed.

Lemma toHexString_cons (byte : Z) (bytes : list Z) :
  0 <= byte < 256 ->
  toHexString (byte :: bytes)
    = String (hexDigit (byte / 16)) (String (hexDigit (byte mod 16)) (toHexString bytes)).
Proof.
  intros Hb. unfold toHexString. cbn [fold_left]. rewrite fold_left_append.
  change (String.append EmptyString (padStart2 (toString16 byte)))
    with (padStart2 (toString16 byte)).
  rewrite padStart2_toString16 by exact Hb. reflexivity.
Qed.

(** X25: [toHexString] writes every byte as exactly two lower-case
    hexadecimal digits, so the string of [n] bytes has [2 * n]
    characters, and different byte arrays give different strings. *)
Theorem toHexString_two_digits :
  forall (bytes bytes' : list Z),
    Forall (fun b => 0 <= b < 256) bytes ->
    Forall (fun b => 0 <= b < 256) bytes' ->
    String.length (toHexString bytes) = (2 * length bytes)%nat /\
    (toHexString bytes = toHexString bytes' -> bytes = bytes').
Proof.
  intros bytes bytes' H. revert bytes'.
  induction H as [|b bytes Hb H IH]; intros bytes' H'.
  - split; [reflexivity|].
    destruct H' as [|b' bytes' Hb' H']; [reflexivity|].
    rewrite toHexString_cons by exact Hb'. discriminate.
  - rewrite toHexString_cons by exact Hb. split.
    + cbn [String.length]. rewrite (proj1 (IH [] (List.Forall_nil _))). cbn [length]. lia.
    + destruct H' as [|b' bytes' Hb' H']; [discriminate|].
      rewrite toHexString_cons by exact Hb'.
      intros [= E1 E2 E3].
      assert (Hhi : b / 16 = b' / 16).
      { rewrite <- (hexValue_hexDigit (b / 16)), <- (hexValue_hexDigit (b' / 16)).
        - rewrite E1. reflexivity.
        - split; [apply Z.div_pos; lia|apply Z.div_lt_upper_bound; lia].
        - split; [apply Z.div_pos; lia|apply Z.div_lt_upper_bound; lia]. }
      assert (Hlo : b mod 16 = b' mod 16).
      { rewrite <- (hexValue_hexDigit (b mod 16)), <- (hexValue_hexDigit (b' mod 16)).
        - rewrite E2. reflexivity.
        - apply Z.mod_pos_bound. lia.
        - apply Z.mod_pos_bound. lia. }
      f_equal.
      * rewrite (Z.div_mod b 16), (Z.div_mod b' 16) by lia. rewrite Hhi, Hlo. reflexivity.
      * apply (proj2 (IH bytes' H')). exact E3.
Qed.

Lemma toHexString_two_digits_witness :
  String.length (toHexString [0; 10; 255]) = 6%nat.
Proof.
  refine (proj1 (toHexString_two_digits [0; 10; 255] [] _ _)).
  - repeat constructor; lia.
  - constructor.
Defined.

End FheFacts.

(** ** MemStorage: claims and users *)

Module MemStorageFacts.
Import MemStorage.

(** *** The sort *)

Lemma insertByClaimedAt_perm (c : FaucetClaim) (l : list FaucetClaim) :
  insertByClaimedAt c l ≡ₚ c :: l.
Proof.
  induction l as [|d l IH]; cbn [insertByClaimedAt]; [reflexivity|].
  destruct (claimedAt c <? claimedAt d); [|reflexivity].
  rewrite IH. apply Permutation_swap.
Qed.

Lemma sortByClaimedAt_perm (l : list FaucetClaim) : sortByClaimedAt l ≡ₚ l.
Proof.
  induction l as [|c l IH]; [reflexivity|].
  unfold sortByClaimedAt in *. cbn [fold_right].
  rewrite insertByClaimedAt_perm, IH. reflexivity.
Qed.

Lemma insertByClaimedAt_newestFirst (c : FaucetClaim) (l : list FaucetClaim) :
  newestFirst l -> newestFirst (insertByClaimedAt c l).
Proof.
  induction l as [|d l IH]; cbn [insertByClaimedAt newestFirst].
  - intros _. split; [constructor|exact I].
  - intros [Hd Hl]. destruct (Z.ltb_spec (claimedAt c) (claimedAt d)) as [Hlt|Hge];
      cbn [newestFirst].
    + split; [|exact (IH Hl)].
      rewrite insertByClaimedAt_perm. constructor; [lia|exact Hd].
    + split; [|split; assumption].
      constructor; [exact Hge|].
      eapply Forall_impl; [exact Hd|]. cbn. intros x Hx. lia.
Qed.

Lemma sortByClaimedAt_newestFirst (l : list FaucetClaim) : newestFirst (sortByClaimedAt l).
Proof.
  induction l as [|c l IH]; [exact I|].
  unfold sortByClaimedAt in *. cbn [fold_right].
  apply insertByClaimedAt_newestFirst. exact IH.
Qed.

Lemma insertByClaimedAt_head (c : FaucetClaim) (l : list FaucetClaim) :
  Forall (fun d => claimedAt d <= claimedAt c) l -> insertByClaimedAt c l = c :: l.
Proof.
  intros H. destruct H as [|d l Hd H]; cbn [insertByClaimedAt]; [reflexivity|].
  destruct (Z.ltb_spec (claimedAt c) (claimedAt d)); [lia|reflexivity].
Qed.

(** The sort leaves a list that is newest first as it is. *)
Lemma sortByClaimedAt_fixed (l : list FaucetClaim) :
  newestFirst l -> sortByClaimedAt l = l.
Proof.
  induction l as [|c l IH]; [reflexivity|].
  cbn [newestFirst]. intros [Hc Hl].
  unfold sortByClaimedAt in *. cbn [fold_right]. rewrite (IH Hl).
  apply insertByClaimedAt_head. exact Hc.
Qed.

Lemma filter_newestFirst (P : FaucetClaim -> Prop) `{!forall c, Decision (P c)}
      (l : list FaucetClaim) :
  newestFirst l -> newestFirst (filter P l).
Proof.
  induction l as [|c l IH]; [intros _; exact I|].
  cbn [newestFirst]. intros [Hc Hl]. rewrite filter_cons.
  destruct (decide (P c)); [|exact (IH Hl)].
  cbn [newestFirst]. split; [|exact (IH Hl)].
  apply Forall_forall. intros x Hx. apply list_elem_of_filter in Hx.
  destruct Hx as [_ Hx]. rewrite Forall_forall in Hc. exact (Hc x Hx).
Qed.

Lemma filter_insertByClaimedAt (P : FaucetClaim -> Prop) `{!forall c, Decision (P c)}
      (c : FaucetClaim) (l : list FaucetClaim) :
  newestFirst l ->
  filter P (insertByClaimedAt c l)
    = if decide (P c) then insertByClaimedAt c (filter P l) else filter P l.
Proof.
  induction l as [|d l IH]; cbn [insertByClaimedAt newestFirst].
  - intros _. rewrite filter_cons. destruct (decide (P c)); reflexivity.
  - intros [Hd Hl]. destruct (Z.ltb_spec (claimedAt c) (claimedAt d)) as [Hlt|Hge].
    + rewrite !(filter_cons _ d), (IH Hl).
      destruct (decide (P c)), (decide (P d)); try reflexivity.
      cbn [insertByClaimedAt].
      destruct (Z.ltb_spec (claimedAt c) (claimedAt d)); [reflexivity|lia].
    + rewrite (filter_cons _ c).
      destruct (decide (P c)); [|reflexivity].
      symmetry. apply insertByClaimedAt_head.
      apply Forall_forall. intros x Hx. apply list_elem_of_filter in Hx.
      destruct Hx as [_ Hx]. apply elem_of_cons in Hx.
      destruct Hx as [->|Hx]; [exact Hge|].
      rewrite Forall_forall in Hd. specialize (Hd x Hx). lia.
Qed.

(** Filtering and sorting commute: the sort is stable. *)
Lemma filter_sortByClaimedAt (P : FaucetClaim -> Prop) `{!forall c, Decision (P c)}
      (l : list FaucetClaim) :
  filter P (sortByClaimedAt l) = sortByClaimedAt (filter P l).
Proof.
  induction l as [|c l IH]; [reflexivity|].
  rewrite filter_cons. unfold sortByClaimedAt in *. cbn [fold_right].
  rewrite filter_insertByClaimedAt by apply sortByClaimedAt_newestFirst.
  destruct (decide (P c)); cbn [fold_right]; rewrite IH; reflexivity.
Qed.

Lemma newestFirst_head (l : list FaucetClaim) (c : FaucetClaim) :
  newestFirst l -> head l = Some c ->
  forall d, d ∈ l -> claimedAt d <= claimedAt c.
Proof.
  destruct l as [|c0 l]; [discriminate|].
  cbn [newestFirst head]. intros [Hc _] [= ->] d Hd.
  apply elem_of_cons in Hd. destruct Hd as [->|Hd]; [lia|].
  rewrite Forall_forall in Hc. exact (Hc d Hd).
Qed.

Section ToLowerCase.
Variable toLowerCase : string -> string.

(** X26: [getLastClaim] changes nothing and returns a claim of the
    store that matches the address (letter case apart) and the token,
    no older than any other matching claim; it returns nothing exactly
    when no claim matches. *)
Theorem getLastClaim_latest :
  forall (s : State) (address : string) (token_ : option string),
    exists last,
      getLastClaim toLowerCase address token_ s = Ok (last, s) /\
      (last = None <->
       forall c, c ∈ claims s -> matchesClaim toLowerCase address token_ c = false) /\
      (forall c, last = Some c ->
         c ∈ claims s /\ matchesClaim toLowerCase address token_ c = true /\
         forall d, d ∈ claims s -> matchesClaim toLowerCase address token_ d = true ->
                   claimedAt d <= claimedAt c).
Proof.
  intros s address token_. eexists. split; [reflexivity|].
  set (P := fun c => matchesClaim toLowerCase address token_ c = true).
  set (l := sortByClaimedAt (filter P (claims s))).
  assert (Hin : forall c, c ∈ l <-> P c /\ c ∈ claims s).
  { intros c. subst l. rewrite sortByClaimedAt_perm. apply list_elem_of_filter. }
  split.
  - split.
    + intros Hnone c Hc. destruct (matchesClaim toLowerCase address token_ c) eqn:E;
        [|reflexivity].
      assert (Hl : c ∈ l) by (apply Hin; split; assumption).
      destruct l as [|c0 l0]; [inversion Hl|discriminate].
    + intros Hall. destruct l as [|c0 l0] eqn:El; [reflexivity|].
      assert (Hc0 : c0 ∈ c0 :: l0) by (apply elem_of_cons; left; reflexivity).
      apply Hin in Hc0. destruct Hc0 as [Hp Hc0]. unfold P in Hp.
      rewrite (Hall c0 Hc0) in Hp. discriminate.
  - intros c Hc.
    pose proof (head_Some_elem_of _ _ Hc) as Hcl. apply Hin in Hcl.
    destruct Hcl as [Hp Hcl]. split; [exact Hcl|]. split; [exact Hp|].
    intros d Hd Hpd.
    apply (newestFirst_head l c); [apply sortByClaimedAt_newestFirst|exact Hc|].
    apply Hin. split; assumption.
Qed.

Lemma getAllClaims_run (limit : option Z) (s : State) :
  getAllClaims limit s =
    Ok (slice0 (default 100 limit) (sortByClaimedAt (claims s)),
        mkState (users s) (sortByClaimedAt (claims s)) (settings s) (claimIdCounter s)).
Proof. reflexivity. Qed.

Lemma length_slice0 {A : Type} (end_ : Z) (l : list A) :
  0 <= end_ -> Z.of_nat (length (slice0 end_ l)) <= end_.
Proof.
  intros H. unfold slice0. destruct (Z.ltb_spec end_ 0); [lia|].
  rewrite length_take. lia.
Qed.

(** X27: [getAllClaims] sorts the stored array itself: afterwards the
    store holds the same claims newest first, and the call returns the
    first [limit] of them (100 when no limit is given); nothing else
    changes, a second call returns the same list, and [getLastClaim]
    answers as it did before the reordering. *)
Theorem getAllClaims_sorts_in_place :
  forall (s : State) (limit : option Z),
    exists result s',
      getAllClaims limit s = Ok (result, s') /\
      claims s' ≡ₚ claims s /\ newestFirst (claims s') /\
      result = slice0 (default 100 limit) (claims s') /\
      (0 <= default 100 limit -> Z.of_nat (length result) <= default 100 limit) /\
      users s' = users s /\ settings s' = settings s /\
      claimIdCounter s' = claimIdCounter s /\
      getAllClaims limit s' = Ok (result, s') /\
      (forall address token_,
         getLastClaim toLowerCase address token_ s'
           = map_world (fun _ => s') (getLastClaim toLowerCase address token_ s)).
Proof.
  intros s limit. rewrite getAllClaims_run. eexists. eexists. split; [reflexivity|].
  cbn [claims users settings claimIdCounter].
  split; [apply sortByClaimedAt_perm|].
  split; [apply sortByClaimedAt_newestFirst|].
  split; [reflexivity|].
  split; [apply length_slice0|].
  split; [reflexivity|]. split; [reflexivity|]. split; [reflexivity|].
  split.
  - rewrite getAllClaims_run. cbn [claims users settings claimIdCounter].
    rewrite (sortByClaimedAt_fixed (sortByClaimedAt (claims s)))
      by apply sortByClaimedAt_newestFirst.
    reflexivity.
  - intros address token_. unfold getLastClaim, gets, map_world.
    cbn [claims]. rewrite filter_sortByClaimedAt.
    rewrite (sortByClaimedAt_fixed (sortByClaimedAt _))
      by apply sortByClaimedAt_newestFirst.
    reflexivity.
Qed.

End ToLowerCase.

(** *** Identifiers *)

Lemma map_get_None {V : Type} (k : Z) (m : list (Z * V)) :
  (forall p, p ∈ m -> p.1 <> k) -> map_get k m = None.
Proof.
  induction m as [|[k' v] m IH]; [reflexivity|].
  intros H. cbn [map_get].
  destruct (Z.eqb_spec k' k) as [E|E].
  - exfalso. apply (H (k', v)); [apply list_elem_of_here|exact E].
  - apply IH. intros p Hp. apply H. apply list_elem_of_further. exact Hp.
Qed.

Lemma map_set_fresh {V : Type} (k : Z) (v : V) (m : list (Z * V)) :
  (forall p, p ∈ m -> p.1 <> k) -> map_set k v m = m ++ [(k, v)].
Proof.
  induction m as [|[k' v'] m IH]; [reflexivity|].
  intros H. cbn [map_set app].
  destruct (Z.eqb_spec k' k) as [E|E].
  - exfalso. apply (H (k', v')); [apply list_elem_of_here|exact E].
  - rewrite IH; [reflexivity|]. intros p Hp. apply H. apply list_elem_of_further. exact Hp.
Qed.

Lemma map_get_set {V : Type} (k k' : Z) (v : V) (m : list (Z * V)) :
  map_get k' (map_set k v m) = if k =? k' then Some v else map_get k' m.
Proof.
  induction m as [|[k0 v0] m IH]; cbn [map_set map_get].
  - destruct (k =? k'); reflexivity.
  - destruct (Z.eqb_spec k0 k) as [E|E]; cbn [map_get].
    + subst k0. destruct (k =? k'); reflexivity.
    + rewrite IH. destruct (Z.eqb_spec k0 k') as [E'|E']; [|reflexivity].
      subst k0. destruct (Z.eqb_spec k k'); [congruence|reflexivity].
Qed.

Lemma users_numbered_fresh (s : State) :
  users_numbered s ->
  forall p, p ∈ users s -> p.1 <> Z.of_nat (length (users s)) + 1.
Proof.
  intros Hn [k u] Hp. apply list_elem_of_lookup in Hp. destruct Hp as [i Hi].
  destruct (Hn i k u Hi) as [-> _]. apply lookup_lt_Some in Hi. cbn. lia.
Qed.

Lemma run_numbered (op : Op) (s s' : State) (u : unit) :
  run op s = Ok (u, s') ->
  users_numbered s /\ claims_numbered s -> users_numbered s' /\ claims_numbered s'.
Proof.
  intros H [Hu [Hc Hd]]. unfold users_numbered, claims_numbered in *.
  destruct op as [ins|ins now|limit|updates]; cbn [run] in H.
  - unfold createUser in H. inv_run. cbn [users claims claimIdCounter].
    split; [|split; assumption].
    rewrite map_set_fresh by (apply users_numbered_fresh; exact Hu).
    intros i k u Hi. apply lookup_app_Some in Hi.
    destruct Hi as [Hi|[Hlen Hi]]; [exact (Hu i k u Hi)|].
    apply list_lookup_singleton_Some in Hi. destruct Hi as [Hi [= <- <-]].
    cbn [user_id]. split; [lia|reflexivity].
  - unfold recordFaucetClaim in H. inv_run. cbn [users claims claimIdCounter].
    split; [exact Hu|]. split.
    + apply Forall_app. split.
      * eapply Forall_impl; [exact Hc|]. cbn. intros x Hx. lia.
      * constructor; [cbn; lia|constructor].
    + rewrite fmap_app. apply NoDup_app. split; [exact Hd|]. split.
      * intros x Hx Hx'. cbn in Hx'. apply list_elem_of_singleton in Hx'. subst x.
        apply list_elem_of_fmap in Hx. destruct Hx as (c & Ec & Hin).
        rewrite Forall_forall in Hc. specialize (Hc c Hin). lia.
      * cbn. apply NoDup_singleton.
  - inv_run. rewrite getAllClaims_run in E. injection E as _ <-.
    cbn [users claims claimIdCounter].
    split; [exact Hu|]. split.
    + rewrite sortByClaimedAt_perm. exact Hc.
    + rewrite sortByClaimedAt_perm. exact Hd.
  - unfold updateFaucetSettings in H. inv_run. cbn [users claims claimIdCounter].
    split; [exact Hu|]. split; assumption.
Qed.

Lemma reachable_numbered (s : State) :
  reachable s -> users_numbered s /\ claims_numbered s.
Proof.
  induction 1 as [|s op Hr IH].
  - split; [intros i k u Hi; discriminate Hi|].
    split; [constructor|constructor].
  - unfold transact. destruct (run op s) as [[u s']|e] eqn:E; cbn [fst].
    + exact (run_numbered op s s' u E IH).
    + exact IH.
Qed.

(** X28: in every store reached from a new one, [createUser] hands
    out an id no user has, the new user is found under it and every
    other lookup answers as before; [recordFaucetClaim] appends a claim
    whose id no stored claim has, so claim ids stay unique, also after
    [getAllClaims] has reordered the array. *)
Theorem ids_are_fresh :
  forall (s : State),
    reachable s ->
    (forall insertUser user s',
       createUser insertUser s = Ok (user, s') ->
       username user = insert_username insertUser /\
       getUser (user_id user) s = Ok (None, s) /\
       getUser (user_id user) s' = Ok (Some user, s') /\
       (forall id, id <> user_id user ->
          getUser id s' = map_world (fun _ => s') (getUser id s))) /\
    (forall insertClaim now claim s',
       recordFaucetClaim insertClaim now s = Ok (claim, s') ->
       claims s' = claims s ++ [claim] /\ claimedAt claim = now /\
       forall d, d ∈ claims s -> claim_id d <> claim_id claim) /\
    NoDup (claim_id <$> claims s).
Proof.
  intros s Hr. destruct (reachable_numbered s Hr) as [Hu [Hc Hd]].
  split; [|split; [|exact Hd]].
  - intros ins user s' H. unfold createUser in H. inv_run.
    unfold getUser, gets, map_world. cbn [users user_id username].
    split; [reflexivity|]. split.
    + rewrite map_get_None; [reflexivity|]. apply users_numbered_fresh. exact Hu.
    + split.
      * rewrite map_get_set, Z.eqb_refl. reflexivity.
      * intros id Hne. rewrite map_get_set.
        destruct (Z.eqb_spec (Z.of_nat (length (users s)) + 1) id); [congruence|reflexivity].
  - intros ins now claim s' H. unfold recordFaucetClaim in H. inv_run.
    cbn [claims claimedAt claim_id]. split; [reflexivity|]. split; [reflexivity|].
    intros d Hdin. rewrite Forall_forall in Hc. specialize (Hc d Hdin). lia.
Qed.

Lemma ids_are_fresh_witness :
  let s := (transact (run (OpCreateUser (mkInsertUser "ada" "pw"))) constructor).1 in
  NoDup (claim_id <$> claims s).
Proof.
  intros s.
  refine (proj2 (proj2 (ids_are_fresh s _))).
  apply reachable_run. apply reachable_constructor.
Defined.

Lemma find_app_last {A : Type} (f : A -> bool) (l : list A) (x : A) :
  List.find f (l ++ [x])
    = match List.find f l with
      | Some y => Some y
      | None => if f x then Some x else None
      end.
Proof.
  induction l as [|a l IH]; cbn [app List.find].
  - destruct (f x); reflexivity.
  - destruct (f a); [reflexivity|exact IH].
Qed.

(** X30: [createUser] does not look at the user name: in every store
    reached from a new one it succeeds also for a name that is taken,
    and [getUserByUsername] keeps answering with the first user created
    under a name; the new user is found by name only if the name was
    free, and the answer for every other name is unchanged. *)
Theorem getUserByUsername_first :
  forall (s : State),
    reachable s ->
    forall insertUser, exists user s',
      createUser insertUser s = Ok (user, s') /\
      (forall name first,
         getUserByUsername name s = Ok (Some first, s) ->
         getUserByUsername name s' = Ok (Some first, s')) /\
      (getUserByUsername (insert_username insertUser) s = Ok (None, s) ->
       getUserByUsername (insert_username insertUser) s' = Ok (Some user, s')) /\
      (forall name, name <> insert_username insertUser ->
         getUserByUsername name s' = map_world (fun _ => s') (getUserByUsername name s)).
Proof.
  intros s Hr ins. destruct (reachable_numbered s Hr) as [Hu _].
  exists (mkUser (Z.of_nat (length (users s)) + 1) (insert_username ins) (insert_password ins)).
  eexists. split; [unfold createUser, bind, gets, modify, ret; reflexivity|].
  unfold getUserByUsername, gets, map_world. cbn [users].
  rewrite map_set_fresh by (apply users_numbered_fresh; exact Hu).
  rewrite List.map_app. cbn [List.map snd].
  split; [|split].
  - intros name first [= Hf]. rewrite find_app_last, Hf. reflexivity.
  - intros [= Hf]. rewrite find_app_last, Hf. cbn [username].
    rewrite String.eqb_refl. reflexivity.
  - intros name Hne. rewrite find_app_last. cbn [username].
    destruct (List.find _ (List.map snd (users s))); [reflexivity|].
    apply not_eq_sym in Hne. apply String.eqb_neq in Hne. rewrite Hne. reflexivity.
Qed.

Lemma getUserByUsername_first_witness :
  let s := (transact (run (OpCreateUser (mkInsertUser "ada" "pw"))) constructor).1 in
  exists user s',
    createUser (mkInsertUser "ada" "other") s = Ok (user, s') /\
    getUserByUsername "ada" s' = Ok (Some (mkUser 1 "ada" "pw"), s').
Proof.
  intros s.
  destruct (getUserByUsername_first s) with (insertUser := mkInsertUser "ada" "other")
    as (user & s' & H1 & H2 & _).
  - apply reachable_run. apply reachable_constructor.
  - exists user, s'. split; [exact H1|]. apply H2. reflexivity.
Defined.

End MemStorageFacts.

(** ** The faucet's cooldown *)

Module FaucetFacts.
Import MemStorage Faucet.

Lemma ceilDiv_bounds (a b h : Z) :
  0 < b -> 0 < a <= h * b -> 1 <= ceilDiv a b <= h.
Proof.
  intros Hb Ha. unfold ceilDiv.
  assert (H1 : (- a) / b < 0).
  { apply Z.div_lt_upper_bound; [exact Hb|]. lia. }
  assert (H2 : - h <= (- a) / b).
  { apply Z.div_le_lower_bound; [exact Hb|]. nia. }
  lia.
Qed.

Section ToLowerCase.
Variable toLowerCase : string -> string.

(** X29: once a claim is recorded for an address at time [t] (no
    stored claim being later), a request for the same address, in any
    letter case and for any token, is answered [TooManyRequests] until
    [cooldownHours] hours have passed since [t], with a remaining time
    between 1 and [cooldownHours] hours, and proceeds from then on. *)
Theorem cooldown_after_claim :
  forall (s s1 : State) (insertClaim : InsertFaucetClaim) (t now : Z)
         (claim : FaucetClaim) (address : string),
    (forall d, d ∈ claims s -> claimedAt d <= t) ->
    recordFaucetClaim insertClaim t s = Ok (claim, s1) ->
    toLowerCase address = toLowerCase (insert_address insertClaim) ->
    t <= now ->
    exists last,
      getLastClaim toLowerCase address None s1 = Ok (Some last, s1) /\
      claimedAt last = t /\
      (now < t + cooldownHours (settings s1) * 60 * 60 * 1000 ->
       exists remainingHours,
         checkCooldown now (settings s1) (Some last)
           = TooManyRequests remainingHours (token last) /\
         1 <= remainingHours <= cooldownHours (settings s1)) /\
      (t + cooldownHours (settings s1) * 60 * 60 * 1000 <= now ->
       checkCooldown now (settings s1) (Some last) = Proceed).
Proof.
  intros s s1 ins t now claim address Hmax Hrec Haddr Hnow.
  destruct (MemStorageFacts.getLastClaim_latest toLowerCase s1 address None)
    as (last & Hget & Hnone & Hsome).
  unfold recordFaucetClaim in Hrec. inv_run.
  cbn [claims settings] in *.
  set (claim := mkFaucetClaim (claimIdCounter s) (insert_address ins) (insert_token ins)
                  (insert_amount ins) (insert_txHash ins) t) in *.
  assert (Hm : matchesClaim toLowerCase address None claim = true).
  { unfold matchesClaim. cbn [claim_address claim]. rewrite Haddr, String.eqb_refl. reflexivity. }
  assert (Hin : claim ∈ claims s ++ [claim]).
  { apply elem_of_app. right. apply list_elem_of_here. }
  destruct last as [last|].
  2:{ rewrite (proj1 Hnone eq_refl claim Hin) in Hm. discriminate. }
  destruct (Hsome last eq_refl) as (Hlin & _ & Hlatest).
  assert (Ht : claimedAt last = t).
  { specialize (Hlatest claim Hin Hm). cbn [claimedAt claim] in Hlatest.
    apply elem_of_app in Hlin. destruct Hlin as [Hl|Hl].
    - specialize (Hmax last Hl). lia.
    - apply list_elem_of_singleton in Hl. subst last. reflexivity. }
  exists last. split; [exact Hget|]. split; [exact Ht|].
  unfold checkCooldown. rewrite Ht. split.
  - intros Hlt.
    destruct (Z.ltb_spec (now - t) (cooldownHours (settings s) * 60 * 60 * 1000)); [|lia].
    eexists. split; [reflexivity|].
    apply ceilDiv_bounds; lia.
  - intros Hge.
    destruct (Z.ltb_spec (now - t) (cooldownHours (settings s) * 60 * 60 * 1000));
      [lia|reflexivity].
Qed.

End ToLowerCase.

Lemma cooldown_after_claim_witness :
  let s1 := (transact (recordFaucetClaim (mkInsertFaucetClaim "0xAB" "PUSD" "1000" "0x1") 5000)
               constructor).1 in
  exists last remainingHours,
    getLastClaim (fun a => a) "0xAB" None s1 = Ok (Some last, s1) /\
    checkCooldown (5000 + 3600000) (settings s1) (Some last)
      = TooManyRequests remainingHours (token last) /\
    1 <= remainingHours <= 24.
Proof.
  intros s1.
  destruct (cooldown_after_claim (fun a => a) constructor s1
              (mkInsertFaucetClaim "0xAB" "PUSD" "1000" "0x1") 5000 (5000 + 3600000)
              (mkFaucetClaim 1 "0xAB" "PUSD" "1000" "0x1" 5000) "0xAB")
    as (last & H1 & H2 & H3 & _).
  - intros d Hd. inversion Hd.
  - reflexivity.
  - reflexivity.
  - lia.
  - destruct H3 as (h & Hh & Hb); [vm_compute; reflexivity|].
    exists last, h. split; [exact H1|]. split; [exact Hh|exact Hb].
Defined.

End FaucetFacts.
